(** * MiniVHD sector I/O (src/minivhd_io.c): a shallow embedding and its properties

    The embedding follows [minivhd_io.c] function by function.  C integers are
    [Z] with their wrap-around written out, memory buffers and the table of
    block offsets are maps from an index to a value, the [FILE] stream is a
    record holding the file's bytes, its length and the position cursor, and
    every function that works on an image handle takes the handle and gives it
    back updated.  Part I is the embedding, with example images and the
    predicates the statements use; Part II has the lemmas and, marked with
    the claim they settle, the theorems. *)

From Stdlib Require Import ZArith List Bool Lia.
Import ListNotations.
Local Open Scope Z_scope.

(** * Part I: the embedding *)

(** ** C integer types *)

Module CInt.

Definition INT_MIN : Z := - 2 ^ 31.
Definition INT_MAX : Z := 2 ^ 31 - 1.

(** Conversion to [int]: two's complement wrap-around. *)
Definition int32 (x : Z) : Z := (x + 2 ^ 31) mod 2 ^ 32 - 2 ^ 31.
(** Conversion to [uint32_t], and to [size_t] / [uint64_t]. *)
Definition uint32 (x : Z) : Z := x mod 2 ^ 32.
Definition uint64 (x : Z) : Z := x mod 2 ^ 64.
(** Conversion to [uint8_t]. *)
Definition uint8 (x : Z) : Z := x mod 2 ^ 8.

Definition is_int (x : Z) : Prop := INT_MIN <= x <= INT_MAX.

End CInt.
Import CInt.

(** ** Constants of minivhd_internal.h and minivhd.h *)

(** Modelled from the spec: [minivhd_internal.h] is not part of the sources
    at hand.  The sector size is the fixed constant of the format, 512 bytes
    (the value the spec's scenarios use); the footer is a fixed-size record of
    one sector; the unallocated-block sentinel is the all-ones 32-bit BAT
    entry. *)
Definition MVHD_SECTOR_SIZE : Z := 512.
Definition MVHD_FOOTER_SIZE : Z := 512.
Definition MVHD_SPARSE_BLK : Z := 4294967295.

(** The three disk types a footer can declare. *)
Inductive MVHDType := MVHD_TYPE_FIXED | MVHD_TYPE_DYNAMIC | MVHD_TYPE_DIFF.

Definition MVHDType_eqb (a b : MVHDType) : bool :=
  match a, b with
  | MVHD_TYPE_FIXED, MVHD_TYPE_FIXED => true
  | MVHD_TYPE_DYNAMIC, MVHD_TYPE_DYNAMIC => true
  | MVHD_TYPE_DIFF, MVHD_TYPE_DIFF => true
  | _, _ => false
  end.

(** ** Memory buffers *)

(** A buffer ([uint8_t*], [void*]) is the map from a byte index to the byte
    stored there; a pointer into it is an index. *)
Definition mem := Z -> Z.

Definition in_range (lo len i : Z) : bool := (lo <=? i) && (i <? lo + len).

(** [memset(ptr, c, n)]; [n] is a [size_t]. *)
Definition memset (m : mem) (ptr c n : Z) : mem :=
  fun i => if in_range ptr (uint64 n) i then c else m i.

(** ** The file stream *)

(** What was asked of the stream, most recent first: each [fread] and
    [fwrite] with the position it started at and the byte count requested, and
    each entry into the Block Allocator with the block and the value its BAT
    slot held on entry.  The log is ghost state: no code reads it. *)
Inductive io_event :=
| EvRead (at_pos nbytes : Z)
| EvWrite (at_pos nbytes : Z)
| EvCreateBlock (blk slot : Z).

(** [data i] is byte [i] of the file for [0 <= i < size]. *)
Record FILE := mkFILE {
  data : mem;
  size : Z;
  pos : Z;
  log : list io_event
}.

Inductive whence := SEEK_SET | SEEK_CUR | SEEK_END.

(** [fseeko64]: a seek to a negative position fails and leaves the cursor
    where it was; a seek past the end is allowed. *)
Definition fseeko64 (f : FILE) (off : Z) (w : whence) : FILE :=
  let base := match w with SEEK_SET => 0 | SEEK_CUR => pos f | SEEK_END => size f end in
  if base + off <? 0 then f
  else {| data := data f; size := size f; pos := base + off; log := log f |}.

Definition ftello64 (f : FILE) : Z := pos f.

(** [fread(ptr, n, 1, f)]: the byte count is a [size_t]; what the file holds
    from the cursor on, up to the count, is copied to [ptr], the rest of the
    buffer is left as it was, and the cursor moves by the bytes copied. *)
Definition fread_count (f : FILE) (n : Z) : Z :=
  Z.min (uint64 n) (Z.max 0 (size f - pos f)).

Definition fread (f : FILE) (m : mem) (ptr n : Z) : mem * FILE :=
  let got := fread_count f n in
  (fun i => if in_range ptr got i then data f (pos f + (i - ptr)) else m i,
   {| data := data f; size := size f; pos := pos f + got;
      log := EvRead (pos f) (uint64 n) :: log f |}).

(** [fwrite(ptr, n, 1, f)]: the bytes replace what the file holds at the
    cursor, the file grows when the write ends past its end, and a gap between
    the old end and the cursor reads as zero. *)
Definition fwrite (f : FILE) (m : mem) (ptr n : Z) : FILE :=
  let req := uint64 n in
  if req =? 0 then
    {| data := data f; size := size f; pos := pos f;
       log := EvWrite (pos f) req :: log f |}
  else
    {| data := fun i => if in_range (pos f) req i then m (ptr + (i - pos f))
                        else if i <? size f then data f i else 0;
       size := Z.max (size f) (pos f + req);
       pos := pos f + req;
       log := EvWrite (pos f) req :: log f |}.

(** [for (s = lo; n iterations; s++) body], on the loop's state. *)
Fixpoint for_range {A : Type} (n : nat) (s : Z) (body : Z -> A -> A) (a : A) : A :=
  match n with
  | O => a
  | S n' => for_range n' (s + 1) body (body s a)
  end.

(** ** The image handle *)

Record MVHDGeom := mkGeom { cyl : Z; heads : Z; spt : Z }.

Record MVHDFooter := mkFooter { geom : MVHDGeom; disk_type : MVHDType }.

Record MVHDSparseHeader := mkSparse { bat_offset : Z; block_sz : Z }.

(** [curr_bitmap] is the buffer of [sector_count] sectors, [curr_block] the
    block it was loaded for (negative: none). *)
Record MVHDSectorBitmap := mkBitmap {
  curr_bitmap : mem;
  sector_count : Z;
  curr_block : Z
}.

(** [block_offset] is the in-memory BAT: the map from a block index to its
    entry.  An entry is a [uint32_t]: [mvhd_write_bat_entry] takes the size of
    one for the 4-byte stride of the BAT in the file and passes it through
    [cpu_to_be32], and the entries are compared with [MVHD_SPARSE_BLK]; so
    arithmetic on an entry and [int]s is 32-bit unsigned arithmetic.  The
    [parent] pointer is not a field: a differencing chain is the list of its
    handles, child first (see [mvhd_diff_read]). *)
Record MVHDMeta := mkMeta {
  f : FILE;
  footer : MVHDFooter;
  sparse : MVHDSparseHeader;
  block_offset : Z -> Z;
  sect_per_block : Z;
  bitmap : MVHDSectorBitmap
}.

Definition with_f (vhdm : MVHDMeta) (f' : FILE) : MVHDMeta :=
  {| f := f'; footer := footer vhdm; sparse := sparse vhdm;
     block_offset := block_offset vhdm; sect_per_block := sect_per_block vhdm;
     bitmap := bitmap vhdm |}.

Definition with_bitmap (vhdm : MVHDMeta) (b : MVHDSectorBitmap) : MVHDMeta :=
  {| f := f vhdm; footer := footer vhdm; sparse := sparse vhdm;
     block_offset := block_offset vhdm; sect_per_block := sect_per_block vhdm;
     bitmap := b |}.

Definition with_block_offset (vhdm : MVHDMeta) (bo : Z -> Z) : MVHDMeta :=
  {| f := f vhdm; footer := footer vhdm; sparse := sparse vhdm;
     block_offset := bo; sect_per_block := sect_per_block vhdm;
     bitmap := bitmap vhdm |}.

Definition with_curr_bitmap (vhdm : MVHDMeta) (m : mem) : MVHDMeta :=
  with_bitmap vhdm {| curr_bitmap := m; sector_count := sector_count (bitmap vhdm);
                      curr_block := curr_block (bitmap vhdm) |}.

Definition with_curr_block (vhdm : MVHDMeta) (blk : Z) : MVHDMeta :=
  with_bitmap vhdm {| curr_bitmap := curr_bitmap (bitmap vhdm);
                      sector_count := sector_count (bitmap vhdm);
                      curr_block := blk |}.

(** [vhdm->footer.geom.cyl * vhdm->footer.geom.heads * vhdm->footer.geom.spt],
    an [int] product. *)
Definition total_sectors (vhdm : MVHDMeta) : Z :=
  int32 (cyl (geom (footer vhdm)) * heads (geom (footer vhdm)) * spt (geom (footer vhdm))).

(** ** The bit array macros *)

Definition VHD_SETBIT (A : mem) (k : Z) : mem :=
  fun i => if i =? Z.quot k 8
           then uint8 (Z.lor (A i) (Z.shiftr 128 (Z.rem k 8)))
           else A i.

(** The value of the macro; C reads it as true when it is not zero. *)
Definition VHD_TESTBIT (A : mem) (k : Z) : Z :=
  Z.land (A (Z.quot k 8)) (Z.shiftr 128 (Z.rem k 8)).

Definition c_true (v : Z) : bool := negb (v =? 0).

(** ** minivhd_io.c *)

(** [mvhd_check_sectors]: the two out-parameters [*transfer_sect] and
    [*trunc_sect] are returned as a pair.  The subtractions are [int]
    subtractions. *)
Definition mvhd_check_sectors (offset num_sectors total_sectors : Z) : Z * Z :=
  let transfer_sect := num_sectors in
  let trunc_sect := 0 in
  if int32 (total_sectors - offset) <? transfer_sect then
    let transfer_sect := int32 (total_sectors - offset) in
    let trunc_sect := int32 (num_sectors - transfer_sect) in
    (transfer_sect, trunc_sect)
  else (transfer_sect, trunc_sect).

(** The local [zero_bytes] array, and any other all-zero source. *)
Definition zero_bytes : mem := fun _ => 0.

Definition mvhd_write_empty_sectors (f : FILE) (sector_count : Z) : FILE :=
  for_range (Z.to_nat sector_count) 0
    (fun _ f => fwrite f zero_bytes 0 MVHD_SECTOR_SIZE) f.

Definition mvhd_read_sect_bitmap (vhdm : MVHDMeta) (blk : Z) : MVHDMeta :=
  let nbytes := int32 (sector_count (bitmap vhdm) * MVHD_SECTOR_SIZE) in
  let vhdm :=
    if negb (block_offset vhdm blk =? MVHD_SPARSE_BLK) then
      let f1 := fseeko64 (f vhdm) (uint32 (block_offset vhdm blk * MVHD_SECTOR_SIZE)) SEEK_SET in
      let r := fread f1 (curr_bitmap (bitmap vhdm)) 0 nbytes in
      with_curr_bitmap (with_f vhdm (snd r)) (fst r)
    else
      with_curr_bitmap vhdm (memset (curr_bitmap (bitmap vhdm)) 0 0 nbytes) in
  with_curr_block vhdm blk.

Definition mvhd_write_curr_sect_bitmap (vhdm : MVHDMeta) : MVHDMeta :=
  if 0 <=? curr_block (bitmap vhdm) then
    let abs_offset :=
      uint32 (block_offset vhdm (curr_block (bitmap vhdm)) * MVHD_SECTOR_SIZE) in
    let f1 := fseeko64 (f vhdm) abs_offset SEEK_SET in
    with_f vhdm (fwrite f1 (curr_bitmap (bitmap vhdm)) 0
                   (MVHD_SECTOR_SIZE * uint64 (sector_count (bitmap vhdm))))
  else vhdm.

(** Modelled from the spec: [bswap.h] is not part of the sources at hand.
    [cpu_to_be32] puts a value in the file's byte order, which is big-endian:
    the four bytes of the converted word, as they lie in memory, are the
    value's bytes from the most significant down. *)
Definition cpu_to_be32 (v : Z) : mem :=
  fun i => (uint32 v / 2 ^ (8 * (3 - i))) mod 256.

Definition mvhd_write_bat_entry (vhdm : MVHDMeta) (blk : Z) : MVHDMeta :=
  let table_offset := uint64 (bat_offset (sparse vhdm) + uint64 blk * 4) in
  let offset := cpu_to_be32 (block_offset vhdm blk) in
  let f1 := fseeko64 (f vhdm) table_offset SEEK_SET in
  with_f vhdm (fwrite f1 offset 0 4).

(** Modelled from the spec: [mvhd_is_conectix_str] is declared in
    [minivhd_util.h] and defined outside the sources at hand.  A footer is
    validated by its magic string: the eight bytes of the cookie "conectix". *)
Definition conectix : list Z := [99; 111; 110; 101; 99; 116; 105; 120].

Definition mvhd_is_conectix_str (buffer : mem) : bool :=
  forallb (fun i => buffer (Z.of_nat i) =? nth i conectix 0) (seq 0 8).

(** The padding loop of [mvhd_create_block]. *)
Definition write_padding (f : FILE) (padding_amount : Z) : FILE :=
  for_range (Z.to_nat padding_amount) 0 (fun _ f => fwrite f zero_bytes 0 1) f.

(** [f0] is the stream with the entry noted in the log; the local [footer]
    array starts out as zeros. *)
Definition mvhd_create_block (vhdm : MVHDMeta) (blk : Z) : MVHDMeta :=
  let f0 := {| data := data (f vhdm); size := size (f vhdm); pos := pos (f vhdm);
               log := EvCreateBlock blk (block_offset vhdm blk) :: log (f vhdm) |} in
  let footer := zero_bytes in
  let f1 := fseeko64 f0 (- MVHD_FOOTER_SIZE) SEEK_END in
  let r := fread f1 footer 0 MVHD_FOOTER_SIZE in
  let footer := fst r in
  let f2 := fseeko64 (snd r) (- MVHD_FOOTER_SIZE) SEEK_END in
  let r' :=
    if negb (mvhd_is_conectix_str footer) then
      let g1 := fseeko64 f2 0 SEEK_SET in
      let r := fread g1 footer 0 MVHD_FOOTER_SIZE in
      (fst r, fseeko64 (snd r) 0 SEEK_END)
    else (footer, f2) in
  let footer := fst r' in
  let f3 := snd r' in
  let abs_offset := ftello64 f3 in
  let r'' :=
    if negb (Z.rem abs_offset MVHD_SECTOR_SIZE =? 0) then
      let padding_amount := MVHD_SECTOR_SIZE - Z.rem abs_offset MVHD_SECTOR_SIZE in
      (write_padding f3 padding_amount, abs_offset + padding_amount)
    else (f3, abs_offset) in
  let f4 := fst r'' in
  let abs_offset := snd r'' in
  let sect_offset := int32 (Z.quot abs_offset MVHD_SECTOR_SIZE) in
  let blk_size_sectors := Z.quot (block_sz (sparse vhdm)) MVHD_SECTOR_SIZE in
  let f5 := mvhd_write_empty_sectors f4
              (int32 (sector_count (bitmap vhdm) + blk_size_sectors)) in
  let f6 := mvhd_write_empty_sectors f5 5 in
  let f7 := fwrite f6 footer 0 MVHD_FOOTER_SIZE in
  let vhdm := with_block_offset (with_f vhdm f7)
                (fun b => if b =? blk then uint32 sect_offset else block_offset vhdm b) in
  mvhd_write_bat_entry vhdm blk.

(** The readers and writers return the truncated-sector count, the handle and,
    for a read, the memory that holds the output buffer.  [m] is the memory
    and [out_buff] / [in_buff] the buffer's address in it. *)
Definition mvhd_fixed_read (vhdm : MVHDMeta) (offset num_sectors : Z)
    (m : mem) (out_buff : Z) : Z * MVHDMeta * mem :=
  let c := mvhd_check_sectors offset num_sectors (total_sectors vhdm) in
  let transfer_sectors := fst c in
  let truncated_sectors := snd c in
  let addr := offset * MVHD_SECTOR_SIZE in
  let f1 := fseeko64 (f vhdm) addr SEEK_SET in
  let r := fread f1 m out_buff (int32 (transfer_sectors * MVHD_SECTOR_SIZE)) in
  (truncated_sectors, with_f vhdm (snd r), fst r).

(** The state of the loop of [mvhd_sparse_read]. *)
Record rd_state := mkRd {
  rd_vhdm : MVHDMeta;
  rd_prev_blk : Z;
  rd_buff : Z;
  rd_mem : mem
}.

Definition sparse_read_body (s : Z) (st : rd_state) : rd_state :=
  let vhdm := rd_vhdm st in
  let blk := Z.quot s (sect_per_block vhdm) in
  let sib := Z.rem s (sect_per_block vhdm) in
  let vhdm :=
    if negb (blk =? rd_prev_blk st) then
      if negb (curr_block (bitmap vhdm) =? blk) then
        let vhdm := mvhd_read_sect_bitmap vhdm blk in
        with_f vhdm (fseeko64 (f vhdm) (int32 (sib * MVHD_SECTOR_SIZE)) SEEK_CUR)
      else
        let addr := uint32 (block_offset vhdm blk + sector_count (bitmap vhdm) + sib)
                    * MVHD_SECTOR_SIZE in
        with_f vhdm (fseeko64 (f vhdm) addr SEEK_SET)
    else vhdm in
  let prev_blk := if negb (blk =? rd_prev_blk st) then blk else rd_prev_blk st in
  if c_true (VHD_TESTBIT (curr_bitmap (bitmap vhdm)) sib) then
    let r := fread (f vhdm) (rd_mem st) (rd_buff st) MVHD_SECTOR_SIZE in
    {| rd_vhdm := with_f vhdm (snd r); rd_prev_blk := prev_blk;
       rd_buff := rd_buff st + MVHD_SECTOR_SIZE; rd_mem := fst r |}
  else
    {| rd_vhdm := vhdm; rd_prev_blk := prev_blk;
       rd_buff := rd_buff st + MVHD_SECTOR_SIZE;
       rd_mem := memset (rd_mem st) (rd_buff st) 0 MVHD_SECTOR_SIZE |}.

Definition mvhd_sparse_read (vhdm : MVHDMeta) (offset num_sectors : Z)
    (m : mem) (out_buff : Z) : Z * MVHDMeta * mem :=
  let c := mvhd_check_sectors offset num_sectors (total_sectors vhdm) in
  let transfer_sectors := fst c in
  let truncated_sectors := snd c in
  let ls := int32 (offset + transfer_sectors) in
  let st := for_range (Z.to_nat (ls - offset)) offset sparse_read_body
              {| rd_vhdm := vhdm; rd_prev_blk := -1; rd_buff := out_buff; rd_mem := m |} in
  (truncated_sectors, rd_vhdm st, rd_mem st).

(** The [while] loop of [mvhd_diff_read] for sector [s].  The chain is the
    list of handles from [curr_vhdm] up: the head is [curr_vhdm] and the
    second element its [parent].  The result is the number of [parent] steps
    taken and the chain with the bitmap loads done on the way; an empty chain
    is a [NULL] handle, which the loop's test dereferences: [None]. *)
Fixpoint diff_walk (s : Z) (chain : list MVHDMeta) : option (nat * list MVHDMeta) :=
  match chain with
  | [] => None
  | curr_vhdm :: parents =>
    if MVHDType_eqb (disk_type (footer curr_vhdm)) MVHD_TYPE_DIFF then
      let blk := Z.quot s (sect_per_block curr_vhdm) in
      let sib := Z.rem s (sect_per_block curr_vhdm) in
      let curr_vhdm :=
        if negb (curr_block (bitmap curr_vhdm) =? blk)
        then mvhd_read_sect_bitmap curr_vhdm blk else curr_vhdm in
      if negb (c_true (VHD_TESTBIT (curr_bitmap (bitmap curr_vhdm)) sib)) then
        match diff_walk s parents with
        | Some (k, parents') => Some (S k, curr_vhdm :: parents')
        | None => None
        end
      else Some (O, curr_vhdm :: parents)
    else Some (O, curr_vhdm :: parents)
  end.

Fixpoint set_nth {A : Type} (k : nat) (l : list A) (a : A) : list A :=
  match l, k with
  | [], _ => []
  | _ :: l', O => a :: l'
  | x :: l', S k' => x :: set_nth k' l' a
  end.

(** The state of the loop of [mvhd_diff_read]: the chain of handles that
    starts at [vhdm], the memory and [buff].  [None] once a [NULL] parent was
    dereferenced. *)
Record diff_state := mkDiff {
  df_chain : list MVHDMeta;
  df_buff : Z;
  df_mem : mem
}.

Definition diff_read_body (s : Z) (ost : option diff_state) : option diff_state :=
  match ost with
  | None => None
  | Some st =>
    match diff_walk s (df_chain st) with
    | None => None
    | Some (k, chain) =>
      match nth_error chain k with
      | None => None
      | Some curr_vhdm =>
        let r :=
          if MVHDType_eqb (disk_type (footer curr_vhdm)) MVHD_TYPE_DIFF
             || MVHDType_eqb (disk_type (footer curr_vhdm)) MVHD_TYPE_DYNAMIC
          then mvhd_sparse_read curr_vhdm s 1 (df_mem st) (df_buff st)
          else mvhd_fixed_read curr_vhdm s 1 (df_mem st) (df_buff st) in
        Some {| df_chain := set_nth k chain (snd (fst r));
                df_buff := df_buff st + MVHD_SECTOR_SIZE;
                df_mem := snd r |}
      end
    end
  end.

(** [chain] is [vhdm :: vhdm->parent :: ...].  The geometry, and so the
    clamping, is that of [vhdm], the head. *)
Definition mvhd_diff_read (chain : list MVHDMeta) (offset num_sectors : Z)
    (m : mem) (out_buff : Z) : option (Z * list MVHDMeta * mem) :=
  match chain with
  | [] => None
  | vhdm :: _ =>
    let c := mvhd_check_sectors offset num_sectors (total_sectors vhdm) in
    let transfer_sectors := fst c in
    let truncated_sectors := snd c in
    let ls := int32 (offset + transfer_sectors) in
    match for_range (Z.to_nat (ls - offset)) offset diff_read_body
            (Some {| df_chain := chain; df_buff := out_buff; df_mem := m |}) with
    | None => None
    | Some st => Some (truncated_sectors, df_chain st, df_mem st)
    end
  end.

Definition mvhd_fixed_write (vhdm : MVHDMeta) (offset num_sectors : Z)
    (m : mem) (in_buff : Z) : Z * MVHDMeta :=
  let c := mvhd_check_sectors offset num_sectors (total_sectors vhdm) in
  let transfer_sectors := fst c in
  let truncated_sectors := snd c in
  let addr := offset * MVHD_SECTOR_SIZE in
  let f1 := fseeko64 (f vhdm) addr SEEK_SET in
  (truncated_sectors,
   with_f vhdm (fwrite f1 m in_buff (int32 (transfer_sectors * MVHD_SECTOR_SIZE)))).

(** The state of the loop of [mvhd_sparse_diff_write]. *)
Record wr_state := mkWr {
  wr_vhdm : MVHDMeta;
  wr_prev_blk : Z;
  wr_buff : Z
}.

Definition sparse_diff_write_body (m : mem) (s : Z) (st : wr_state) : wr_state :=
  let vhdm := wr_vhdm st in
  let blk := Z.quot s (sect_per_block vhdm) in
  let sib := Z.rem s (sect_per_block vhdm) in
  let vhdm :=
    if block_offset vhdm blk =? MVHD_SPARSE_BLK then
      mvhd_create_block (mvhd_read_sect_bitmap vhdm blk) blk
    else vhdm in
  let vhdm :=
    if negb (blk =? wr_prev_blk st) then
      if negb (curr_block (bitmap vhdm) =? blk) then
        let vhdm :=
          if 0 <=? wr_prev_blk st then mvhd_write_curr_sect_bitmap vhdm else vhdm in
        let vhdm := mvhd_read_sect_bitmap vhdm blk in
        with_f vhdm (fseeko64 (f vhdm) (int32 (sib * MVHD_SECTOR_SIZE)) SEEK_CUR)
      else
        let addr := uint32 (block_offset vhdm blk + sector_count (bitmap vhdm) + sib)
                    * MVHD_SECTOR_SIZE in
        with_f vhdm (fseeko64 (f vhdm) addr SEEK_SET)
    else vhdm in
  let prev_blk := if negb (blk =? wr_prev_blk st) then blk else wr_prev_blk st in
  let vhdm := with_f vhdm (fwrite (f vhdm) m (wr_buff st) MVHD_SECTOR_SIZE) in
  let vhdm := with_curr_bitmap vhdm (VHD_SETBIT (curr_bitmap (bitmap vhdm)) sib) in
  {| wr_vhdm := vhdm; wr_prev_blk := prev_blk;
     wr_buff := wr_buff st + MVHD_SECTOR_SIZE |}.

Definition mvhd_sparse_diff_write (vhdm : MVHDMeta) (offset num_sectors : Z)
    (m : mem) (in_buff : Z) : Z * MVHDMeta :=
  let c := mvhd_check_sectors offset num_sectors (total_sectors vhdm) in
  let transfer_sectors := fst c in
  let truncated_sectors := snd c in
  let ls := int32 (offset + transfer_sectors) in
  let st := for_range (Z.to_nat (ls - offset)) offset (sparse_diff_write_body m)
              {| wr_vhdm := vhdm; wr_prev_blk := -1; wr_buff := in_buff |} in
  (truncated_sectors, mvhd_write_curr_sect_bitmap (wr_vhdm st)).

Definition mvhd_noop_write (vhdm : MVHDMeta) (offset num_sectors : Z)
    (m : mem) (in_buff : Z) : Z := 0.

(** ** Example images *)

Module Examples.

(** A buffer whose every byte is [0xAA], to tell written bytes from untouched
    ones. *)
Definition fresh_buffer : mem := fun _ => 170.

Definition no_bitmap : MVHDSectorBitmap :=
  {| curr_bitmap := zero_bytes; sector_count := 0; curr_block := -1 |}.

(** A fixed image of 1000 sectors (10 x 10 x 10): sector [k] holds the byte
    [k mod 256] throughout, and the footer follows the data. *)
Definition fixed_1000 : MVHDMeta :=
  {| f := {| data := fun i => (i / 512) mod 256; size := 1000 * 512 + 512;
             pos := 0; log := [] |};
     footer := {| geom := {| cyl := 10; heads := 10; spt := 10 |};
                  disk_type := MVHD_TYPE_FIXED |};
     sparse := {| bat_offset := 0; block_sz := 0 |};
     block_offset := fun _ => 0;
     sect_per_block := 0;
     bitmap := no_bitmap |}.

End Examples.

Module ExampleSparse.

(** An empty dynamic image of 8192 sectors (32 x 16 x 16) in blocks of 4096
    sectors: the copy of the footer at 0, the sparse header at 512, the BAT
    at 1536 (one sector, every slot the sentinel) and the footer at 2048.  Of
    the two footers only the cookie is spelled out. *)
Definition cookie_at (base i : Z) : Z := nth (Z.to_nat (i - base)) conectix 0.

Definition empty_sparse_data : mem := fun i =>
  if in_range 0 8 i then cookie_at 0 i
  else if in_range 1536 512 i then 255
  else if in_range 2048 8 i then cookie_at 2048 i
  else 0.

Definition empty_sparse : MVHDMeta :=
  {| f := {| data := empty_sparse_data; size := 2560; pos := 0; log := [] |};
     footer := {| geom := {| cyl := 32; heads := 16; spt := 16 |};
                  disk_type := MVHD_TYPE_DYNAMIC |};
     sparse := {| bat_offset := 1536; block_sz := 2097152 |};
     block_offset := fun _ => MVHD_SPARSE_BLK;
     sect_per_block := 4096;
     bitmap := {| curr_bitmap := zero_bytes; sector_count := 1; curr_block := -1 |} |}.


End ExampleSparse.

(** ** Predicates of the statements *)

(** [v'] is the image [v] as far as a read can tell: the same file content
    and the same handle, up to the position cursor, the log and the bitmap
    cache. *)
Definition same_image (v v' : MVHDMeta) : Prop :=
  data (f v') = data (f v) /\ size (f v') = size (f v) /\
  footer v' = footer v /\ sparse v' = sparse v /\
  block_offset v' = block_offset v /\ sect_per_block v' = sect_per_block v /\
  sector_count (bitmap v') = sector_count (bitmap v).

(** The cached bitmap is all zero over its [sector_count] sectors. *)
Definition bitmap_zero (v : MVHDMeta) : Prop :=
  forall i, 0 <= i < sector_count (bitmap v) * MVHD_SECTOR_SIZE ->
            curr_bitmap (bitmap v) i = 0.

(** The bitmap buffer is a whole number of sectors, has a bit for every
    sector of a block, and a block has sectors. *)
Definition bitmap_fits (v : MVHDMeta) : Prop :=
  0 < sect_per_block v /\
  0 <= sector_count (bitmap v) * MVHD_SECTOR_SIZE <= INT_MAX /\
  sect_per_block v <= sector_count (bitmap v) * MVHD_SECTOR_SIZE * 8.

(** The entries into the Block Allocator a log records, most recent first:
    the block and the value its BAT slot held on entry. *)
Fixpoint allocs (l : list io_event) : list (Z * Z) :=
  match l with
  | [] => []
  | EvCreateBlock blk slot :: l' => (blk, slot) :: allocs l'
  | _ :: l' => allocs l'
  end.

(** The blocks the Block Allocator was entered for. *)
Definition created (l : list io_event) : list Z := map fst (allocs l).

(** The first byte offset at or after [x] that is a multiple of the sector
    size. *)
Definition sector_align (x : Z) : Z :=
  MVHD_SECTOR_SIZE * ((x + (MVHD_SECTOR_SIZE - 1)) / MVHD_SECTOR_SIZE).

(** The last [MVHD_FOOTER_SIZE] bytes of a file, as a buffer. *)
Definition trailer (fl : FILE) : mem := fun j => data fl (size fl - MVHD_FOOTER_SIZE + j).

(** What every step of a write leaves as it is, the Block Allocator apart:
    the BAT, the Block Allocator's entries in the log and the handle's
    constants; the file does not shrink. *)
Definition steady (v v' : MVHDMeta) : Prop :=
  block_offset v' = block_offset v /\
  allocs (log (f v')) = allocs (log (f v)) /\
  size (f v) <= size (f v') /\
  footer v' = footer v /\ sparse v' = sparse v /\
  sect_per_block v' = sect_per_block v /\
  sector_count (bitmap v') = sector_count (bitmap v).

(** The allocation discipline: the Block Allocator was only ever entered for
    a block whose BAT slot held the sentinel, each block it was entered for
    is allocated now, and it was entered for no block twice. *)
Definition alloc_inv (v : MVHDMeta) : Prop :=
  (forall blk slot, In (blk, slot) (allocs (log (f v))) ->
     slot = MVHD_SPARSE_BLK /\ block_offset v blk <> MVHD_SPARSE_BLK) /\
  NoDup (created (log (f v))).

(** The layout the Block Allocator relies on: the sizes in the handle are
    sane, the file holds a footer, and the BAT slot of every block of the
    disk lies before it. *)
Definition can_allocate (v : MVHDMeta) : Prop :=
  0 < sect_per_block v /\ 0 <= sector_count (bitmap v) /\ 0 <= block_sz (sparse v) /\
  sector_count (bitmap v) + block_sz (sparse v) / MVHD_SECTOR_SIZE <= INT_MAX /\
  0 <= bat_offset (sparse v) /\ MVHD_FOOTER_SIZE <= size (f v) /\
  forall s, 0 <= s < total_sectors v ->
    bat_offset (sparse v) + 4 * (s / sect_per_block v) + 4 <= size (f v) - MVHD_FOOTER_SIZE.

(** The file size up to which a sector number of the file is an [int]. *)
Definition MAX_FILE : Z := 2 ^ 40 - MVHD_SECTOR_SIZE.

Module ExampleWrite.
Import ExampleSparse.

(** The bytes written in the examples: none of them is zero. *)
Definition payload : mem := fun i => 1 + i mod 250.

(** The empty image after a write of sectors 4095..4097, which lie in blocks
    0 and 1, and the same write made once more. *)
Definition written : MVHDMeta := snd (mvhd_sparse_diff_write empty_sparse 4095 3 payload 0).

Definition written_twice : MVHDMeta := snd (mvhd_sparse_diff_write written 4095 3 payload 0).

End ExampleWrite.

Module ExampleRevisit.
Import ExampleSparse ExampleWrite.

(** After [written], whose range went through block 0 and then block 1, a
    write of sector 0 goes back to block 0. *)
Definition revisited : MVHDMeta := snd (mvhd_sparse_diff_write written 0 1 payload 0).

(** Sectors 4095..4097 read back from [written]. *)
Definition read_back : Z * MVHDMeta * mem :=
  mvhd_sparse_read written 4095 3 Examples.fresh_buffer 0.

(** The byte offsets [lo], [lo + 1], ..., [lo + n - 1]. *)
Definition offsets (lo : Z) (n : nat) : list Z := map (fun k => lo + Z.of_nat k) (seq 0 n).

(** [a], read from [base] on, holds at the offsets [l] what [b] holds there. *)
Definition agree (a : mem) (base : Z) (b : mem) (l : list Z) : bool :=
  forallb (fun i => a (base + i) =? b i) l.

End ExampleRevisit.

(** ** What a differencing chain holds *)

(** The bit of sector [s] in the sector bitmap the image has on disk; a block
    that is not allocated has no bit set. *)
Definition disk_bit (v : MVHDMeta) (s : Z) : bool :=
  let blk := s / sect_per_block v in
  let sib := s mod sect_per_block v in
  if block_offset v blk =? MVHD_SPARSE_BLK then false
  else c_true (VHD_TESTBIT
                 (fun i => data (f v) (block_offset v blk * MVHD_SECTOR_SIZE + i)) sib).

(** Byte [b] of sector [s] as a sparse image stores it: in the data region of
    the sector's block, which follows the block's bitmap. *)
Definition stored_byte (v : MVHDMeta) (s b : Z) : Z :=
  data (f v) ((block_offset v (s / sect_per_block v) + sector_count (bitmap v)
               + s mod sect_per_block v) * MVHD_SECTOR_SIZE + b).

(** Byte [b] of sector [s] of one image, read on its own: a fixed image
    stores the sector flat, a sparse one stores it when the bit is set and
    has a hole otherwise. *)
Definition image_byte (v : MVHDMeta) (s b : Z) : Z :=
  match disk_type (footer v) with
  | MVHD_TYPE_FIXED => data (f v) (s * MVHD_SECTOR_SIZE + b)
  | _ => if disk_bit v s then stored_byte v s b else 0
  end.

(** Byte [b] of sector [s] of a chain, in the spec's words: a differencing
    image whose bit is unset defers to its parent, any other image answers
    for itself. *)
Fixpoint chain_byte (s b : Z) (chain : list MVHDMeta) : Z :=
  match chain with
  | [] => 0
  | v :: parents =>
    match disk_type (footer v) with
    | MVHD_TYPE_DIFF => if disk_bit v s then stored_byte v s b else chain_byte s b parents
    | _ => image_byte v s b
    end
  end.

(** The bitmap cache holds what the disk holds for the block it is marked
    with: the block's bitmap, or zeros when the block is not allocated. *)
Definition cache_ok (v : MVHDMeta) : Prop :=
  0 <= curr_block (bitmap v) ->
  forall i, 0 <= i < sector_count (bitmap v) * MVHD_SECTOR_SIZE ->
    curr_bitmap (bitmap v) i
    = if block_offset v (curr_block (bitmap v)) =? MVHD_SPARSE_BLK then 0
      else data (f v) (block_offset v (curr_block (bitmap v)) * MVHD_SECTOR_SIZE + i).

(** The image can serve every sector of its disk: a fixed image holds them
    all; a sparse one has a bitmap that fits, blocks below 2 GiB, a file
    below 4 GiB (byte offsets of blocks are computed in 32 bits), and every
    allocated block of the disk lies inside the file. *)
Definition readable (v : MVHDMeta) : Prop :=
  match disk_type (footer v) with
  | MVHD_TYPE_FIXED => total_sectors v * MVHD_SECTOR_SIZE <= size (f v)
  | _ =>
    bitmap_fits v /\ sect_per_block v * MVHD_SECTOR_SIZE <= INT_MAX /\
    size (f v) <= 2 ^ 32 /\
    forall s, 0 <= s < total_sectors v ->
      block_offset v (s / sect_per_block v) <> MVHD_SPARSE_BLK ->
      0 <= block_offset v (s / sect_per_block v) /\
      (block_offset v (s / sect_per_block v) + sector_count (bitmap v) + sect_per_block v)
      * MVHD_SECTOR_SIZE <= size (f v)
  end.

(** Some image of the chain is not a differencing image, so that the walk
    up the parents ends. *)
Definition chain_closed (chain : list MVHDMeta) : Prop :=
  Exists (fun v => disk_type (footer v) <> MVHD_TYPE_DIFF) chain.

Module ExampleChain.

(** Two sparse images of 16 sectors (1 x 4 x 4) in blocks of 8 sectors, each
    with block 0 allocated at sector 4 of its file (bitmap at byte 2048, data
    from byte 2560) and block 1 not allocated.  The child, a differencing
    image, has the bit of sector 0 only and stores [0xC1] bytes there; the
    parent, a dynamic image, has the bit of sector 1 only and stores [0xB2]
    bytes there.  The data sectors whose bit is unset hold [0xEE]. *)
Definition image_data (bitmap_byte0 sector fill : Z) : mem := fun i =>
  if i =? 2048 then bitmap_byte0
  else if in_range 2048 512 i then 0
  else if in_range (2560 + sector * 512) 512 i then fill
  else if in_range 2560 4096 i then 238
  else 0.

Definition image (ty : MVHDType) (bitmap_byte0 sector fill : Z) : MVHDMeta :=
  {| f := {| data := image_data bitmap_byte0 sector fill; size := 7168; pos := 0; log := [] |};
     footer := {| geom := {| cyl := 1; heads := 4; spt := 4 |}; disk_type := ty |};
     sparse := {| bat_offset := 1536; block_sz := 4096 |};
     block_offset := fun b => if b =? 0 then 4 else MVHD_SPARSE_BLK;
     sect_per_block := 8;
     bitmap := {| curr_bitmap := zero_bytes; sector_count := 1; curr_block := -1 |} |}.

Definition child : MVHDMeta := image MVHD_TYPE_DIFF 128 0 193.
Definition parent : MVHDMeta := image MVHD_TYPE_DYNAMIC 64 1 178.
Definition chain : list MVHDMeta := [child; parent].

End ExampleChain.

(** ** Further definitions for the properties beyond the claims *)

(** The third bit array macro: [A[k/8] &= ~(0x80 >> (k%8))]. *)
Definition VHD_CLEARBIT (A : mem) (k : Z) : mem :=
  fun i => if i =? Z.quot k 8
           then uint8 (Z.land (A i) (Z.lnot (Z.shiftr 128 (Z.rem k 8))))
           else A i.

(** The number of sectors among [lo], [lo + 1], ..., [lo + n - 1] whose bit
    is set in the image's bitmaps on disk. *)
Fixpoint set_count (v : MVHDMeta) (lo : Z) (n : nat) : Z :=
  match n with
  | O => 0
  | S n' => (if disk_bit v lo then 1 else 0) + set_count v (lo + 1) n'
  end.

(** The first sector that a read starting at [offset] visits in the block of
    sector [s]: [offset] itself or the first sector of the block. *)
Definition block_entry (v : MVHDMeta) (offset s : Z) : Z :=
  Z.max offset (s / sect_per_block v * sect_per_block v).

(** The byte address of the data of sector [s] in the file of a sparse
    image. *)
Definition data_addr (v : MVHDMeta) (s : Z) : Z :=
  (block_offset v (s / sect_per_block v) + sector_count (bitmap v) + s mod sect_per_block v)
  * MVHD_SECTOR_SIZE.

(** The regions of two allocated blocks of the disk do not overlap. *)
Definition regions_disjoint (v : MVHDMeta) : Prop :=
  forall s1 s2, 0 <= s1 < total_sectors v -> 0 <= s2 < total_sectors v ->
    s1 / sect_per_block v <> s2 / sect_per_block v ->
    block_offset v (s1 / sect_per_block v) <> MVHD_SPARSE_BLK ->
    block_offset v (s2 / sect_per_block v) <> MVHD_SPARSE_BLK ->
    block_offset v (s1 / sect_per_block v) + sector_count (bitmap v) + sect_per_block v
      <= block_offset v (s2 / sect_per_block v)
    \/ block_offset v (s2 / sect_per_block v) + sector_count (bitmap v) + sect_per_block v
      <= block_offset v (s1 / sect_per_block v).

(** The bit of sector [s] as the handle sees it: in the cache when the cache
    is on the sector's block, on disk otherwise. *)
Definition eff_bit (v : MVHDMeta) (s : Z) : bool :=
  if curr_block (bitmap v) =? s / sect_per_block v
  then c_true (VHD_TESTBIT (curr_bitmap (bitmap v)) (s mod sect_per_block v))
  else disk_bit v s.

(** The sector whose stored bytes [mvhd_sparse_read], started at [offset],
    hands out for sector [s] when the bit of [s] is set: the cursor is placed
    on entering the block and moves on with every sector read from the file,
    not with the sectors filled with zeros. *)
Definition served_sector (v : MVHDMeta) (offset s : Z) : Z :=
  block_entry v offset s
  + set_count v (block_entry v offset s) (Z.to_nat (s - block_entry v offset s)).

(** The loop of [mvhd_sparse_read], started at [offset] on the image [v],
    about to read sector [s]: the handle is [v] up to cursor and cache, the
    cache is sound, and past the first sector the cache is on the block of
    the sector before and, when that block is allocated, the cursor stands
    after what was read from the file for that sector. *)
Definition read_inv (v : MVHDMeta) (offset s : Z) (st : rd_state) : Prop :=
  same_image v (rd_vhdm st) /\ cache_ok (rd_vhdm st) /\
  (s = offset -> rd_prev_blk st = -1) /\
  (offset < s ->
   rd_prev_blk st = (s - 1) / sect_per_block v /\
   curr_block (bitmap (rd_vhdm st)) = (s - 1) / sect_per_block v /\
   (block_offset v ((s - 1) / sect_per_block v) <> MVHD_SPARSE_BLK ->
    pos (f (rd_vhdm st))
    = data_addr v (served_sector v offset (s - 1))
      + (if disk_bit v (s - 1) then MVHD_SECTOR_SIZE else 0))).

(** [v'] has the layout of [v]: the same handle constants and BAT, and a file
    of the same length. *)
Definition same_layout (v v' : MVHDMeta) : Prop :=
  footer v' = footer v /\ sparse v' = sparse v /\
  block_offset v' = block_offset v /\ sect_per_block v' = sect_per_block v /\
  sector_count (bitmap v') = sector_count (bitmap v) /\
  size (f v') = size (f v).

(** Sector [s] is a sector of the disk and its block is allocated. *)
Definition stored_in (v : MVHDMeta) (s : Z) : Prop :=
  0 <= s < total_sectors v /\ block_offset v (s / sect_per_block v) <> MVHD_SPARSE_BLK.

(** An image a write can work on: sparse, able to serve its disk, and with
    blocks that do not overlap. *)
Definition write_ready (v : MVHDMeta) : Prop :=
  disk_type (footer v) <> MVHD_TYPE_FIXED /\ readable v /\ regions_disjoint v.

(** Sector [s'] is one of the sectors [lo], ..., [hi - 1]. *)
Definition in_sectors (lo hi s' : Z) : bool := (lo <=? s') && (s' <? hi).

(** The loop of [mvhd_sparse_diff_write], started at [offset] on the image
    [v0] with the source buffer at [buff] of [m], about to write sector [s]:
    the layout is that of [v0]; the stored sectors written so far hold the
    buffer's bytes and the others what they held; the bits the handle sees
    are those of [v0] and those of the sectors written so far; before the
    first sector the cache is sound, after it the cache is on the block of
    the sector before and the cursor stands after that sector's data. *)
Definition write_inv (v0 : MVHDMeta) (m : mem) (buff offset s : Z) (st : wr_state) : Prop :=
  same_layout v0 (wr_vhdm st) /\
  (forall s' b, stored_in v0 s' -> 0 <= b < MVHD_SECTOR_SIZE ->
     data (f (wr_vhdm st)) (data_addr v0 s' + b)
     = if in_sectors offset s s' then m (buff + (s' - offset) * MVHD_SECTOR_SIZE + b)
       else data (f v0) (data_addr v0 s' + b)) /\
  (forall s', stored_in v0 s' ->
     eff_bit (wr_vhdm st) s' = in_sectors offset s s' || disk_bit v0 s') /\
  (s = offset -> wr_prev_blk st = -1 /\ cache_ok (wr_vhdm st)) /\
  (offset < s ->
     wr_prev_blk st = (s - 1) / sect_per_block v0 /\
     curr_block (bitmap (wr_vhdm st)) = (s - 1) / sect_per_block v0 /\
     pos (f (wr_vhdm st)) = data_addr v0 (s - 1) + MVHD_SECTOR_SIZE) /\
  wr_buff st = buff + (s - offset) * MVHD_SECTOR_SIZE.

Module ExampleCache.

(** The child of the example chain with its cache on block 0 and the bits of
    sectors 0 and 3 set in the cache: the second is not on disk yet. *)
Definition dirty : MVHDMeta :=
  with_curr_block
    (with_curr_bitmap ExampleChain.child
       (VHD_SETBIT (VHD_SETBIT zero_bytes 0) 3)) 0.

End ExampleCache.

(** The handle [v1] inside a turn of the loop of [mvhd_sparse_diff_write],
    placed on sector [s] and about to store it: the invariant of the loop,
    with the cache on the block of [s] and the cursor on the data of [s]. *)
Definition write_placed (v0 : MVHDMeta) (m : mem) (buff offset s : Z) (v1 : MVHDMeta) : Prop :=
  same_layout v0 v1 /\
  (forall s' b, stored_in v0 s' -> 0 <= b < MVHD_SECTOR_SIZE ->
     data (f v1) (data_addr v0 s' + b)
     = if in_sectors offset s s' then m (buff + (s' - offset) * MVHD_SECTOR_SIZE + b)
       else data (f v0) (data_addr v0 s' + b)) /\
  (forall s', stored_in v0 s' ->
     eff_bit v1 s' = in_sectors offset s s' || disk_bit v0 s') /\
  curr_block (bitmap v1) = s / sect_per_block v0 /\
  pos (f v1) = data_addr v0 s.

(** An image in which block [blk] can be allocated without harm: the image
    can be written to, the block is not allocated yet, the file ends with a
    valid footer, the block size holds the block's sectors, the file stays
    below 4 GiB, and the allocated blocks lie before the footer and clear of
    the BAT entry of [blk]. *)
Definition alloc_ready (v : MVHDMeta) (blk : Z) : Prop :=
  write_ready v /\
  0 <= blk /\ block_offset v blk = MVHD_SPARSE_BLK /\
  mvhd_is_conectix_str (trailer (f v)) = true /\
  0 <= bat_offset (sparse v) /\
  bat_offset (sparse v) + 4 * blk + 4 <= size (f v) - MVHD_FOOTER_SIZE /\
  sect_per_block v * MVHD_SECTOR_SIZE <= block_sz (sparse v) /\
  sector_align (size (f v) - MVHD_FOOTER_SIZE)
  + (sector_count (bitmap v) + block_sz (sparse v) / MVHD_SECTOR_SIZE + 5) * MVHD_SECTOR_SIZE
  + MVHD_FOOTER_SIZE <= 2 ^ 32 /\
  forall s, stored_in v s ->
    (block_offset v (s / sect_per_block v) + sector_count (bitmap v) + sect_per_block v)
    * MVHD_SECTOR_SIZE <= size (f v) - MVHD_FOOTER_SIZE /\
    (bat_offset (sparse v) + 4 * blk + 4
       <= block_offset v (s / sect_per_block v) * MVHD_SECTOR_SIZE
     \/ (block_offset v (s / sect_per_block v) + sector_count (bitmap v) + sect_per_block v)
        * MVHD_SECTOR_SIZE <= bat_offset (sparse v) + 4 * blk).

Module ExampleAlloc.

(** A dynamic image of 16 sectors (1 x 4 x 4) in blocks of 8 sectors, with
    block 1 allocated at sector 4 of the file (bitmap at byte 2048, data from
    byte 2560) and block 0 not allocated.  Of block 1 only sector 9 has its
    bit set; the data sectors of the block hold [0xEE].  The footer, of which
    only the cookie is spelled out, follows the block at byte 6656. *)
Definition half_data : mem := fun i =>
  if i =? 2048 then 64
  else if in_range 2048 512 i then 0
  else if in_range 2560 4096 i then 238
  else if in_range 6656 8 i then ExampleSparse.cookie_at 6656 i
  else 0.

Definition half : MVHDMeta :=
  {| f := {| data := half_data; size := 7168; pos := 0; log := [] |};
     footer := {| geom := {| cyl := 1; heads := 4; spt := 4 |};
                  disk_type := MVHD_TYPE_DYNAMIC |};
     sparse := {| bat_offset := 1536; block_sz := 4096 |};
     block_offset := fun b => if b =? 1 then 4 else MVHD_SPARSE_BLK;
     sect_per_block := 8;
     bitmap := {| curr_bitmap := zero_bytes; sector_count := 1; curr_block := -1 |} |}.

End ExampleAlloc.

Module ExampleLarge.

(** A differencing image laid out as [ExampleChain.child], in a file of more
    than 4 GiB: 16 sectors in blocks of 8, block 0 allocated at sector
    8388612 (2^23 + 4) of the file, so that its bitmap is the sector at byte
    2^32 + 2048 and its data starts at byte 2^32 + 2560, and the footer ends
    the file at 2^32 + 7168.  The bit of sector 0 is set and the sector
    stores [0xC1] bytes.  The rest of the file is zero, byte 2048 too. *)
Definition child_data : mem := fun i =>
  if i =? 2 ^ 32 + 2048 then 128
  else if in_range (2 ^ 32 + 2560) 512 i then 193
  else 0.

Definition child : MVHDMeta :=
  {| f := {| data := child_data; size := 2 ^ 32 + 7168; pos := 0; log := [] |};
     footer := {| geom := {| cyl := 1; heads := 4; spt := 4 |};
                  disk_type := MVHD_TYPE_DIFF |};
     sparse := {| bat_offset := 1536; block_sz := 4096 |};
     block_offset := fun b => if b =? 0 then 8388612 else MVHD_SPARSE_BLK;
     sect_per_block := 8;
     bitmap := {| curr_bitmap := zero_bytes; sector_count := 1; curr_block := -1 |} |}.

(** Its parent, a dynamic image in a small file, has the bit of sector 0 set
    too and stores [0xB2] bytes there. *)
Definition parent : MVHDMeta := ExampleChain.image MVHD_TYPE_DYNAMIC 128 0 178.

Definition chain : list MVHDMeta := [child; parent].

(** Sector 0 read through the chain. *)
Definition read_first : option (Z * list MVHDMeta * mem) :=
  mvhd_diff_read chain 0 1 Examples.fresh_buffer 0.

End ExampleLarge.

(** * Part II: properties *)

Lemma int32_id x : is_int x -> int32 x = x.
Proof.
  unfold is_int, INT_MIN, INT_MAX, int32; intros H.
  rewrite Z.mod_small; lia.
Qed.

Lemma int32_range x : is_int (int32 x).
Proof.
  unfold is_int, INT_MIN, INT_MAX, int32.
  pose proof (Z.mod_pos_bound (x + 2 ^ 31) (2 ^ 32)); lia.
Qed.

Lemma uint32_id x : 0 <= x < 2 ^ 32 -> uint32 x = x.
Proof. intros; unfold uint32; apply Z.mod_small; lia. Qed.

Lemma uint64_id x : 0 <= x < 2 ^ 64 -> uint64 x = x.
Proof. intros; unfold uint64; apply Z.mod_small; lia. Qed.

Lemma uint32_int32 x : uint32 (int32 x) = uint32 x.
Proof.
  unfold uint32, int32.
  rewrite Zminus_mod_idemp_l.
  f_equal. lia.
Qed.

(** ** The Sector Bounds Checker *)

Lemma check_sectors_clamped offset count total :
  int32 (total - offset) < count ->
  mvhd_check_sectors offset count total
  = (int32 (total - offset), int32 (count - int32 (total - offset))).
Proof.
  intros H. unfold mvhd_check_sectors.
  apply Z.ltb_lt in H. rewrite H. reflexivity.
Qed.

Lemma check_sectors_whole offset count total :
  count <= int32 (total - offset) ->
  mvhd_check_sectors offset count total = (count, 0).
Proof.
  intros H. unfold mvhd_check_sectors.
  apply Z.ltb_ge in H. rewrite H. reflexivity.
Qed.

Lemma int32_le_of_nonneg x : 0 <= x < 2 ^ 32 -> int32 x <= x.
Proof.
  intros H. unfold int32.
  destruct (Z_lt_le_dec x (2 ^ 31)).
  - rewrite Z.mod_small; lia.
  - replace (x + 2 ^ 31) with ((x - 2 ^ 31) + 1 * 2 ^ 32) by lia.
    rewrite Z_mod_plus_full, Z.mod_small; lia.
Qed.

Lemma int32_add_sub x y : is_int x -> int32 (y + int32 (x - y)) = x.
Proof.
  intros H. rewrite <- (int32_id x H) at 2.
  unfold int32. f_equal.
  replace (y + ((x - y + 2 ^ 31) mod 2 ^ 32 - 2 ^ 31) + 2 ^ 31)
    with (y + (x - y + 2 ^ 31) mod 2 ^ 32) by lia.
  rewrite Zplus_mod_idemp_r. f_equal. lia.
Qed.

(** C5.  For [int] arguments with [offset <= total], the Bounds Checker gives
    [transfer + truncated == count] (as the [int] comparison C makes, and as
    an equation of integers whenever [total - offset] is itself an [int]),
    [transfer <= total - offset], and [truncated = 0] when the request was
    not clamped.  The checker is a total function of its three arguments. *)
Theorem mvhd_check_sectors_law offset count total :
  is_int offset -> is_int count -> is_int total -> offset <= total ->
  let transfer := fst (mvhd_check_sectors offset count total) in
  let truncated := snd (mvhd_check_sectors offset count total) in
  int32 (transfer + truncated) = count /\
  transfer <= total - offset /\
  (transfer = count -> truncated = 0) /\
  (total - offset <= INT_MAX ->
     transfer + truncated = count /\ 0 <= truncated /\
     (count <= total - offset -> transfer = count /\ truncated = 0)).
Proof.
  intros Ho Hc Ht Hle transfer truncated.
  assert (Hd : 0 <= total - offset < 2 ^ 32)
    by (unfold is_int, INT_MIN, INT_MAX in *; lia).
  pose proof (int32_le_of_nonneg _ Hd) as Hdle.
  destruct (Z_lt_le_dec (int32 (total - offset)) count) as [Hlt | Hge].
  - subst transfer truncated.
    rewrite (check_sectors_clamped _ _ _ Hlt); cbn [fst snd].
    split; [apply int32_add_sub; exact Hc|].
    split; [exact Hdle|].
    split; [lia|].
    intros Hno.
    assert (Hid : int32 (total - offset) = total - offset)
      by (apply int32_id; unfold is_int, INT_MIN, INT_MAX in *; lia).
    rewrite Hid in *.
    rewrite (int32_id (count - (total - offset)))
      by (unfold is_int, INT_MIN, INT_MAX in *; lia).
    lia.
  - subst transfer truncated.
    rewrite (check_sectors_whole _ _ _ Hge); cbn [fst snd].
    split; [rewrite Z.add_0_r; apply int32_id; exact Hc|].
    split; [lia|].
    split; [reflexivity|].
    intros _. lia.
Qed.

Lemma mvhd_check_sectors_law_witness :
  fst (mvhd_check_sectors 995 10 1000) + snd (mvhd_check_sectors 995 10 1000) = 10
  /\ fst (mvhd_check_sectors 995 10 1000) <= 1000 - 995.
Proof.
  assert (Hint : forall x, -1000 <= x <= 1000 -> is_int x)
    by (unfold is_int, INT_MIN, INT_MAX; lia).
  destruct (mvhd_check_sectors_law 995 10 1000) as (_ & H2 & _ & H4);
    try (apply Hint; lia); try lia.
  split; [apply H4; unfold INT_MAX; lia | exact H2].
Defined.

(** ** The file stream *)

Ltac consts :=
  unfold MVHD_SECTOR_SIZE, MVHD_FOOTER_SIZE, MVHD_SPARSE_BLK, is_int, INT_MIN, INT_MAX in *.

Lemma in_range_true lo len i : lo <= i < lo + len -> in_range lo len i = true.
Proof. intros; unfold in_range; apply andb_true_iff; split; [apply Z.leb_le | apply Z.ltb_lt]; lia. Qed.

Lemma in_range_false lo len i : ~ (lo <= i < lo + len) -> in_range lo len i = false.
Proof.
  intros H; unfold in_range; apply andb_false_iff.
  destruct (Z_le_gt_dec lo i); [right; apply Z.ltb_ge | left; apply Z.leb_gt]; lia.
Qed.

Lemma fseeko64_data f0 off w : data (fseeko64 f0 off w) = data f0.
Proof. unfold fseeko64; destruct (_ <? 0); reflexivity. Qed.

Lemma fseeko64_size f0 off w : size (fseeko64 f0 off w) = size f0.
Proof. unfold fseeko64; destruct (_ <? 0); reflexivity. Qed.

Lemma fseeko64_log f0 off w : log (fseeko64 f0 off w) = log f0.
Proof. unfold fseeko64; destruct (_ <? 0); reflexivity. Qed.

Lemma fseeko64_set f0 off : 0 <= off -> pos (fseeko64 f0 off SEEK_SET) = off.
Proof.
  intros H; unfold fseeko64. rewrite Z.add_0_l.
  destruct (Z.ltb_spec off 0); [lia | reflexivity].
Qed.

Lemma fseeko64_cur f0 off : 0 <= pos f0 + off -> pos (fseeko64 f0 off SEEK_CUR) = pos f0 + off.
Proof.
  intros H; unfold fseeko64.
  destruct (Z.ltb_spec (pos f0 + off) 0); [lia | reflexivity].
Qed.

Lemma fseeko64_end f0 off : 0 <= size f0 + off -> pos (fseeko64 f0 off SEEK_END) = size f0 + off.
Proof.
  intros H; unfold fseeko64.
  destruct (Z.ltb_spec (size f0 + off) 0); [lia | reflexivity].
Qed.

Lemma fread_count_full f0 n :
  0 <= n < 2 ^ 64 -> pos f0 + n <= size f0 -> fread_count f0 n = n.
Proof. intros Hn Hs; unfold fread_count; rewrite uint64_id by lia; lia. Qed.

Lemma fread_in f0 m ptr n i :
  0 <= n < 2 ^ 64 -> pos f0 + n <= size f0 -> 0 <= i < n ->
  fst (fread f0 m ptr n) (ptr + i) = data f0 (pos f0 + i).
Proof.
  intros Hn Hs Hi; cbn [fread fst].
  rewrite fread_count_full by assumption.
  rewrite in_range_true by lia. f_equal; lia.
Qed.

Lemma fread_out f0 m ptr n j :
  0 <= n < 2 ^ 64 -> ~ (ptr <= j < ptr + n) -> fst (fread f0 m ptr n) j = m j.
Proof.
  intros Hn Hj; cbn [fread fst].
  rewrite in_range_false; [reflexivity|].
  unfold fread_count; rewrite uint64_id by lia; lia.
Qed.

Lemma fread_file f0 m ptr n :
  data (snd (fread f0 m ptr n)) = data f0 /\ size (snd (fread f0 m ptr n)) = size f0
  /\ pos (snd (fread f0 m ptr n)) = pos f0 + fread_count f0 n
  /\ log (snd (fread f0 m ptr n)) = EvRead (pos f0) (uint64 n) :: log f0.
Proof. repeat split. Qed.

Lemma fwrite_pos f0 m ptr n : 0 <= n < 2 ^ 64 -> pos (fwrite f0 m ptr n) = pos f0 + n.
Proof.
  intros Hn; unfold fwrite; rewrite uint64_id by lia.
  destruct (Z.eqb_spec n 0); cbn [pos]; lia.
Qed.

Lemma fwrite_size f0 m ptr n :
  0 <= n < 2 ^ 64 -> pos f0 <= size f0 -> size (fwrite f0 m ptr n) = Z.max (size f0) (pos f0 + n).
Proof.
  intros Hn Hp; unfold fwrite; rewrite uint64_id by lia.
  destruct (Z.eqb_spec n 0); cbn [size]; lia.
Qed.

Lemma fwrite_size_ge f0 m ptr n : size f0 <= size (fwrite f0 m ptr n).
Proof. unfold fwrite; destruct (_ =? 0); cbn [size]; lia. Qed.

Lemma fwrite_log f0 m ptr n :
  log (fwrite f0 m ptr n) = EvWrite (pos f0) (uint64 n) :: log f0.
Proof. unfold fwrite; destruct (_ =? 0); reflexivity. Qed.

Lemma fwrite_in f0 m ptr n i :
  0 <= n < 2 ^ 64 -> 0 <= i < n -> data (fwrite f0 m ptr n) (pos f0 + i) = m (ptr + i).
Proof.
  intros Hn Hi; unfold fwrite; rewrite uint64_id by lia.
  destruct (Z.eqb_spec n 0); [lia|]; cbn [data].
  rewrite in_range_true by lia. f_equal; lia.
Qed.

Lemma fwrite_out f0 m ptr n j :
  0 <= n < 2 ^ 64 -> j < size f0 -> ~ (pos f0 <= j < pos f0 + n) ->
  data (fwrite f0 m ptr n) j = data f0 j.
Proof.
  intros Hn Hj Hout; unfold fwrite; rewrite uint64_id by lia.
  destruct (Z.eqb_spec n 0); [reflexivity|]; cbn [data].
  rewrite in_range_false by lia.
  destruct (Z.ltb_spec j (size f0)); [reflexivity | lia].
Qed.

Lemma fwrite_gap f0 m ptr n j :
  0 < n < 2 ^ 64 -> size f0 <= j < pos f0 -> data (fwrite f0 m ptr n) j = 0.
Proof.
  intros Hn Hj; unfold fwrite; rewrite uint64_id by lia.
  destruct (Z.eqb_spec n 0); [lia|]; cbn [data].
  rewrite in_range_false by lia.
  destruct (Z.ltb_spec j (size f0)); [lia | reflexivity].
Qed.

(** ** Fixed image I/O *)

Lemma check_sectors_in_range offset count total :
  is_int offset -> is_int count -> is_int total -> 0 <= offset <= total -> 0 <= count ->
  let transfer := fst (mvhd_check_sectors offset count total) in
  let truncated := snd (mvhd_check_sectors offset count total) in
  transfer = Z.min count (total - offset) /\ truncated = count - transfer.
Proof.
  intros Ho Hc Ht Hr Hn transfer truncated.
  assert (Hid : int32 (total - offset) = total - offset) by (apply int32_id; consts; lia).
  subst transfer truncated. unfold mvhd_check_sectors. rewrite Hid.
  destruct (Z.ltb_spec (total - offset) count); cbn [fst snd].
  - rewrite int32_id by (consts; lia). lia.
  - lia.
Qed.

(** C7.  A request at a non-negative [offset] is clamped by the Bounds
    Checker, served by one [fread] (one [fwrite]) of the clamped byte count
    issued at the flat address [offset * MVHD_SECTOR_SIZE], and answered with
    the truncated-sector count, which is 0 when the request fits.  When the
    request starts inside the image and the file holds the clamped range, the
    read copies exactly that range to the start of the output buffer and
    leaves the rest of the memory alone, and the write puts exactly the
    buffer's first [transfer] sectors there and changes no other byte. *)
Theorem mvhd_fixed_io_law vhdm offset num m buff :
  is_int offset -> is_int num -> 0 <= offset ->
  let transfer := fst (mvhd_check_sectors offset num (total_sectors vhdm)) in
  let truncated := snd (mvhd_check_sectors offset num (total_sectors vhdm)) in
  let r := mvhd_fixed_read vhdm offset num m buff in
  let w := mvhd_fixed_write vhdm offset num m buff in
  fst (fst r) = truncated /\ fst w = truncated /\
  log (f (snd (fst r)))
    = EvRead (offset * MVHD_SECTOR_SIZE) (uint64 (int32 (transfer * MVHD_SECTOR_SIZE)))
      :: log (f vhdm) /\
  log (f (snd w))
    = EvWrite (offset * MVHD_SECTOR_SIZE) (uint64 (int32 (transfer * MVHD_SECTOR_SIZE)))
      :: log (f vhdm) /\
  (offset <= total_sectors vhdm -> 0 <= num ->
     transfer = Z.min num (total_sectors vhdm - offset) /\
     truncated = num - transfer /\
     (num <= total_sectors vhdm - offset -> truncated = 0)) /\
  (0 <= transfer -> transfer * MVHD_SECTOR_SIZE <= INT_MAX ->
   (offset + transfer) * MVHD_SECTOR_SIZE <= size (f vhdm) ->
     (forall i, 0 <= i < transfer * MVHD_SECTOR_SIZE ->
        snd r (buff + i) = data (f vhdm) (offset * MVHD_SECTOR_SIZE + i)) /\
     (forall j, ~ (buff <= j < buff + transfer * MVHD_SECTOR_SIZE) -> snd r j = m j) /\
     data (f (snd (fst r))) = data (f vhdm) /\
     (forall i, 0 <= i < transfer * MVHD_SECTOR_SIZE ->
        data (f (snd w)) (offset * MVHD_SECTOR_SIZE + i) = m (buff + i)) /\
     (forall j, j < size (f vhdm) ->
        ~ (offset * MVHD_SECTOR_SIZE <= j < (offset + transfer) * MVHD_SECTOR_SIZE) ->
        data (f (snd w)) j = data (f vhdm) j) /\
     size (f (snd w)) = size (f vhdm)).
Proof.
  intros Ho Hn Hoff transfer truncated r w.
  assert (Hseek : pos (fseeko64 (f vhdm) (offset * MVHD_SECTOR_SIZE) SEEK_SET)
                  = offset * MVHD_SECTOR_SIZE)
    by (apply fseeko64_set; consts; lia).
  split; [reflexivity|]. split; [reflexivity|].
  split.
  { subst r; unfold mvhd_fixed_read; cbn [fst snd with_f f].
    cbn [fread snd log]. rewrite Hseek, fseeko64_log. reflexivity. }
  split.
  { subst w; unfold mvhd_fixed_write; cbn [fst snd with_f f].
    rewrite fwrite_log, Hseek, fseeko64_log. reflexivity. }
  split.
  { intros Hle Hnn.
    destruct (check_sectors_in_range offset num (total_sectors vhdm)) as [H1 H2];
      try assumption; try lia; try apply int32_range. }
  intros Htr Hmul Hsz.
  assert (Hid : int32 (transfer * MVHD_SECTOR_SIZE) = transfer * MVHD_SECTOR_SIZE)
    by (apply int32_id; consts; lia).
  assert (Hb : 0 <= transfer * MVHD_SECTOR_SIZE < 2 ^ 64) by (consts; lia).
  subst r w; unfold mvhd_fixed_read, mvhd_fixed_write; cbn [fst snd with_f f].
  fold transfer. rewrite Hid.
  set (f1 := fseeko64 (f vhdm) (offset * MVHD_SECTOR_SIZE) SEEK_SET) in *.
  assert (Hs1 : size f1 = size (f vhdm)) by apply fseeko64_size.
  assert (Hd1 : data f1 = data (f vhdm)) by apply fseeko64_data.
  repeat split.
  - intros i Hi. rewrite fread_in by (try assumption; lia).
    rewrite Hd1, Hseek. reflexivity.
  - intros j Hj. apply fread_out; assumption.
  - exact Hd1.
  - intros i Hi. rewrite <- Hseek. apply fwrite_in; assumption.
  - intros j Hj Hout. rewrite fwrite_out by (try assumption; lia).
    rewrite Hd1; reflexivity.
  - rewrite fwrite_size by (try assumption; lia). lia.
Qed.

(** The spec's scenario, through the theorem: on the fixed image of 1000
    sectors, [read(offset = 995, count = 10)] answers 5, fills the first five
    sector slots of the buffer with sectors 995..999 and leaves the other
    slots as they were. *)
Lemma mvhd_fixed_io_law_witness :
  let r := mvhd_fixed_read Examples.fixed_1000 995 10 Examples.fresh_buffer 0 in
  fst (fst r) = 5 /\
  (forall i, 0 <= i < 5 * 512 -> snd r i = (995 + i / 512) mod 256) /\
  (forall j, 5 * 512 <= j -> snd r j = 170).
Proof.
  assert (Ho : is_int 995) by (unfold is_int, INT_MIN, INT_MAX; lia).
  assert (Hn : is_int 10) by (unfold is_int, INT_MIN, INT_MAX; lia).
  assert (H0 : 0 <= 995) by lia.
  pose proof (mvhd_fixed_io_law Examples.fixed_1000 995 10 Examples.fresh_buffer 0 Ho Hn H0) as H.
  cbv zeta in H.
  assert (Htr : fst (mvhd_check_sectors 995 10 (total_sectors Examples.fixed_1000)) = 5)
    by reflexivity.
  assert (Htc : snd (mvhd_check_sectors 995 10 (total_sectors Examples.fixed_1000)) = 5)
    by reflexivity.
  rewrite Htr, Htc in H.
  destruct H as (Hret & _ & _ & _ & _ & Heff).
  destruct Heff as (Hin & Hout & _); [lia | unfold INT_MAX, MVHD_SECTOR_SIZE; lia |
                                      unfold MVHD_SECTOR_SIZE; simpl; lia |].
  cbv zeta. split; [exact Hret|]. split.
  - intros i Hi. rewrite <- (Z.add_0_l i) at 1. rewrite Hin by (unfold MVHD_SECTOR_SIZE; lia).
    unfold MVHD_SECTOR_SIZE. cbn [Examples.fixed_1000 f data].
    replace (995 * 512 + i) with (i + 995 * 512) by lia.
    rewrite Z.div_add by lia. f_equal; lia.
  - intros j Hj. rewrite Hout by (unfold MVHD_SECTOR_SIZE; lia). reflexivity.
Defined.

(** ** Loops *)

Lemma for_range_inv {A : Type} (P : Z -> A -> Prop) (body : Z -> A -> A) :
  forall (n : nat) (s : Z) (a : A),
    P s a ->
    (forall s' a', s <= s' < s + Z.of_nat n -> P s' a' -> P (s' + 1) (body s' a')) ->
    P (s + Z.of_nat n) (for_range n s body a).
Proof.
  induction n as [|n IH]; intros s a H0 Hstep.
  - cbn [for_range]. rewrite Z.add_0_r. exact H0.
  - cbn [for_range].
    replace (s + Z.of_nat (S n)) with ((s + 1) + Z.of_nat n) by lia.
    apply IH.
    + apply Hstep; [lia | exact H0].
    + intros s' a' Hs' HP. apply Hstep; [lia | exact HP].
Qed.

(** ** A start offset past the end *)

Lemma diff_read_no_iteration vhdm parents offset num m buff :
  Z.to_nat (int32 (offset + fst (mvhd_check_sectors offset num (total_sectors vhdm))) - offset)
  = O ->
  mvhd_diff_read (vhdm :: parents) offset num m buff
  = Some (snd (mvhd_check_sectors offset num (total_sectors vhdm)), vhdm :: parents, m).
Proof. intros H. unfold mvhd_diff_read. rewrite H. reflexivity. Qed.

Lemma sparse_read_no_iteration vhdm offset num m buff :
  Z.to_nat (int32 (offset + fst (mvhd_check_sectors offset num (total_sectors vhdm))) - offset)
  = O ->
  mvhd_sparse_read vhdm offset num m buff
  = (snd (mvhd_check_sectors offset num (total_sectors vhdm)), vhdm, m).
Proof. intros H. unfold mvhd_sparse_read. rewrite H. reflexivity. Qed.

(** C9.  When [offset] is past [total_sectors] (and the [int] subtraction
    that forms the truncated count does not overflow), the Bounds Checker
    gives a negative transfer count and a truncated count above the requested
    one.  Nothing clamps the transfer count to zero: [mvhd_fixed_read] issues
    its [fread] with the byte count [transfer * MVHD_SECTOR_SIZE] of that
    negative count, which the [size_t] parameter receives as
    [2^64 + transfer * MVHD_SECTOR_SIZE]; the loops of [mvhd_sparse_read] and
    [mvhd_diff_read] do not run, the handle and the memory come back as they
    were, and the count returned is above [num_sectors]. *)
Theorem offset_past_end_unguarded vhdm parents offset num m buff :
  is_int offset -> is_int num ->
  0 <= total_sectors vhdm < offset ->
  is_int (num - (total_sectors vhdm - offset)) ->
  let transfer := fst (mvhd_check_sectors offset num (total_sectors vhdm)) in
  let truncated := snd (mvhd_check_sectors offset num (total_sectors vhdm)) in
  transfer < 0 /\ num < truncated /\
  fst (fst (mvhd_fixed_read vhdm offset num m buff)) = truncated /\
  log (f (snd (fst (mvhd_fixed_read vhdm offset num m buff))))
    = EvRead (offset * MVHD_SECTOR_SIZE) (uint64 (int32 (transfer * MVHD_SECTOR_SIZE)))
      :: log (f vhdm) /\
  (- 2 ^ 22 <= transfer ->
     uint64 (int32 (transfer * MVHD_SECTOR_SIZE)) = 2 ^ 64 + transfer * MVHD_SECTOR_SIZE) /\
  mvhd_sparse_read vhdm offset num m buff = (truncated, vhdm, m) /\
  mvhd_diff_read (vhdm :: parents) offset num m buff
    = Some (truncated, vhdm :: parents, m).
Proof.
  intros Ho Hn Ht Hov transfer truncated.
  assert (Hid : int32 (total_sectors vhdm - offset) = total_sectors vhdm - offset)
    by (apply int32_id; consts; lia).
  assert (Hneg : transfer < 0 /\ num < truncated /\
                 Z.to_nat (int32 (offset + transfer) - offset) = O).
  { subst transfer truncated. unfold mvhd_check_sectors. rewrite Hid.
    destruct (Z.ltb_spec (total_sectors vhdm - offset) num); cbn [fst snd].
    - rewrite (int32_id (num - _)) by exact Hov.
      replace (offset + (total_sectors vhdm - offset)) with (total_sectors vhdm) by lia.
      rewrite int32_id by (consts; lia). lia.
    - rewrite int32_id by (consts; lia). lia. }
  destruct Hneg as (Htr & Htc & Hit).
  split; [exact Htr|]. split; [exact Htc|]. split; [reflexivity|].
  split.
  { unfold mvhd_fixed_read; cbn [fst snd with_f f fread log].
    rewrite fseeko64_set by (consts; lia). rewrite fseeko64_log. reflexivity. }
  split.
  { intros Hlo. rewrite int32_id by (consts; lia).
    unfold uint64. symmetry.
    apply (Z.mod_unique _ _ (-1)); [left; consts; lia | lia]. }
  split.
  - apply sparse_read_no_iteration. exact Hit.
  - apply diff_read_no_iteration. exact Hit.
Qed.

(** On the fixed image of 1000 sectors, a read of one sector at offset 1001
    asks [fread] for [2^64 - 512] bytes and answers 2. *)
Lemma offset_past_end_unguarded_witness :
  fst (mvhd_check_sectors 1001 1 (total_sectors Examples.fixed_1000)) < 0 /\
  fst (fst (mvhd_fixed_read Examples.fixed_1000 1001 1 Examples.fresh_buffer 0)) = 2 /\
  log (f (snd (fst (mvhd_fixed_read Examples.fixed_1000 1001 1 Examples.fresh_buffer 0))))
  = [EvRead (1001 * 512) (2 ^ 64 - 512)].
Proof.
  assert (Ho : is_int 1001) by (unfold is_int, INT_MIN, INT_MAX; lia).
  assert (Hn : is_int 1) by (unfold is_int, INT_MIN, INT_MAX; lia).
  assert (Ht : 0 <= total_sectors Examples.fixed_1000 < 1001) by (vm_compute; split; congruence).
  assert (Hov : is_int (1 - (total_sectors Examples.fixed_1000 - 1001)))
    by (vm_compute; split; congruence).
  pose proof (offset_past_end_unguarded Examples.fixed_1000 [] 1001 1
                Examples.fresh_buffer 0 Ho Hn Ht Hov) as H.
  cbv zeta in H.
  destruct H as (H1 & _ & H3 & H4 & _).
  split; [exact H1|]. split; [rewrite H3; reflexivity|].
  rewrite H4. reflexivity.
Defined.

(** ** The flush and the allocation state *)

Lemma read_sect_bitmap_sparse v blk :
  block_offset v blk = MVHD_SPARSE_BLK ->
  curr_block (bitmap (mvhd_read_sect_bitmap v blk)) = blk /\
  block_offset (mvhd_read_sect_bitmap v blk) = block_offset v /\
  f (mvhd_read_sect_bitmap v blk) = f v.
Proof.
  intros H. unfold mvhd_read_sect_bitmap. rewrite H, Z.eqb_refl.
  cbn. repeat split.
Qed.




(** ** Reading holes *)

Ltac proj :=
  cbn [f footer sparse block_offset sect_per_block bitmap curr_bitmap sector_count curr_block
       with_f with_bitmap with_block_offset with_curr_bitmap with_curr_block
       data size pos log fst snd negb
       rd_vhdm rd_prev_blk rd_buff rd_mem wr_vhdm wr_prev_blk wr_buff] in *.

Lemma same_image_refl v : same_image v v.
Proof. repeat split. Qed.

Lemma same_image_trans v1 v2 v3 : same_image v1 v2 -> same_image v2 v3 -> same_image v1 v3.
Proof.
  unfold same_image. intros (a1 & a2 & a3 & a4 & a5 & a6 & a7) (b1 & b2 & b3 & b4 & b5 & b6 & b7).
  repeat split; congruence.
Qed.

Lemma same_image_seek v off w : same_image v (with_f v (fseeko64 (f v) off w)).
Proof.
  unfold same_image; cbn [f with_f footer sparse block_offset sect_per_block bitmap].
  rewrite fseeko64_data, fseeko64_size. repeat split.
Qed.

Lemma VHD_TESTBIT_zero bm k : bm (Z.quot k 8) = 0 -> VHD_TESTBIT bm k = 0.
Proof. intros H; unfold VHD_TESTBIT; rewrite H; apply Z.land_0_l. Qed.

Lemma bitmap_zero_testbit v k :
  bitmap_fits v -> bitmap_zero v -> 0 <= k < sect_per_block v ->
  c_true (VHD_TESTBIT (curr_bitmap (bitmap v)) k) = false.
Proof.
  intros (Hspb & Hsc & Hfit) Hz Hk.
  rewrite VHD_TESTBIT_zero; [reflexivity|].
  apply Hz. rewrite Z.quot_div_nonneg by lia.
  split; [apply Z.div_pos; lia|].
  apply Z.div_lt_upper_bound; lia.
Qed.

Lemma read_sect_bitmap_hole v blk :
  block_offset v blk = MVHD_SPARSE_BLK -> bitmap_fits v ->
  let v' := mvhd_read_sect_bitmap v blk in
  same_image v v' /\ f v' = f v /\ bitmap_zero v' /\ curr_block (bitmap v') = blk.
Proof.
  intros Hb (Hspb & Hsc & Hfit) v'. subst v'.
  unfold mvhd_read_sect_bitmap. rewrite Hb, Z.eqb_refl.
  proj.
  split; [repeat split|]. split; [reflexivity|]. split; [|reflexivity].
  unfold bitmap_zero; proj.
  intros i Hi. unfold memset.
  rewrite int32_id by (unfold is_int, INT_MIN; lia).
  rewrite uint64_id by (unfold INT_MAX in *; lia).
  rewrite in_range_true by lia. reflexivity.
Qed.

Lemma bitmap_fits_same v v' : same_image v v' -> bitmap_fits v -> bitmap_fits v'.
Proof.
  unfold same_image, bitmap_fits.
  intros (_ & _ & _ & _ & _ & Hs & Hc) H. rewrite Hs, Hc. exact H.
Qed.

Lemma quot_rem_block s spb :
  0 <= s -> 0 < spb -> 0 <= Z.quot s spb /\ 0 <= Z.rem s spb < spb.
Proof.
  intros Hs Hp. rewrite Z.quot_div_nonneg, Z.rem_mod_nonneg by lia.
  split; [apply Z.div_pos; lia | apply Z.mod_pos_bound; lia].
Qed.

Lemma sparse_read_body_hole s st :
  bitmap_fits (rd_vhdm st) -> 0 <= s ->
  (forall blk, 0 <= blk -> block_offset (rd_vhdm st) blk = MVHD_SPARSE_BLK) ->
  bitmap_zero (rd_vhdm st) \/ (curr_block (bitmap (rd_vhdm st)) < 0 /\ rd_prev_blk st < 0) ->
  let st' := sparse_read_body s st in
  same_image (rd_vhdm st) (rd_vhdm st') /\
  log (f (rd_vhdm st')) = log (f (rd_vhdm st)) /\
  bitmap_zero (rd_vhdm st') /\
  rd_mem st' = memset (rd_mem st) (rd_buff st) 0 MVHD_SECTOR_SIZE /\
  rd_buff st' = rd_buff st + MVHD_SECTOR_SIZE.
Proof.
  intros Hfit Hs Hbat Hinv st'. subst st'. unfold sparse_read_body.
  destruct (quot_rem_block s (sect_per_block (rd_vhdm st)) Hs (proj1 Hfit)) as [Hblk Hsib].
  set (blk := Z.quot s (sect_per_block (rd_vhdm st))) in *.
  set (sib := Z.rem s (sect_per_block (rd_vhdm st))) in *.
  match goal with
  | |- context [if c_true (VHD_TESTBIT (curr_bitmap (bitmap ?w)) sib) then _ else _] =>
      set (v1 := w)
  end.
  assert (H1 : same_image (rd_vhdm st) v1 /\ log (f v1) = log (f (rd_vhdm st))
               /\ bitmap_zero v1).
  { subst v1.
    destruct (Z.eqb_spec blk (rd_prev_blk st)) as [Eprev | Nprev]; cbn [negb].
    - split; [apply same_image_refl|]. split; [reflexivity|].
      destruct Hinv as [Hz | [_ Hp]]; [exact Hz | lia].
    - destruct (Z.eqb_spec (curr_block (bitmap (rd_vhdm st))) blk) as [Ecur | Ncur]; cbn [negb].
      + split; [apply same_image_seek|]. split; [proj; apply fseeko64_log|].
        destruct Hinv as [Hz | [Hc _]]; [exact Hz | lia].
      + destruct (read_sect_bitmap_hole (rd_vhdm st) blk (Hbat blk Hblk) Hfit)
          as (Hsame & Hf & Hz & _).
        split; [eapply same_image_trans; [exact Hsame | apply same_image_seek]|].
        split; [proj; rewrite fseeko64_log, Hf; reflexivity|].
        exact Hz. }
  destruct H1 as (Hsame & Hlog & Hz).
  rewrite (bitmap_zero_testbit v1 sib (bitmap_fits_same _ _ Hsame Hfit) Hz).
  - proj. repeat split; try assumption; apply Hsame.
  - destruct Hsame as (_ & _ & _ & _ & _ & Hspb & _). rewrite Hspb. exact Hsib.
Qed.

Lemma sparse_read_body_unset s st :
  let st' := sparse_read_body s st in
  c_true (VHD_TESTBIT (curr_bitmap (bitmap (rd_vhdm st')))
            (Z.rem s (sect_per_block (rd_vhdm st)))) = false ->
  forall i, 0 <= i < MVHD_SECTOR_SIZE -> rd_mem st' (rd_buff st + i) = 0.
Proof.
  intros st'. subst st'. unfold sparse_read_body.
  match goal with
  | |- context [if c_true (VHD_TESTBIT (curr_bitmap (bitmap ?w)) ?k) then _ else _] =>
      set (v1 := w); set (sib := k)
  end.
  destruct (c_true (VHD_TESTBIT (curr_bitmap (bitmap v1)) sib)) eqn:E; proj.
  - intros H; rewrite E in H; discriminate.
  - intros _ i Hi. unfold memset.
    rewrite uint64_id by (consts; lia). rewrite in_range_true by lia. reflexivity.
Qed.

Lemma check_sectors_fits offset num total :
  is_int offset -> is_int num -> is_int total ->
  0 <= offset -> 0 <= num -> offset + num <= total ->
  mvhd_check_sectors offset num total = (num, 0) /\ int32 (offset + num) = offset + num.
Proof.
  intros Ho Hn Ht H0 H1 H2. split.
  - apply check_sectors_whole. rewrite int32_id by (consts; lia). lia.
  - apply int32_id. consts; lia.
Qed.

(** C6.  On an image whose blocks are all unallocated and whose bitmap cache
    is empty or all zero (a new sparse image to which nothing was written),
    a read of any range inside the image answers 0, fills the [num] sector
    slots of the output buffer with zero bytes, leaves the other memory as it
    was, and issues no [fread] and no [fwrite]: the log and the file are as
    before.  Sector by sector: loading the bitmap of an unallocated block
    zeroes the buffer in memory and moves the marker without using the file,
    and whenever the bit of the sector is unset in the cached bitmap the
    sector's slot is filled with zeros. *)
Theorem sparse_holes_read_zero vhdm offset num m buff :
  is_int offset -> is_int num -> 0 <= offset -> 0 <= num ->
  offset + num <= total_sectors vhdm ->
  bitmap_fits vhdm ->
  (forall blk, 0 <= blk -> block_offset vhdm blk = MVHD_SPARSE_BLK) ->
  bitmap_zero vhdm \/ curr_block (bitmap vhdm) < 0 ->
  let r := mvhd_sparse_read vhdm offset num m buff in
  fst (fst r) = 0 /\
  (forall i, 0 <= i < num * MVHD_SECTOR_SIZE -> snd r (buff + i) = 0) /\
  (forall j, ~ (buff <= j < buff + num * MVHD_SECTOR_SIZE) -> snd r j = m j) /\
  same_image vhdm (snd (fst r)) /\
  log (f (snd (fst r))) = log (f vhdm) /\
  (forall v blk, block_offset v blk = MVHD_SPARSE_BLK -> bitmap_fits v ->
     bitmap_zero (mvhd_read_sect_bitmap v blk) /\
     f (mvhd_read_sect_bitmap v blk) = f v /\
     curr_block (bitmap (mvhd_read_sect_bitmap v blk)) = blk) /\
  (forall s st,
     c_true (VHD_TESTBIT (curr_bitmap (bitmap (rd_vhdm (sparse_read_body s st))))
               (Z.rem s (sect_per_block (rd_vhdm st)))) = false ->
     forall i, 0 <= i < MVHD_SECTOR_SIZE ->
               rd_mem (sparse_read_body s st) (rd_buff st + i) = 0).
Proof.
  intros Ho Hn H0 Hn0 Hfit_range Hfit Hbat Hcache r.
  destruct (check_sectors_fits offset num (total_sectors vhdm))
    as [Hchk Hls]; try assumption; try apply int32_range.
  set (P := fun (s : Z) (st : rd_state) =>
    same_image vhdm (rd_vhdm st) /\ log (f (rd_vhdm st)) = log (f vhdm) /\
    (bitmap_zero (rd_vhdm st) \/ (curr_block (bitmap (rd_vhdm st)) < 0 /\ rd_prev_blk st < 0)) /\
    rd_buff st = buff + (s - offset) * MVHD_SECTOR_SIZE /\
    (forall i, buff <= i < rd_buff st -> rd_mem st i = 0) /\
    (forall j, ~ (buff <= j < rd_buff st) -> rd_mem st j = m j)).
  assert (HP : P (offset + Z.of_nat (Z.to_nat num))
                 (for_range (Z.to_nat num) offset sparse_read_body
                    {| rd_vhdm := vhdm; rd_prev_blk := -1; rd_buff := buff; rd_mem := m |})).
  { apply for_range_inv.
    - unfold P; proj. split; [apply same_image_refl|]. split; [reflexivity|].
      split; [destruct Hcache; [left; assumption | right; lia]|].
      split; [lia|]. split; [intros; lia | reflexivity].
    - intros s st Hs (Hsame & Hlog & Hinv & Hb & Hz & Hm).
      assert (Hbat' : forall blk, 0 <= blk -> block_offset (rd_vhdm st) blk = MVHD_SPARSE_BLK).
      { intros blk Hblk. destruct Hsame as (_ & _ & _ & _ & Hbo & _). rewrite Hbo. auto. }
      destruct (sparse_read_body_hole s st (bitmap_fits_same _ _ Hsame Hfit)
                  ltac:(lia) Hbat' Hinv) as (Hs' & Hl' & Hz' & Hm' & Hb').
      unfold P. split; [eapply same_image_trans; eassumption|].
      split; [congruence|]. split; [left; exact Hz'|].
      rewrite Hb', Hm', Hb. split; [lia|].
      unfold memset. rewrite uint64_id by (consts; lia).
      unfold MVHD_SECTOR_SIZE in *.
      split.
      + intros i Hi.
        destruct (Z_lt_le_dec i (buff + (s - offset) * 512)).
        * rewrite in_range_false by lia. apply Hz. lia.
        * rewrite in_range_true by lia. reflexivity.
      + intros j Hj. rewrite in_range_false by lia. apply Hm. lia. }
  assert (Hr : r = (0, rd_vhdm (for_range (Z.to_nat num) offset sparse_read_body
                    {| rd_vhdm := vhdm; rd_prev_blk := -1; rd_buff := buff; rd_mem := m |}),
                    rd_mem (for_range (Z.to_nat num) offset sparse_read_body
                    {| rd_vhdm := vhdm; rd_prev_blk := -1; rd_buff := buff; rd_mem := m |}))).
  { subst r. unfold mvhd_sparse_read. rewrite Hchk; cbn [fst snd]. rewrite Hls.
    replace (offset + num - offset) with num by lia. reflexivity. }
  rewrite Hr; cbn [fst snd].
  destruct HP as (Hsame & Hlog & _ & Hb & Hz & Hm).
  rewrite Z2Nat.id in Hb by lia.
  replace (offset + num - offset) with num in Hb by lia.
  split; [reflexivity|].
  split; [intros i Hi; apply Hz; lia|].
  split; [intros j Hj; apply Hm; lia|].
  split; [exact Hsame|]. split; [exact Hlog|].
  split.
  - intros v blk Hb0 Hf0.
    destruct (read_sect_bitmap_hole v blk Hb0 Hf0) as (_ & Hf' & Hz' & Hc').
    repeat split; assumption.
  - exact sparse_read_body_unset.
Qed.

(** On the empty image of 8192 sectors, sectors 4095..4097, which lie in two
    blocks, read as zeros. *)
Lemma sparse_holes_read_zero_witness :
  let r := mvhd_sparse_read ExampleSparse.empty_sparse 4095 3 Examples.fresh_buffer 0 in
  fst (fst r) = 0 /\ (forall i, 0 <= i < 3 * 512 -> snd r i = 0) /\
  log (f (snd (fst r))) = [].
Proof.
  assert (Ho : is_int 4095) by (unfold is_int, INT_MIN, INT_MAX; lia).
  assert (Hn : is_int 3) by (unfold is_int, INT_MIN, INT_MAX; lia).
  assert (Hr : 4095 + 3 <= total_sectors ExampleSparse.empty_sparse)
    by (vm_compute; congruence).
  assert (Hfit : bitmap_fits ExampleSparse.empty_sparse)
    by (unfold bitmap_fits; simpl; unfold INT_MAX, MVHD_SECTOR_SIZE; lia).
  assert (Hbat : forall blk, 0 <= blk ->
                   block_offset ExampleSparse.empty_sparse blk = MVHD_SPARSE_BLK)
    by reflexivity.
  assert (Hc : bitmap_zero ExampleSparse.empty_sparse
               \/ curr_block (bitmap ExampleSparse.empty_sparse) < 0)
    by (right; simpl; lia).
  pose proof (sparse_holes_read_zero ExampleSparse.empty_sparse 4095 3
                Examples.fresh_buffer 0 Ho Hn ltac:(lia) ltac:(lia) Hr Hfit Hbat Hc) as H.
  cbv zeta in H. destruct H as (H1 & H2 & _ & _ & H5 & _).
  cbv zeta. split; [exact H1|]. split; [|exact H5].
  intros i Hi. rewrite <- (Z.add_0_l i). apply H2. unfold MVHD_SECTOR_SIZE. lia.
Defined.

(** ** The Block Allocator *)

Lemma zero_fill_loop c : 0 < c < 2 ^ 64 ->
  forall (k : nat) (s0 : Z) (f0 : FILE), 0 <= pos f0 <= size f0 ->
  let f' := for_range k s0 (fun _ g => fwrite g zero_bytes 0 c) f0 in
  pos f' = pos f0 + Z.of_nat k * c /\
  size f' = Z.max (size f0) (pos f0 + Z.of_nat k * c) /\
  (forall i, pos f0 <= i < pos f0 + Z.of_nat k * c -> data f' i = 0) /\
  (forall i, i < size f0 -> ~ (pos f0 <= i < pos f0 + Z.of_nat k * c) ->
             data f' i = data f0 i) /\
  allocs (log f') = allocs (log f0).
Proof.
  intros Hc. induction k as [|k IH]; intros s0 f0 Hp; cbn [for_range].
  - cbv zeta. repeat split; try lia.
  - cbv zeta.
    assert (Hp1 : pos (fwrite f0 zero_bytes 0 c) = pos f0 + c) by (apply fwrite_pos; lia).
    assert (Hs1 : size (fwrite f0 zero_bytes 0 c) = Z.max (size f0) (pos f0 + c))
      by (apply fwrite_size; lia).
    destruct (IH (s0 + 1) (fwrite f0 zero_bytes 0 c) ltac:(lia)) as (Ipos & Isz & Iz & Iu & Il).
    rewrite Hp1 in *. rewrite Hs1 in *.
    rewrite Nat2Z.inj_succ, Z.mul_succ_l.
    split; [lia|]. split; [lia|]. split; [|split].
    + intros i Hi. destruct (Z_lt_le_dec i (pos f0 + c)).
      * rewrite Iu by lia.
        replace i with (pos f0 + (i - pos f0)) by lia.
        rewrite fwrite_in by lia. reflexivity.
      * apply Iz. lia.
    + intros i Hi Hout. rewrite Iu by lia. apply fwrite_out; lia.
    + rewrite Il, fwrite_log. reflexivity.
Qed.

Lemma forallb_agree {A : Type} (p q : A -> bool) (l : list A) :
  (forall x, In x l -> p x = q x) -> forallb p l = forallb q l.
Proof.
  induction l as [|a l IH]; intros H; cbn [forallb]; [reflexivity|].
  rewrite (H a) by (left; reflexivity).
  rewrite IH by (intros x Hx; apply H; right; exact Hx). reflexivity.
Qed.

Lemma mvhd_is_conectix_str_ext b1 b2 :
  (forall i, 0 <= i < 8 -> b1 i = b2 i) ->
  mvhd_is_conectix_str b1 = mvhd_is_conectix_str b2.
Proof.
  intros H. unfold mvhd_is_conectix_str.
  apply forallb_agree.
  intros k Hk. apply in_seq in Hk. rewrite H by lia. reflexivity.
Qed.

Lemma sector_align_spec x :
  0 <= x ->
  x <= sector_align x < x + MVHD_SECTOR_SIZE /\
  sector_align x mod MVHD_SECTOR_SIZE = 0 /\
  (Z.rem x MVHD_SECTOR_SIZE = 0 -> sector_align x = x) /\
  (Z.rem x MVHD_SECTOR_SIZE <> 0 ->
   sector_align x = x + (MVHD_SECTOR_SIZE - Z.rem x MVHD_SECTOR_SIZE)).
Proof.
  intros Hx. unfold sector_align, MVHD_SECTOR_SIZE.
  change (512 - 1) with 511.
  rewrite Z.rem_mod_nonneg by lia.
  pose proof (Z.div_mod x 512 ltac:(lia)) as Hdm.
  pose proof (Z.mod_pos_bound x 512 ltac:(lia)) as Hmb.
  assert (Hq : (x + 511) / 512 = x / 512 + (if x mod 512 =? 0 then 0 else 1)).
  { destruct (Z.eqb_spec (x mod 512) 0).
    - symmetry; apply (Z.div_unique _ _ _ 511); lia.
    - symmetry; apply (Z.div_unique _ _ _ (x mod 512 - 1)); lia. }
  rewrite Hq.
  split; [destruct (Z.eqb_spec (x mod 512) 0); lia|].
  split; [rewrite Z.mul_comm; apply Z_mod_mult|].
  split; intros Hr; destruct (Z.eqb_spec (x mod 512) 0); lia.
Qed.

Lemma write_empty_sectors_spec f0 n :
  0 <= n -> 0 <= pos f0 <= size f0 ->
  let f' := mvhd_write_empty_sectors f0 n in
  pos f' = pos f0 + n * MVHD_SECTOR_SIZE /\
  size f' = Z.max (size f0) (pos f0 + n * MVHD_SECTOR_SIZE) /\
  (forall i, pos f0 <= i < pos f0 + n * MVHD_SECTOR_SIZE -> data f' i = 0) /\
  (forall i, i < size f0 -> ~ (pos f0 <= i < pos f0 + n * MVHD_SECTOR_SIZE) ->
             data f' i = data f0 i) /\
  allocs (log f') = allocs (log f0).
Proof.
  intros Hn Hp. unfold mvhd_write_empty_sectors.
  pose proof (zero_fill_loop MVHD_SECTOR_SIZE ltac:(consts; lia) (Z.to_nat n) 0 f0 Hp) as H.
  rewrite Z2Nat.id in H by lia. exact H.
Qed.

(** The first steps of [mvhd_create_block]: fetching the footer, from the end
    of the file or else from its start, and placing the cursor. *)
Lemma create_block_fetch fl :
  MVHD_FOOTER_SIZE <= size fl ->
  let f1 := fseeko64 fl (- MVHD_FOOTER_SIZE) SEEK_END in
  let r := fread f1 zero_bytes 0 MVHD_FOOTER_SIZE in
  let f2 := fseeko64 (snd r) (- MVHD_FOOTER_SIZE) SEEK_END in
  let r' :=
    if negb (mvhd_is_conectix_str (fst r)) then
      (fst (fread (fseeko64 f2 0 SEEK_SET) (fst r) 0 MVHD_FOOTER_SIZE),
       fseeko64 (snd (fread (fseeko64 f2 0 SEEK_SET) (fst r) 0 MVHD_FOOTER_SIZE)) 0 SEEK_END)
    else (fst r, f2) in
  let valid := mvhd_is_conectix_str (trailer fl) in
  data (snd r') = data fl /\ size (snd r') = size fl /\
  pos (snd r') = (if valid then size fl - MVHD_FOOTER_SIZE else size fl) /\
  allocs (log (snd r')) = allocs (log fl) /\
  (forall j, 0 <= j < MVHD_FOOTER_SIZE ->
     fst r' j = if valid then trailer fl j else data fl j).
Proof.
  intros Hsz f1 r f2 r' valid.
  assert (Hp1 : pos f1 = size fl - MVHD_FOOTER_SIZE) by (apply fseeko64_end; lia).
  assert (Hd1 : data f1 = data fl) by apply fseeko64_data.
  assert (Hs1 : size f1 = size fl) by apply fseeko64_size.
  assert (Hb : 0 <= MVHD_FOOTER_SIZE < 2 ^ 64) by (consts; lia).
  assert (Hr : forall j, 0 <= j < MVHD_FOOTER_SIZE -> fst r j = trailer fl j).
  { intros j Hj. subst r. rewrite <- (Z.add_0_l j) at 1.
    rewrite fread_in by (try assumption; lia).
    rewrite Hd1, Hp1. reflexivity. }
  assert (Hv : mvhd_is_conectix_str (fst r) = valid).
  { apply mvhd_is_conectix_str_ext. intros i Hi. apply Hr. consts; lia. }
  assert (Hsr : size (snd r) = size fl) by exact Hs1.
  assert (Hp2 : pos f2 = size fl - MVHD_FOOTER_SIZE)
    by (subst f2; rewrite fseeko64_end by lia; lia).
  assert (Hd2 : data f2 = data fl) by (subst f2; rewrite fseeko64_data; exact Hd1).
  assert (Hs2 : size f2 = size fl) by (subst f2; rewrite fseeko64_size; exact Hs1).
  assert (Hl2 : allocs (log f2) = allocs (log fl)).
  { subst f2 r. rewrite fseeko64_log. cbn [fread snd log allocs].
    subst f1. rewrite fseeko64_log. reflexivity. }
  subst r'. rewrite Hv. destruct valid; cbn [negb fst snd].
  - split; [exact Hd2|]. split; [exact Hs2|].
    split; [exact Hp2|].
    split; [exact Hl2|]. exact Hr.
  - set (g1 := fseeko64 f2 0 SEEK_SET).
    assert (Hg1 : pos g1 = 0) by (apply fseeko64_set; lia).
    assert (Hgd : data g1 = data fl) by (subst g1; rewrite fseeko64_data; exact Hd2).
    assert (Hgs : size g1 = size fl) by (subst g1; rewrite fseeko64_size; exact Hs2).
    rewrite fseeko64_data, fseeko64_size, fseeko64_log.
    split; [exact Hgd|]. split; [exact Hgs|].
    split; [rewrite fseeko64_end by (cbn [fread snd size]; lia); cbn [fread snd size]; lia|].
    split; [cbn [fread snd log allocs]; subst g1; rewrite fseeko64_log; exact Hl2|].
    intros j Hj. rewrite <- (Z.add_0_l j) at 1.
    rewrite fread_in by (try assumption; lia).
    rewrite Hgd, Hg1. reflexivity.
Qed.

(** The padding step. *)
Lemma create_block_pad f3 :
  0 <= pos f3 <= size f3 ->
  let abs_offset := ftello64 f3 in
  let r :=
    if negb (Z.rem abs_offset MVHD_SECTOR_SIZE =? 0) then
      (write_padding f3 (MVHD_SECTOR_SIZE - Z.rem abs_offset MVHD_SECTOR_SIZE),
       abs_offset + (MVHD_SECTOR_SIZE - Z.rem abs_offset MVHD_SECTOR_SIZE))
    else (f3, abs_offset) in
  snd r = sector_align (pos f3) /\
  pos (fst r) = sector_align (pos f3) /\
  size (fst r) = Z.max (size f3) (sector_align (pos f3)) /\
  (forall i, pos f3 <= i < sector_align (pos f3) -> data (fst r) i = 0) /\
  (forall i, i < size f3 -> ~ (pos f3 <= i < sector_align (pos f3)) ->
             data (fst r) i = data f3 i) /\
  allocs (log (fst r)) = allocs (log f3).
Proof.
  intros Hp abs_offset r. subst abs_offset r. unfold ftello64.
  destruct (sector_align_spec (pos f3) ltac:(lia)) as (Hrange & _ & Heq & Hne).
  destruct (Z.eqb_spec (Z.rem (pos f3) MVHD_SECTOR_SIZE) 0) as [E | N]; cbn [negb fst snd].
  - rewrite (Heq E). repeat split; try lia.
  - rewrite (Hne N). unfold write_padding.
    assert (Hrem : 0 <= Z.rem (pos f3) MVHD_SECTOR_SIZE < MVHD_SECTOR_SIZE).
    { rewrite Z.rem_mod_nonneg by (consts; lia). apply Z.mod_pos_bound. consts; lia. }
    pose proof (zero_fill_loop 1 ltac:(lia)
                  (Z.to_nat (MVHD_SECTOR_SIZE - Z.rem (pos f3) MVHD_SECTOR_SIZE)) 0 f3 Hp) as H.
    cbv zeta in H. rewrite Z2Nat.id, Z.mul_1_r in H by lia.
    split; [reflexivity|]. exact H.
Qed.

(** What [mvhd_create_block] leaves behind: the file, the BAT and the log. *)
Lemma create_block_spec vhdm blk :
  MVHD_FOOTER_SIZE <= size (f vhdm) <= 2 ^ 40 - MVHD_SECTOR_SIZE ->
  0 <= sector_count (bitmap vhdm) -> 0 <= block_sz (sparse vhdm) ->
  sector_count (bitmap vhdm) + block_sz (sparse vhdm) / MVHD_SECTOR_SIZE <= INT_MAX ->
  0 <= blk -> 0 <= bat_offset (sparse vhdm) ->
  bat_offset (sparse vhdm) + 4 * blk + 4 <= size (f vhdm) - MVHD_FOOTER_SIZE ->
  let valid := mvhd_is_conectix_str (trailer (f vhdm)) in
  let file_end := if valid then size (f vhdm) - MVHD_FOOTER_SIZE else size (f vhdm) in
  let blk_start := sector_align file_end in
  let region := (sector_count (bitmap vhdm) + block_sz (sparse vhdm) / MVHD_SECTOR_SIZE + 5)
                * MVHD_SECTOR_SIZE in
  let slot := bat_offset (sparse vhdm) + 4 * blk in
  let v' := mvhd_create_block vhdm blk in
  (blk_start mod MVHD_SECTOR_SIZE = 0 /\ file_end <= blk_start < file_end + MVHD_SECTOR_SIZE /\
   block_offset v' blk = blk_start / MVHD_SECTOR_SIZE /\
   (forall b, b <> blk -> block_offset v' b = block_offset vhdm b)) /\
  (forall i, file_end <= i < blk_start + region -> data (f v') i = 0) /\
  (size (f v') = blk_start + region + MVHD_FOOTER_SIZE /\
   (forall j, 0 <= j < MVHD_FOOTER_SIZE ->
      trailer (f v') j = if valid then trailer (f vhdm) j else data (f vhdm) j) /\
   (valid = true -> mvhd_is_conectix_str (trailer (f v')) = true)) /\
  (forall k, 0 <= k < 4 ->
     data (f v') (slot + k) = cpu_to_be32 (blk_start / MVHD_SECTOR_SIZE) k) /\
  (forall i, i < file_end -> ~ (slot <= i < slot + 4) -> data (f v') i = data (f vhdm) i) /\
  allocs (log (f v')) = (blk, block_offset vhdm blk) :: allocs (log (f vhdm)) /\
  (footer v' = footer vhdm /\ sparse v' = sparse vhdm /\
   sect_per_block v' = sect_per_block vhdm /\ bitmap v' = bitmap vhdm).
Proof.
  intros Hsz Hsc Hbs Hn1 Hblk Hbat Hslot valid file_end blk_start region slot v'.
  subst v'. unfold mvhd_create_block. cbv zeta.
  set (f0 := {| data := data (f vhdm); size := size (f vhdm); pos := pos (f vhdm);
                log := EvCreateBlock blk (block_offset vhdm blk) :: log (f vhdm) |}).
  (* the footer *)
  pose proof (create_block_fetch f0 (proj1 Hsz)) as HA. cbv zeta in HA.
  match type of HA with data (snd ?t) = _ /\ _ => set (rA := t) in * end.
  change (trailer f0) with (trailer (f vhdm)) in HA. fold valid in HA.
  cbn [f0 data size log allocs] in HA. fold file_end in HA.
  destruct HA as (Ad & As & Ap & Al & Af).
  assert (Hfe : 0 <= file_end <= size (f vhdm))
    by (subst file_end; destruct valid; consts; lia).
  assert (Hfe' : size (f vhdm) <= file_end + MVHD_FOOTER_SIZE)
    by (subst file_end; destruct valid; consts; lia).
  (* the padding *)
  pose proof (create_block_pad (snd rA) ltac:(lia)) as HB. cbv zeta in HB.
  match type of HB with snd ?t = _ /\ _ => set (rB := t) in * end.
  rewrite Ap, As, Ad in HB. fold blk_start in HB.
  destruct HB as (Bo & Bp & Bs & Bz & Bu & Bl).
  destruct (sector_align_spec file_end (proj1 Hfe)) as (Hal & Hmod & _).
  fold blk_start in Hal, Hmod.
  (* the zero sectors *)
  assert (Hq : Z.quot (block_sz (sparse vhdm)) MVHD_SECTOR_SIZE
               = block_sz (sparse vhdm) / MVHD_SECTOR_SIZE)
    by (apply Z.quot_div_nonneg; consts; lia).
  assert (Hbq : 0 <= block_sz (sparse vhdm) / MVHD_SECTOR_SIZE)
    by (apply Z.div_pos; consts; lia).
  rewrite Hq.
  rewrite (int32_id (sector_count (bitmap vhdm) + _)) by (consts; lia).
  set (n1 := sector_count (bitmap vhdm) + block_sz (sparse vhdm) / MVHD_SECTOR_SIZE) in *.
  pose proof (write_empty_sectors_spec (fst rB) n1 ltac:(lia) ltac:(lia)) as HC.
  cbv zeta in HC.
  set (f5 := mvhd_write_empty_sectors (fst rB) n1) in *.
  rewrite Bp, Bs in HC. destruct HC as (Cp & Cs & Cz & Cu & Cl).
  pose proof (write_empty_sectors_spec f5 5 ltac:(lia) ltac:(consts; lia)) as HD.
  cbv zeta in HD.
  set (f6 := mvhd_write_empty_sectors f5 5) in *.
  rewrite Cp, Cs in HD. destruct HD as (Dp & Ds & Dz & Du & Dl).
  assert (Hreg : region = n1 * MVHD_SECTOR_SIZE + 5 * MVHD_SECTOR_SIZE) by (subst region; lia).
  assert (D6s : size f6 = blk_start + region) by (consts; lia).
  assert (D6p : pos f6 = blk_start + region) by lia.
  (* the footer again *)
  assert (Hfb : 0 <= MVHD_FOOTER_SIZE < 2 ^ 64) by (consts; lia).
  set (f7 := fwrite f6 (fst rA) 0 MVHD_FOOTER_SIZE) in *.
  assert (E7s : size f7 = blk_start + region + MVHD_FOOTER_SIZE)
    by (subst f7; rewrite fwrite_size by lia; consts; lia).
  (* the BAT *)
  rewrite Bo.
  assert (Hso : Z.quot blk_start MVHD_SECTOR_SIZE = blk_start / MVHD_SECTOR_SIZE)
    by (apply Z.quot_div_nonneg; consts; lia).
  assert (Hsr : 0 <= blk_start / MVHD_SECTOR_SIZE <= INT_MAX).
  { split; [apply Z.div_pos; consts; lia|].
    apply Z.lt_succ_r. apply Z.div_lt_upper_bound; consts; lia. }
  rewrite Hso, int32_id, uint32_id by (consts; lia).
  unfold mvhd_write_bat_entry. proj.
  rewrite Z.eqb_refl.
  rewrite (uint64_id blk) by (consts; lia).
  rewrite uint64_id by (consts; lia).
  replace (bat_offset (sparse vhdm) + blk * 4) with slot by (subst slot; lia).
  set (f8 := fseeko64 f7 slot SEEK_SET).
  assert (F8p : pos f8 = slot) by (apply fseeko64_set; subst slot; lia).
  assert (F8d : data f8 = data f7) by apply fseeko64_data.
  assert (F8s : size f8 = size f7) by apply fseeko64_size.
  assert (H4 : 0 <= 4 < 2 ^ 64) by lia.
  set (be := cpu_to_be32 (blk_start / MVHD_SECTOR_SIZE)).
  assert (Hin_slot : forall k, 0 <= k < 4 -> data (fwrite f8 be 0 4) (slot + k) = be k).
  { intros k Hk. rewrite <- F8p. rewrite fwrite_in by lia. reflexivity. }
  assert (Hout_slot : forall i, i < size f7 -> ~ (slot <= i < slot + 4) ->
                                data (fwrite f8 be 0 4) i = data f7 i).
  { intros i Hi Ho. rewrite fwrite_out by lia. rewrite F8d. reflexivity. }
  assert (Hzero : forall i, file_end <= i < blk_start + region -> data f7 i = 0).
  { intros i Hi. subst f7. rewrite fwrite_out by lia.
    destruct (Z_lt_le_dec i blk_start) as [Hlo | Hhi].
    - rewrite Du by (consts; lia). rewrite Cu by (consts; lia). apply Bz. lia.
    - destruct (Z_lt_le_dec i (blk_start + n1 * MVHD_SECTOR_SIZE)).
      + rewrite Du by (consts; lia). apply Cz. lia.
      + apply Dz. lia. }
  assert (Hold : forall i, i < file_end -> data f7 i = data (f vhdm) i).
  { intros i Hi. subst f7. rewrite fwrite_out by lia.
    rewrite Du by (consts; lia). rewrite Cu by (consts; lia). apply Bu; lia. }
  assert (Hfoot : forall j, 0 <= j < MVHD_FOOTER_SIZE ->
                    data f7 (blk_start + region + j) = fst rA j).
  { intros j Hj. subst f7. rewrite <- D6p. rewrite fwrite_in by lia. reflexivity. }
  assert (Htrail : forall j, 0 <= j < MVHD_FOOTER_SIZE ->
            trailer (fwrite f8 be 0 4) j
            = if valid then trailer (f vhdm) j else data (f vhdm) j).
  { intros j Hj. unfold trailer at 1.
    rewrite fwrite_size, F8p, F8s, E7s by lia.
    rewrite Z.max_l by (consts; lia).
    rewrite Hout_slot by (consts; lia).
    replace (blk_start + region + MVHD_FOOTER_SIZE - MVHD_FOOTER_SIZE + j)
      with (blk_start + region + j) by lia.
    rewrite Hfoot by lia. apply Af. lia. }
  split.
  { split; [exact Hmod|]. split; [exact Hal|]. split; [reflexivity|].
    intros b Hb. destruct (Z.eqb_spec b blk); [contradiction | reflexivity]. }
  split.
  { intros i Hi. rewrite Hout_slot by (consts; lia). apply Hzero. exact Hi. }
  split.
  { split; [rewrite fwrite_size, F8p, F8s, E7s by lia; consts; lia|].
    split; [exact Htrail|].
    intros Hv. rewrite <- Hv. fold valid.
    transitivity (mvhd_is_conectix_str (trailer (f vhdm))); [|reflexivity].
    apply mvhd_is_conectix_str_ext. intros i Hi.
    rewrite Htrail by (consts; lia). fold valid. rewrite Hv. reflexivity. }
  split; [exact Hin_slot|].
  split.
  { intros i Hi Ho. rewrite Hout_slot by (consts; lia). apply Hold. exact Hi. }
  split.
  { rewrite fwrite_log. cbn [allocs]. subst f8 f7.
    rewrite fseeko64_log, fwrite_log. cbn [allocs].
    rewrite Dl, Cl, Bl, Al. reflexivity. }
  repeat split.
Qed.

(** C8.  After [mvhd_create_block vhdm blk] on a file that holds at least a
    footer and whose BAT slot for [blk] lies before it: the block starts at
    [blk_start], the first sector boundary at or after the old end of the
    data (the end of the file less the footer when the footer is valid, the
    end of the file otherwise); every byte from the old end to the end of the
    new region is zero, that is the padding, the [sector_count] bitmap
    sectors, the [block_sz / 512] data sectors and five more sectors; the
    footer that was fetched is the last [MVHD_FOOTER_SIZE] bytes of the file;
    the BAT slot in memory holds [blk_start / 512] and the four bytes of the
    slot in the file hold it in big-endian order; nothing else of the old
    file or of the BAT changed. *)
Theorem mvhd_create_block_post vhdm blk :
  MVHD_FOOTER_SIZE <= size (f vhdm) <= 2 ^ 40 - MVHD_SECTOR_SIZE ->
  0 <= sector_count (bitmap vhdm) -> 0 <= block_sz (sparse vhdm) ->
  sector_count (bitmap vhdm) + block_sz (sparse vhdm) / MVHD_SECTOR_SIZE <= INT_MAX ->
  0 <= blk -> 0 <= bat_offset (sparse vhdm) ->
  bat_offset (sparse vhdm) + 4 * blk + 4 <= size (f vhdm) - MVHD_FOOTER_SIZE ->
  let valid := mvhd_is_conectix_str (trailer (f vhdm)) in
  let file_end := if valid then size (f vhdm) - MVHD_FOOTER_SIZE else size (f vhdm) in
  let blk_start := sector_align file_end in
  let region := (sector_count (bitmap vhdm) + block_sz (sparse vhdm) / MVHD_SECTOR_SIZE + 5)
                * MVHD_SECTOR_SIZE in
  let slot := bat_offset (sparse vhdm) + 4 * blk in
  let v' := mvhd_create_block vhdm blk in
  (blk_start mod MVHD_SECTOR_SIZE = 0 /\ file_end <= blk_start < file_end + MVHD_SECTOR_SIZE /\
   block_offset v' blk = blk_start / MVHD_SECTOR_SIZE /\
   (forall b, b <> blk -> block_offset v' b = block_offset vhdm b)) /\
  (forall i, file_end <= i < blk_start + region -> data (f v') i = 0) /\
  (size (f v') = blk_start + region + MVHD_FOOTER_SIZE /\
   (forall j, 0 <= j < MVHD_FOOTER_SIZE ->
      trailer (f v') j = if valid then trailer (f vhdm) j else data (f vhdm) j) /\
   (valid = true -> mvhd_is_conectix_str (trailer (f v')) = true)) /\
  (forall k, 0 <= k < 4 ->
     data (f v') (slot + k) = cpu_to_be32 (blk_start / MVHD_SECTOR_SIZE) k) /\
  (forall i, i < file_end -> ~ (slot <= i < slot + 4) -> data (f v') i = data (f vhdm) i).
Proof.
  intros Hsz Hsc Hbs Hn1 Hblk Hbat Hslot.
  destruct (create_block_spec vhdm blk Hsz Hsc Hbs Hn1 Hblk Hbat Hslot)
    as (Hoff & Hzero & Hfoot & Hpers & Hold & _).
  cbv zeta. split; [exact Hoff|]. split; [exact Hzero|].
  split; [exact Hfoot|]. split; [exact Hpers | exact Hold].
Qed.

(** Allocating block 0 of the empty image: the footer is valid and ends the
    file at 2560, so the block starts at byte 2048, sector 4; the region of
    1 + 4096 + 5 zero sectors follows and then the footer. *)
Lemma mvhd_create_block_post_witness :
  let v' := mvhd_create_block ExampleSparse.empty_sparse 0 in
  block_offset v' 0 = 4 /\
  (forall i, 2048 <= i < 2048 + 4102 * 512 -> data (f v') i = 0) /\
  size (f v') = 2048 + 4102 * 512 + 512 /\
  mvhd_is_conectix_str (trailer (f v')) = true /\
  (forall k, 0 <= k < 4 -> data (f v') (1536 + k) = nth (Z.to_nat k) [0; 0; 0; 4] 0) /\
  created (log (f v')) = [0].
Proof.
  assert (H1 : MVHD_FOOTER_SIZE <= size (f ExampleSparse.empty_sparse)
               <= 2 ^ 40 - MVHD_SECTOR_SIZE) by (vm_compute; split; congruence).
  assert (H2 : 0 <= sector_count (bitmap ExampleSparse.empty_sparse))
    by (vm_compute; congruence).
  assert (H3 : 0 <= block_sz (sparse ExampleSparse.empty_sparse))
    by (vm_compute; congruence).
  assert (H4 : sector_count (bitmap ExampleSparse.empty_sparse)
               + block_sz (sparse ExampleSparse.empty_sparse) / MVHD_SECTOR_SIZE <= INT_MAX)
    by (vm_compute; congruence).
  assert (H5 : 0 <= 0) by lia.
  assert (H6 : 0 <= bat_offset (sparse ExampleSparse.empty_sparse))
    by (vm_compute; congruence).
  assert (H7 : bat_offset (sparse ExampleSparse.empty_sparse) + 4 * 0 + 4
               <= size (f ExampleSparse.empty_sparse) - MVHD_FOOTER_SIZE)
    by (vm_compute; congruence).
  pose proof (mvhd_create_block_post ExampleSparse.empty_sparse 0 H1 H2 H3 H4 H5 H6 H7) as H.
  cbv zeta in H.
  destruct H as ((_ & _ & Hbo & _) & Hz & (Hs & _ & Hv) & Hbat & _).
  cbv zeta. split; [exact Hbo|].
  split; [intros i Hi; apply Hz; change (2048 <= i < 2048 + 2100224); lia|].
  split; [exact Hs|]. split; [apply Hv; reflexivity|].
  split; [|vm_compute; reflexivity].
  intros k Hk. refine (eq_trans (Hbat k Hk) _).
  assert (Hc : k = 0 \/ k = 1 \/ k = 2 \/ k = 3) by lia.
  destruct Hc as [-> | [-> | [-> | ->]]]; reflexivity.
Defined.

(** ** Allocation happens once *)

Lemma steady_refl v : steady v v.
Proof. unfold steady; repeat split; lia. Qed.

Lemma steady_trans v1 v2 v3 : steady v1 v2 -> steady v2 v3 -> steady v1 v3.
Proof.
  unfold steady.
  intros (a1 & a2 & a3 & a4 & a5 & a6 & a7) (b1 & b2 & b3 & b4 & b5 & b6 & b7).
  repeat split; try congruence; lia.
Qed.

Lemma steady_seek v off w : steady v (with_f v (fseeko64 (f v) off w)).
Proof. unfold steady; proj. rewrite fseeko64_log, fseeko64_size. repeat split; lia. Qed.

Lemma steady_fwrite v m ptr n : steady v (with_f v (fwrite (f v) m ptr n)).
Proof.
  unfold steady; proj. rewrite fwrite_log. cbn [allocs].
  repeat split. apply fwrite_size_ge.
Qed.

Lemma steady_fread v m ptr n : steady v (with_f v (snd (fread (f v) m ptr n))).
Proof. unfold steady, fread; proj. cbn [allocs]. repeat split; lia. Qed.

Lemma steady_curr_bitmap v bm : steady v (with_curr_bitmap v bm).
Proof. unfold steady; proj. repeat split; lia. Qed.

Lemma steady_curr_block v blk : steady v (with_curr_block v blk).
Proof. unfold steady; proj. repeat split; lia. Qed.

Lemma steady_read_sect_bitmap v blk : steady v (mvhd_read_sect_bitmap v blk).
Proof.
  unfold steady, mvhd_read_sect_bitmap, fread.
  destruct (negb (block_offset v blk =? MVHD_SPARSE_BLK)); proj; cbn [allocs];
    rewrite ?fseeko64_log, ?fseeko64_size; repeat split; lia.
Qed.

Lemma steady_write_curr_sect_bitmap v : steady v (mvhd_write_curr_sect_bitmap v).
Proof.
  unfold mvhd_write_curr_sect_bitmap.
  destruct (0 <=? curr_block (bitmap v)); [|apply steady_refl].
  unfold steady; proj. rewrite fwrite_log; cbn [allocs]. rewrite fseeko64_log.
  repeat split.
  eapply Z.le_trans; [|apply fwrite_size_ge]. rewrite fseeko64_size. lia.
Qed.

Lemma zero_loop_size_ge c : forall (k : nat) (s0 : Z) (f0 : FILE),
  size f0 <= size (for_range k s0 (fun _ g => fwrite g zero_bytes 0 c) f0).
Proof.
  induction k as [|k IH]; intros s0 f0; cbn [for_range]; [lia|].
  eapply Z.le_trans; [|apply IH]. apply fwrite_size_ge.
Qed.

Lemma create_block_size_ge v blk : size (f v) <= size (f (mvhd_create_block v blk)).
Proof.
  unfold mvhd_create_block, mvhd_write_bat_entry, mvhd_write_empty_sectors, write_padding.
  cbv zeta. proj.
  eapply Z.le_trans; [|apply fwrite_size_ge]. rewrite fseeko64_size.
  eapply Z.le_trans; [|apply fwrite_size_ge].
  eapply Z.le_trans; [|apply zero_loop_size_ge].
  eapply Z.le_trans; [|apply zero_loop_size_ge].
  match goal with |- context [if ?c then _ else _] => destruct c end; cbn [fst snd].
  - eapply Z.le_trans; [|apply zero_loop_size_ge].
    match goal with |- context [if ?c then _ else _] => destruct c end; cbn [fst snd];
      rewrite ?fseeko64_size; cbn [fread snd size]; rewrite ?fseeko64_size;
      cbn [fread snd size]; rewrite ?fseeko64_size; cbn [size]; lia.
  - match goal with |- context [if ?c then _ else _] => destruct c end; cbn [fst snd];
      rewrite ?fseeko64_size; cbn [fread snd size]; rewrite ?fseeko64_size;
      cbn [fread snd size]; rewrite ?fseeko64_size; cbn [size]; lia.
Qed.

(** The steps of the loop body that follow the allocation test. *)
Ltac steady_tail :=
  repeat lazymatch goal with
  | |- steady ?a ?a => apply steady_refl
  | |- steady _ (with_curr_bitmap _ _) => eapply steady_trans; [|apply steady_curr_bitmap]
  | |- steady _ (with_f _ (fwrite _ _ _ _)) => eapply steady_trans; [|apply steady_fwrite]
  | |- steady _ (with_f _ (fseeko64 _ _ _)) => eapply steady_trans; [|apply steady_seek]
  | |- steady _ (mvhd_read_sect_bitmap _ _) =>
      eapply steady_trans; [|apply steady_read_sect_bitmap]
  | |- steady _ (mvhd_write_curr_sect_bitmap _) =>
      eapply steady_trans; [|apply steady_write_curr_sect_bitmap]
  end.

Lemma write_body_steady m s st :
  block_offset (wr_vhdm st) (Z.quot s (sect_per_block (wr_vhdm st))) <> MVHD_SPARSE_BLK ->
  steady (wr_vhdm st) (wr_vhdm (sparse_diff_write_body m s st)).
Proof.
  intros H. unfold sparse_diff_write_body. apply Z.eqb_neq in H. rewrite H. proj.
  repeat match goal with |- context [if ?c then _ else _] => destruct c end;
    steady_tail.
Qed.

Lemma write_body_after_create m s st :
  block_offset (wr_vhdm st) (Z.quot s (sect_per_block (wr_vhdm st))) = MVHD_SPARSE_BLK ->
  steady (mvhd_create_block
            (mvhd_read_sect_bitmap (wr_vhdm st) (Z.quot s (sect_per_block (wr_vhdm st))))
            (Z.quot s (sect_per_block (wr_vhdm st))))
         (wr_vhdm (sparse_diff_write_body m s st)).
Proof.
  intros H. unfold sparse_diff_write_body. rewrite H.
  change (MVHD_SPARSE_BLK =? MVHD_SPARSE_BLK) with true. proj.
  repeat match goal with |- context [if ?c then _ else _] => destruct c end;
    steady_tail.
Qed.
Lemma total_sectors_footer v v' : footer v' = footer v -> total_sectors v' = total_sectors v.
Proof. intros H; unfold total_sectors; rewrite H; reflexivity. Qed.

Lemma can_allocate_grow v v' :
  footer v' = footer v -> sparse v' = sparse v ->
  sect_per_block v' = sect_per_block v ->
  sector_count (bitmap v') = sector_count (bitmap v) ->
  size (f v) <= size (f v') ->
  can_allocate v -> can_allocate v'.
Proof.
  intros Hf Hs Hp Hc Hsz (H1 & H2 & H3 & H4 & H5 & H6 & H7).
  unfold can_allocate. rewrite (total_sectors_footer _ _ Hf), Hs, Hp, Hc.
  repeat split; try assumption; try lia.
  intros s Hs'. specialize (H7 s Hs'). lia.
Qed.

Lemma can_allocate_steady v v' : steady v v' -> can_allocate v -> can_allocate v'.
Proof.
  intros (_ & _ & Hsz & Hf & Hs & Hp & Hc). apply can_allocate_grow; assumption.
Qed.

Lemma alloc_inv_steady v v' : steady v v' -> alloc_inv v -> alloc_inv v'.
Proof.
  intros (Hbo & Hal & _) (H1 & H2). unfold alloc_inv, created.
  rewrite Hal, Hbo. split; assumption.
Qed.

Lemma write_body_size_ge m s st :
  size (f (wr_vhdm st)) <= size (f (wr_vhdm (sparse_diff_write_body m s st))).
Proof.
  destruct (Z.eq_dec (block_offset (wr_vhdm st) (Z.quot s (sect_per_block (wr_vhdm st))))
              MVHD_SPARSE_BLK) as [E | N].
  - destruct (write_body_after_create m s st E) as (_ & _ & Hsz & _).
    eapply Z.le_trans; [|exact Hsz].
    eapply Z.le_trans; [|apply create_block_size_ge].
    apply (steady_read_sect_bitmap (wr_vhdm st)).
  - apply (write_body_steady m s st N).
Qed.

Lemma write_loop_size_ge m : forall (n : nat) (s : Z) (st : wr_state),
  size (f (wr_vhdm st))
  <= size (f (wr_vhdm (for_range n s (sparse_diff_write_body m) st))).
Proof.
  induction n as [|n IH]; intros s st; cbn [for_range]; [lia|].
  eapply Z.le_trans; [apply (write_body_size_ge m s st) | apply IH].
Qed.

(** One entry into the Block Allocator under the discipline. *)
Lemma create_block_alloc v blk :
  can_allocate v -> alloc_inv v ->
  block_offset v blk = MVHD_SPARSE_BLK -> 0 <= blk ->
  bat_offset (sparse v) + 4 * blk + 4 <= size (f v) - MVHD_FOOTER_SIZE ->
  let v1 := mvhd_create_block (mvhd_read_sect_bitmap v blk) blk in
  size (f v1) <= MAX_FILE ->
  alloc_inv v1 /\ can_allocate v1 /\
  block_offset v1 blk <> MVHD_SPARSE_BLK /\
  (forall b, b <> blk -> block_offset v1 b = block_offset v b) /\
  footer v1 = footer v /\ sect_per_block v1 = sect_per_block v /\
  size (f v) <= size (f v1) /\
  allocs (log (f v1)) = (blk, MVHD_SPARSE_BLK) :: allocs (log (f v)).
Proof.
  intros Hcan Hinv Hbo Hblk Hslot v1 Hmax.
  pose proof (steady_read_sect_bitmap v blk) as Hst.
  set (v0 := mvhd_read_sect_bitmap v blk) in *.
  destruct (read_sect_bitmap_sparse v blk Hbo) as (_ & Hbo0 & Hf0). fold v0 in Hbo0, Hf0.
  pose proof (can_allocate_steady _ _ Hst Hcan) as Hcan0.
  pose proof (create_block_size_ge v0 blk) as Hge. fold v1 in Hge.
  destruct Hcan0 as (C1 & C2 & C3 & C4 & C5 & C6 & C7).
  destruct Hst as (_ & _ & _ & Sf & Ss & Sp & Sc).
  assert (Hslot0 : bat_offset (sparse v0) + 4 * blk + 4 <= size (f v0) - MVHD_FOOTER_SIZE)
    by (rewrite Ss, Hf0; exact Hslot).
  destruct (create_block_spec v0 blk) as
    ((_ & Hal & Hb1 & Hbother) & _ & (Hsz & _) & _ & _ & Hlog & (Pf & Ps & Pp & Pb));
    try assumption; [unfold MAX_FILE in Hmax; fold v1 in Hge; lia|].
  fold v1 in Hb1, Hbother, Hsz, Hlog, Pf, Ps, Pp, Pb.
  rewrite Hbo0, Hf0 in *.
  assert (Hval : 0 <= block_offset v1 blk < 2 ^ 31).
  { rewrite Hb1. unfold MAX_FILE in Hmax.
    destruct (mvhd_is_conectix_str (trailer (f v)));
      (split; [apply Z.div_pos; consts; lia|];
       apply Z.div_lt_upper_bound; consts; lia). }
  assert (Hne : block_offset v1 blk <> MVHD_SPARSE_BLK) by (consts; lia).
  assert (Hallocs : allocs (log (f v1)) = (blk, MVHD_SPARSE_BLK) :: allocs (log (f v)))
    by (rewrite Hlog, Hbo; reflexivity).
  split.
  { destruct Hinv as (I1 & I2). unfold alloc_inv, created. rewrite Hallocs. split.
    - intros b slot [Heq | Hin].
      + inversion Heq; subst. split; [reflexivity | exact Hne].
      + destruct (I1 b slot Hin) as (Hs1 & Hb). split; [exact Hs1|].
        destruct (Z.eq_dec b blk) as [-> | Hd]; [congruence|].
        rewrite Hbother by exact Hd. exact Hb.
    - cbn [map fst]. constructor; [|exact I2].
      intros Hin. apply in_map_iff in Hin. destruct Hin as ([b slot] & Hfst & Hin).
      cbn [fst] in Hfst. subst b. destruct (I1 blk slot Hin) as (_ & Hb). congruence. }
  split.
  { apply (can_allocate_grow v v1);
      first [exact Hcan | congruence | lia | rewrite Pb; exact Sc]. }
  split; [exact Hne|]. split; [exact Hbother|].
  split; [congruence|]. split; [congruence|]. split; [lia | exact Hallocs].
Qed.

Lemma write_body_alloc m s st :
  let v := wr_vhdm st in
  let v' := wr_vhdm (sparse_diff_write_body m s st) in
  can_allocate v -> alloc_inv v -> 0 <= s < total_sectors v ->
  size (f v') <= MAX_FILE ->
  alloc_inv v' /\ can_allocate v' /\
  footer v' = footer v /\ sect_per_block v' = sect_per_block v /\
  block_offset v' (s / sect_per_block v) <> MVHD_SPARSE_BLK /\
  (forall b, block_offset v b <> MVHD_SPARSE_BLK -> block_offset v' b = block_offset v b) /\
  (block_offset v (s / sect_per_block v) <> MVHD_SPARSE_BLK -> steady v v').
Proof.
  intros v v' Hcan Hinv Hs Hmax.
  assert (Hspb : 0 < sect_per_block v) by apply Hcan.
  assert (Hq : Z.quot s (sect_per_block v) = s / sect_per_block v)
    by (apply Z.quot_div_nonneg; lia).
  destruct (Z.eq_dec (block_offset v (s / sect_per_block v)) MVHD_SPARSE_BLK) as [E | N].
  - pose proof (write_body_after_create m s st) as Hst.
    fold v in Hst. rewrite Hq in Hst. specialize (Hst E). fold v' in Hst.
    set (blk := s / sect_per_block v) in *.
    assert (Hblk : 0 <= blk) by (apply Z.div_pos; lia).
    destruct Hcan as (C1 & C2 & C3 & C4 & C5 & C6 & C7).
    pose proof (C7 s Hs) as Hslot. fold blk in Hslot.
    destruct (create_block_alloc v blk) as (A1 & A2 & A3 & A4 & A5 & A6 & A7 & _);
      try assumption.
    { repeat split; assumption. }
    { destruct Hst as (_ & _ & Hsz & _). lia. }
    set (v1 := mvhd_create_block (mvhd_read_sect_bitmap v blk) blk) in *.
    pose proof Hst as (Sbo & _ & _ & Sf & _ & Sp & _).
    split; [apply (alloc_inv_steady v1); assumption|].
    split; [apply (can_allocate_steady v1); assumption|].
    split; [congruence|]. split; [congruence|].
    split; [rewrite Sbo; exact A3|].
    split; [|intros Hc; contradiction].
    intros b Hb. rewrite Sbo. apply A4. intros ->. contradiction.
  - pose proof (write_body_steady m s st) as Hst.
    fold v in Hst. rewrite Hq in Hst. specialize (Hst N). fold v' in Hst.
    pose proof Hst as (Sbo & _ & _ & Sf & _ & Sp & _).
    split; [apply (alloc_inv_steady v); assumption|].
    split; [apply (can_allocate_steady v); assumption|].
    split; [exact Sf|]. split; [exact Sp|].
    split; [rewrite Sbo; exact N|].
    split; [intros b _; rewrite Sbo; reflexivity | intros _; exact Hst].
Qed.

Lemma write_loop_alloc m : forall (n : nat) (s : Z) (st : wr_state),
  let v := wr_vhdm st in
  let v' := wr_vhdm (for_range n s (sparse_diff_write_body m) st) in
  can_allocate v -> alloc_inv v ->
  0 <= s -> s + Z.of_nat n <= total_sectors v ->
  size (f v') <= MAX_FILE ->
  alloc_inv v' /\ can_allocate v' /\
  footer v' = footer v /\ sect_per_block v' = sect_per_block v /\
  (forall s', s <= s' < s + Z.of_nat n ->
     block_offset v' (s' / sect_per_block v) <> MVHD_SPARSE_BLK) /\
  (forall b, block_offset v b <> MVHD_SPARSE_BLK -> block_offset v' b = block_offset v b) /\
  ((forall s', s <= s' < s + Z.of_nat n ->
      block_offset v (s' / sect_per_block v) <> MVHD_SPARSE_BLK) -> steady v v').
Proof.
  induction n as [|n IH]; intros s st v v' Hcan Hinv Hs Hn Hmax.
  - subst v'. cbn [for_range]. fold v.
    split; [exact Hinv|]. split; [exact Hcan|].
    split; [reflexivity|]. split; [reflexivity|].
    split; [intros s' Hs'; lia|].
    split; [reflexivity | intros _; apply steady_refl].
  - subst v'. cbn [for_range] in *.
    set (st1 := sparse_diff_write_body m s st) in *.
    pose proof (write_loop_size_ge m n (s + 1) st1) as Hge.
    pose proof (write_body_alloc m s st) as HB. cbv zeta in HB. fold st1 v in HB.
    specialize (HB Hcan Hinv ltac:(lia) ltac:(lia)).
    destruct HB as (B1 & B2 & B3 & B4 & B5 & B6 & B7).
    pose proof (IH (s + 1) st1) as HI. cbv zeta in HI.
    rewrite (total_sectors_footer _ _ B3) in HI.
    specialize (HI B2 B1 ltac:(lia) ltac:(fold v; lia) Hmax).
    destruct HI as (I1 & I2 & I3 & I4 & I5 & I6 & I7).
    set (v2 := wr_vhdm (for_range n (s + 1) (sparse_diff_write_body m) st1)) in *.
    rewrite B4 in I5, I7.
    split; [exact I1|]. split; [exact I2|].
    split; [congruence|]. split; [congruence|].
    split; [|split].
    + intros s' Hs'. destruct (Z.eq_dec s' s) as [-> | Hd].
      * rewrite I6 by exact B5. exact B5.
      * apply I5. lia.
    + intros b Hb. rewrite I6; [apply B6; exact Hb|]. rewrite B6; assumption.
    + intros Hall. eapply steady_trans; [apply B7; apply Hall; lia|].
      apply I7. intros s' Hs'. rewrite B6; apply Hall; lia.
Qed.

Lemma write_loop_steady m : forall (n : nat) (s : Z) (st : wr_state),
  0 < sect_per_block (wr_vhdm st) -> 0 <= s ->
  (forall s', s <= s' < s + Z.of_nat n ->
     block_offset (wr_vhdm st) (s' / sect_per_block (wr_vhdm st)) <> MVHD_SPARSE_BLK) ->
  steady (wr_vhdm st) (wr_vhdm (for_range n s (sparse_diff_write_body m) st)).
Proof.
  induction n as [|n IH]; intros s st Hspb Hs Hall; cbn [for_range].
  - apply steady_refl.
  - assert (Hst : steady (wr_vhdm st) (wr_vhdm (sparse_diff_write_body m s st))).
    { apply write_body_steady. rewrite Z.quot_div_nonneg by lia. apply Hall. lia. }
    eapply steady_trans; [exact Hst|].
    destruct Hst as (Sbo & _ & _ & _ & _ & Sp & _).
    apply IH; [lia | lia |].
    intros s' Hs'. rewrite Sbo, Sp. apply Hall. lia.
Qed.

Lemma sparse_diff_write_loop vhdm offset num m buff :
  is_int offset -> is_int num -> 0 <= offset <= total_sectors vhdm -> 0 <= num ->
  let transfer := fst (mvhd_check_sectors offset num (total_sectors vhdm)) in
  0 <= transfer /\ offset + transfer <= total_sectors vhdm /\
  snd (mvhd_sparse_diff_write vhdm offset num m buff)
  = mvhd_write_curr_sect_bitmap
      (wr_vhdm (for_range (Z.to_nat transfer) offset (sparse_diff_write_body m)
                  {| wr_vhdm := vhdm; wr_prev_blk := -1; wr_buff := buff |})).
Proof.
  intros Ho Hn Hoff Hnum transfer.
  destruct (check_sectors_in_range offset num (total_sectors vhdm) Ho Hn
              (int32_range _) Hoff Hnum) as [Htr _].
  fold transfer in Htr.
  split; [lia|]. split; [lia|].
  unfold mvhd_sparse_diff_write. cbn [snd]. fold transfer.
  rewrite int32_id by (pose proof (int32_range (cyl (geom (footer vhdm))
     * heads (geom (footer vhdm)) * spt (geom (footer vhdm)))); unfold total_sectors in *;
     consts; lia).
  replace (offset + transfer - offset) with transfer by lia. reflexivity.
Qed.

Lemma sparse_diff_write_steady vhdm offset num m buff :
  is_int offset -> is_int num -> 0 <= offset <= total_sectors vhdm -> 0 <= num ->
  0 < sect_per_block vhdm ->
  (forall s, offset <= s < offset + fst (mvhd_check_sectors offset num (total_sectors vhdm)) ->
     block_offset vhdm (s / sect_per_block vhdm) <> MVHD_SPARSE_BLK) ->
  steady vhdm (snd (mvhd_sparse_diff_write vhdm offset num m buff)).
Proof.
  intros Ho Hn Hoff Hnum Hspb Hall.
  destruct (sparse_diff_write_loop vhdm offset num m buff Ho Hn Hoff Hnum) as (Ht & _ & ->).
  eapply steady_trans; [|apply steady_write_curr_sect_bitmap].
  apply (write_loop_steady m _ offset
           {| wr_vhdm := vhdm; wr_prev_blk := -1; wr_buff := buff |}); proj;
    try assumption; try lia.
  rewrite Z2Nat.id by lia. exact Hall.
Qed.

(** C3.  Let the allocation discipline hold of a handle (it does when the log
    is empty): every entry into the Block Allocator found the sentinel in the
    block's BAT slot, every block it was entered for is allocated, and no
    block was entered twice.  Then after any write inside the disk that
    leaves the file below [MAX_FILE] the discipline holds again; every block
    the write touched is allocated; no slot that was allocated changed; a
    write that touches allocated blocks only does not enter the Block
    Allocator and leaves the BAT alone; and so does the same write made
    again. *)
Theorem allocator_runs_once vhdm offset num m buff :
  is_int offset -> is_int num -> 0 <= offset <= total_sectors vhdm -> 0 <= num ->
  can_allocate vhdm -> alloc_inv vhdm ->
  let transfer := fst (mvhd_check_sectors offset num (total_sectors vhdm)) in
  let w := snd (mvhd_sparse_diff_write vhdm offset num m buff) in
  let w2 := snd (mvhd_sparse_diff_write w offset num m buff) in
  size (f w) <= MAX_FILE ->
  alloc_inv w /\
  (forall s, offset <= s < offset + transfer ->
     block_offset w (s / sect_per_block vhdm) <> MVHD_SPARSE_BLK) /\
  (forall b, block_offset vhdm b <> MVHD_SPARSE_BLK -> block_offset w b = block_offset vhdm b) /\
  ((forall s, offset <= s < offset + transfer ->
      block_offset vhdm (s / sect_per_block vhdm) <> MVHD_SPARSE_BLK) ->
   allocs (log (f w)) = allocs (log (f vhdm)) /\ block_offset w = block_offset vhdm) /\
  (allocs (log (f w2)) = allocs (log (f w)) /\ block_offset w2 = block_offset w).
Proof.
  intros Ho Hn Hoff Hnum Hcan Hinv transfer w w2 Hmax.
  destruct (sparse_diff_write_loop vhdm offset num m buff Ho Hn Hoff Hnum) as (Ht & Hr & Hw).
  fold transfer in Ht, Hr, Hw. fold w in Hw.
  set (st0 := {| wr_vhdm := vhdm; wr_prev_blk := -1; wr_buff := buff |}) in *.
  set (v' := wr_vhdm (for_range (Z.to_nat transfer) offset (sparse_diff_write_body m) st0)) in *.
  pose proof (steady_write_curr_sect_bitmap v') as Hfl. rewrite <- Hw in Hfl.
  pose proof (write_loop_alloc m (Z.to_nat transfer) offset st0) as HL.
  cbv zeta in HL. fold v' in HL. cbn [st0 wr_vhdm] in HL.
  rewrite Z2Nat.id in HL by lia.
  assert (Hmax' : size (f v') <= MAX_FILE) by (destruct Hfl as (_ & _ & Hsz & _); lia).
  specialize (HL Hcan Hinv ltac:(lia) Hr Hmax').
  destruct HL as (L1 & L2 & L3 & L4 & L5 & L6 & _).
  pose proof Hfl as (Fbo & _ & _ & Ff & _ & Fp & _).
  assert (Hw_alloc : forall s, offset <= s < offset + transfer ->
            block_offset w (s / sect_per_block vhdm) <> MVHD_SPARSE_BLK).
  { intros s Hs. rewrite Fbo. apply L5. exact Hs. }
  split; [apply (alloc_inv_steady v'); assumption|].
  split; [exact Hw_alloc|].
  split; [intros b Hb; rewrite Fbo; apply L6; exact Hb|].
  split.
  - intros Hall.
    destruct (sparse_diff_write_steady vhdm offset num m buff Ho Hn Hoff Hnum
                (proj1 Hcan) Hall) as (Sbo & Sal & _).
    fold w in Sbo, Sal. split; assumption.
  - assert (Htot : total_sectors w = total_sectors vhdm)
      by (apply total_sectors_footer; congruence).
    assert (Hspb : sect_per_block w = sect_per_block vhdm) by congruence.
    destruct (sparse_diff_write_steady w offset num m buff Ho Hn) as (Sbo & Sal & _);
      try (rewrite ?Htot, ?Hspb; first [assumption | lia | apply Hcan]).
    fold w2 in Sbo, Sal. split; assumption.
Qed.

Lemma alloc_inv_empty_log v : log (f v) = [] -> alloc_inv v.
Proof.
  intros H. unfold alloc_inv, created. rewrite H. cbn [allocs map].
  split; [intros blk slot []| constructor].
Qed.

(** On the empty image of 8192 sectors, the write of sectors 4095..4097 enters
    the Block Allocator for block 0 and for block 1, once each; the same write
    made again enters it for no block. *)
Lemma allocator_runs_once_witness :
  alloc_inv ExampleWrite.written /\
  created (log (f ExampleWrite.written)) = [1; 0] /\
  allocs (log (f ExampleWrite.written_twice)) = allocs (log (f ExampleWrite.written)).
Proof.
  unfold ExampleWrite.written_twice, ExampleWrite.written.
  assert (Ho : is_int 4095) by (unfold is_int, INT_MIN, INT_MAX; lia).
  assert (Hn : is_int 3) by (unfold is_int, INT_MIN, INT_MAX; lia).
  assert (Hoff : 0 <= 4095 <= total_sectors ExampleSparse.empty_sparse)
    by (vm_compute; split; congruence).
  assert (Hnum : 0 <= 3) by lia.
  assert (Hcan : can_allocate ExampleSparse.empty_sparse).
  { unfold can_allocate.
    change (total_sectors ExampleSparse.empty_sparse) with 8192.
    cbn [ExampleSparse.empty_sparse sect_per_block bitmap sector_count sparse block_sz
         bat_offset f size].
    unfold INT_MAX, MVHD_SECTOR_SIZE, MVHD_FOOTER_SIZE.
    repeat split; try lia.
    - vm_compute; congruence.
    - intros s Hs. assert (s / 4096 < 2) by (apply Z.div_lt_upper_bound; lia). lia. }
  assert (Hinv : alloc_inv ExampleSparse.empty_sparse) by (apply alloc_inv_empty_log; reflexivity).
  assert (Hmax : size (f (snd (mvhd_sparse_diff_write ExampleSparse.empty_sparse 4095 3
                                ExampleWrite.payload 0))) <= MAX_FILE)
    by (vm_compute; congruence).
  pose proof (allocator_runs_once ExampleSparse.empty_sparse 4095 3 ExampleWrite.payload 0
                Ho Hn Hoff Hnum Hcan Hinv Hmax) as H.
  cbv zeta in H. destruct H as (H1 & _ & _ & _ & H5 & _).
  split; [exact H1|]. split; [vm_compute; reflexivity | exact H5].
Defined.

(** ** A write that enters a new block drops the bitmap of the block before *)

Section LostBitmap.
Import ExampleSparse ExampleWrite ExampleRevisit.

(** C1, at the spec's scenario.  On the empty image with 512-byte sectors,
    4096-sector blocks and 8192 sectors, the write of sectors 4095..4097
    answers 0 and allocates blocks 0 and 1, at sectors 4 and 4106 of the file;
    the bytes of sector 4095 are in the file, in the last data sector of
    block 0, but the byte of the bitmap of block 0 that holds its bit is 0 in
    the file: entering the unallocated block 1 loaded block 1's bitmap over
    the cached one before it was written out.  The read of sectors 4095..4097
    answers 0 and returns the written bytes for sectors 4096 and 4097, and
    zeros, not the written bytes, for sector 4095. *)
Theorem roundtrip_lost_across_new_block :
  fst (mvhd_sparse_diff_write empty_sparse 4095 3 payload 0) = 0 /\
  created (log (f written)) = [1; 0] /\
  block_offset written 0 = 4 /\ block_offset written 1 = 4106 /\
  agree (data (f written)) ((4 + 1 + 4095) * 512) payload (offsets 0 512) = true /\
  data (f written) (4 * 512 + 511) = 0 /\
  fst (fst read_back) = 0 /\
  agree (snd read_back) 0 payload (offsets 512 1024) = true /\
  agree (snd read_back) 0 zero_bytes (offsets 0 512) = true /\
  snd read_back 0 <> payload 0.
Proof.
  do 9 (split; [vm_compute; reflexivity|]).
  vm_compute; discriminate.
Qed.

(** C2, on a sequence of writes that visits block 0, block 1 and block 0
    again: sectors 4095..4097, then sector 0.  Afterwards the bitmap of block
    1 in the file has the bits of sectors 4096 and 4097 (byte 0 is [0xC0]) and
    the bitmap of block 0 has the bit of sector 0 (byte 0 is [0x80]), but not
    the bit of sector 4095, which was written to block 0 as well: byte 511 is
    0 where the bit would make it 1. *)
Theorem revisit_loses_first_visit_bits :
  data (f revisited) (4106 * 512) = 192 /\
  data (f revisited) (4 * 512) = 128 /\
  data (f revisited) (4 * 512 + 511) = 0 /\
  VHD_TESTBIT (fun i => data (f revisited) (4 * 512 + i)) 4095 = 0 /\
  VHD_TESTBIT (fun i => data (f revisited) (4 * 512 + i)) 0 <> 0.
Proof.
  do 4 (split; [vm_compute; reflexivity|]).
  vm_compute; discriminate.
Qed.

End LostBitmap.

(** ** Resolution along a differencing chain *)

Lemma VHD_TESTBIT_byte bm1 bm2 k :
  bm1 (Z.quot k 8) = bm2 (Z.quot k 8) -> VHD_TESTBIT bm1 k = VHD_TESTBIT bm2 k.
Proof. intros H; unfold VHD_TESTBIT; rewrite H; reflexivity. Qed.

Lemma disk_bit_same v v' s : same_image v v' -> disk_bit v' s = disk_bit v s.
Proof.
  intros (Hd & _ & _ & _ & Hbo & Hp & _). unfold disk_bit. rewrite Hd, Hbo, Hp. reflexivity.
Qed.

Lemma stored_byte_same v v' s b : same_image v v' -> stored_byte v' s b = stored_byte v s b.
Proof.
  intros (Hd & _ & _ & _ & Hbo & Hp & Hc). unfold stored_byte. rewrite Hd, Hbo, Hp, Hc.
  reflexivity.
Qed.

Lemma image_byte_same v v' s b : same_image v v' -> image_byte v' s b = image_byte v s b.
Proof.
  intros H. unfold image_byte.
  rewrite (disk_bit_same _ _ s H), (stored_byte_same _ _ s b H).
  destruct H as (Hd & _ & Hf & _). rewrite Hd, Hf. reflexivity.
Qed.

Lemma chain_byte_same s b : forall chain chain',
  Forall2 same_image chain chain' -> chain_byte s b chain' = chain_byte s b chain.
Proof.
  induction 1 as [|v v' l l' Hv Hl IH]; cbn [chain_byte]; [reflexivity|].
  rewrite (image_byte_same _ _ s b Hv), (disk_bit_same _ _ s Hv), (stored_byte_same _ _ s b Hv), IH.
  destruct Hv as (_ & _ & Hf & _). rewrite Hf. reflexivity.
Qed.

Lemma readable_same v v' : same_image v v' -> readable v -> readable v'.
Proof.
  intros Hs. pose proof (bitmap_fits_same _ _ Hs) as Hfit.
  destruct Hs as (Hd & Hsz & Hf & Hsp & Hbo & Hp & Hc).
  unfold readable. rewrite (total_sectors_footer _ _ Hf), Hf, Hsz, Hbo, Hp, Hc.
  destruct (disk_type (footer v)); try exact (fun H => H);
    intros (H1 & H2); split; auto.
Qed.

Lemma same_image_sym v v' : same_image v v' -> same_image v' v.
Proof. unfold same_image. intros (a1 & a2 & a3 & a4 & a5 & a6 & a7). repeat split; congruence. Qed.


Lemma readable_sparse v :
  disk_type (footer v) <> MVHD_TYPE_FIXED -> readable v ->
  bitmap_fits v /\ sect_per_block v * MVHD_SECTOR_SIZE <= INT_MAX /\
  size (f v) <= 2 ^ 32 /\
  forall s, 0 <= s < total_sectors v ->
    block_offset v (s / sect_per_block v) <> MVHD_SPARSE_BLK ->
    0 <= block_offset v (s / sect_per_block v) /\
    (block_offset v (s / sect_per_block v) + sector_count (bitmap v) + sect_per_block v)
    * MVHD_SECTOR_SIZE <= size (f v).
Proof.
  unfold readable. destruct (disk_type (footer v)); intros Ht H; [congruence | exact H | exact H].
Qed.

Lemma read_sect_bitmap_alloc v blk :
  block_offset v blk <> MVHD_SPARSE_BLK -> 0 <= block_offset v blk ->
  0 < sector_count (bitmap v) * MVHD_SECTOR_SIZE <= INT_MAX ->
  (block_offset v blk + sector_count (bitmap v)) * MVHD_SECTOR_SIZE <= size (f v) ->
  size (f v) <= 2 ^ 32 ->
  let v' := mvhd_read_sect_bitmap v blk in
  same_image v v' /\ curr_block (bitmap v') = blk /\
  pos (f v') = (block_offset v blk + sector_count (bitmap v)) * MVHD_SECTOR_SIZE /\
  (forall i, 0 <= i < sector_count (bitmap v) * MVHD_SECTOR_SIZE ->
     curr_bitmap (bitmap v') i = data (f v) (block_offset v blk * MVHD_SECTOR_SIZE + i)).
Proof.
  intros Hne Hbo Hsc Hin Hsz v'. subst v'. unfold mvhd_read_sect_bitmap.
  apply Z.eqb_neq in Hne. rewrite Hne. cbn [negb].
  rewrite (uint32_id (block_offset v blk * MVHD_SECTOR_SIZE)) by (consts; lia).
  rewrite int32_id by (consts; lia).
  set (f1 := fseeko64 (f v) (block_offset v blk * MVHD_SECTOR_SIZE) SEEK_SET).
  assert (Hp1 : pos f1 = block_offset v blk * MVHD_SECTOR_SIZE)
    by (apply fseeko64_set; consts; lia).
  assert (Hd1 : data f1 = data (f v)) by apply fseeko64_data.
  assert (Hs1 : size f1 = size (f v)) by apply fseeko64_size.
  assert (Hn : 0 <= sector_count (bitmap v) * MVHD_SECTOR_SIZE < 2 ^ 64) by (consts; lia).
  proj.
  split; [unfold same_image; proj; cbn [fread snd data size]; repeat split; assumption|].
  split; [reflexivity|].
  split.
  { cbn [fread snd pos]. rewrite fread_count_full by (try assumption; lia). lia. }
  intros i Hi. rewrite <- (Z.add_0_l i) at 1.
  rewrite fread_in by (try assumption; lia). rewrite Hd1, Hp1. reflexivity.
Qed.

(** With the cache on the sector's block, the cached bit is the bit on disk. *)
Lemma cached_bit v s :
  bitmap_fits v -> cache_ok v -> 0 <= s ->
  curr_block (bitmap v) = s / sect_per_block v ->
  c_true (VHD_TESTBIT (curr_bitmap (bitmap v)) (Z.rem s (sect_per_block v))) = disk_bit v s.
Proof.
  intros Hfit Hc Hs Hm.
  pose proof Hfit as (Hspb & Hsc & Hcov).
  destruct (quot_rem_block s (sect_per_block v) Hs Hspb) as [Hblk Hsib].
  rewrite Z.rem_mod_nonneg in * by lia.
  assert (Hbyte : 0 <= Z.quot (s mod sect_per_block v) 8
                  < sector_count (bitmap v) * MVHD_SECTOR_SIZE).
  { rewrite Z.quot_div_nonneg by lia.
    split; [apply Z.div_pos; lia | apply Z.div_lt_upper_bound; lia]. }
  assert (Hcb : 0 <= curr_block (bitmap v))
    by (rewrite Hm; apply Z.div_pos; lia).
  specialize (Hc Hcb _ Hbyte). rewrite Hm in Hc.
  unfold disk_bit.
  destruct (Z.eqb_spec (block_offset v (s / sect_per_block v)) MVHD_SPARSE_BLK).
  - rewrite VHD_TESTBIT_zero by exact Hc. reflexivity.
  - f_equal. apply VHD_TESTBIT_byte. exact Hc.
Qed.

Lemma cache_ok_same_cache v v' :
  bitmap v' = bitmap v -> block_offset v' = block_offset v -> data (f v') = data (f v) ->
  cache_ok v -> cache_ok v'.
Proof. unfold cache_ok. intros Hb Hbo Hd H. rewrite Hb, Hbo, Hd. exact H. Qed.

Lemma disk_bit_allocated v s :
  disk_bit v s = true -> block_offset v (s / sect_per_block v) <> MVHD_SPARSE_BLK.
Proof.
  unfold disk_bit.
  destruct (Z.eqb_spec (block_offset v (s / sect_per_block v)) MVHD_SPARSE_BLK);
    [discriminate | auto].
Qed.

(** The bitmap cache after the loop of [mvhd_sparse_read] has entered the
    block of its first sector. *)
Lemma sparse_read_enter v s :
  disk_type (footer v) <> MVHD_TYPE_FIXED -> readable v -> cache_ok v ->
  0 <= s < total_sectors v ->
  let blk := Z.quot s (sect_per_block v) in
  let sib := Z.rem s (sect_per_block v) in
  let v2 :=
    if negb (curr_block (bitmap v) =? blk) then
      with_f (mvhd_read_sect_bitmap v blk)
        (fseeko64 (f (mvhd_read_sect_bitmap v blk)) (int32 (sib * MVHD_SECTOR_SIZE)) SEEK_CUR)
    else
      with_f v (fseeko64 (f v)
                  (uint32 (block_offset v blk + sector_count (bitmap v) + sib)
                   * MVHD_SECTOR_SIZE) SEEK_SET) in
  same_image v v2 /\ cache_ok v2 /\
  curr_block (bitmap v2) = s / sect_per_block v /\
  (disk_bit v s = true ->
   pos (f v2) = (block_offset v (s / sect_per_block v) + sector_count (bitmap v)
                 + s mod sect_per_block v) * MVHD_SECTOR_SIZE).
Proof.
  intros Hty Hrd Hc Hs blk sib v2.
  destruct (readable_sparse v Hty Hrd) as (Hfit & Hblock & Hsz & Hin).
  pose proof Hfit as (Hspb & Hsc & Hcov).
  destruct (quot_rem_block s (sect_per_block v) (proj1 Hs) Hspb) as [Hblk Hsib].
  assert (Eblk : blk = s / sect_per_block v) by (apply Z.quot_div_nonneg; lia).
  assert (Esib : sib = s mod sect_per_block v) by (apply Z.rem_mod_nonneg; lia).
  fold blk sib in Hblk, Hsib. rewrite <- Eblk, <- Esib.
  specialize (Hin s Hs). rewrite <- Eblk in Hin.
  assert (Hsib32 : int32 (sib * MVHD_SECTOR_SIZE) = sib * MVHD_SECTOR_SIZE)
    by (apply int32_id; consts; lia).
  subst v2.
  destruct (Z.eqb_spec (curr_block (bitmap v)) blk) as [Ecur | Ncur]; cbn [negb].
  - split; [apply same_image_seek|].
    split; [apply (cache_ok_same_cache v); [reflexivity | reflexivity | | exact Hc];
            proj; apply fseeko64_data|].
    split; [exact Ecur|].
    intros Hbit. apply disk_bit_allocated in Hbit. rewrite <- Eblk in Hbit.
    destruct (Hin Hbit) as [Hbo Hend].
    proj. rewrite uint32_id by (consts; lia).
    apply fseeko64_set. consts; lia.
  - destruct (Z.eq_dec (block_offset v blk) MVHD_SPARSE_BLK) as [Esp | Nsp].
    + destruct (read_sect_bitmap_hole v blk Esp Hfit) as (Hsame & Hf & Hz & Hm).
      set (v1 := mvhd_read_sect_bitmap v blk) in *.
      split; [eapply same_image_trans; [exact Hsame | apply same_image_seek]|].
      split.
      { unfold cache_ok; proj. intros _ i Hi.
        destruct Hsame as (_ & _ & _ & _ & Hbo & _). rewrite Hm, Hbo, Esp.
        change (MVHD_SPARSE_BLK =? MVHD_SPARSE_BLK) with true. cbv iota.
        apply Hz. exact Hi. }
      split; [exact Hm|].
      intros Hbit. apply disk_bit_allocated in Hbit. rewrite <- Eblk in Hbit. contradiction.
    + destruct (Hin Nsp) as [Hbo Hend].
      assert (Hsc' : 0 < sector_count (bitmap v) * MVHD_SECTOR_SIZE) by lia.
      destruct (read_sect_bitmap_alloc v blk Nsp Hbo ltac:(lia) ltac:(consts; lia) Hsz)
        as (Hsame & Hm & Hpos & Hbm).
      set (v1 := mvhd_read_sect_bitmap v blk) in *.
      split; [eapply same_image_trans; [exact Hsame | apply same_image_seek]|].
      split.
      { unfold cache_ok; proj. intros _ i Hi.
        pose proof Hsame as (Hd & _ & _ & _ & Hbo' & _ & Hcnt).
        rewrite fseeko64_data, Hm, Hbo', Hd.
        apply Z.eqb_neq in Nsp. rewrite Nsp.
        apply Hbm. rewrite <- Hcnt. exact Hi. }
      split; [exact Hm|].
      intros _. proj. rewrite Hsib32.
      rewrite fseeko64_cur by (rewrite Hpos; consts; lia). rewrite Hpos. lia.
Qed.

(** A read of one sector from a sparse image whose cache is sound. *)
Lemma sparse_read_one v s m buff :
  disk_type (footer v) <> MVHD_TYPE_FIXED -> readable v -> cache_ok v ->
  is_int s -> 0 <= s < total_sectors v ->
  let r := mvhd_sparse_read v s 1 m buff in
  fst (fst r) = 0 /\ same_image v (snd (fst r)) /\ cache_ok (snd (fst r)) /\
  (forall b, 0 <= b < MVHD_SECTOR_SIZE -> snd r (buff + b) = image_byte v s b) /\
  (forall j, ~ (buff <= j < buff + MVHD_SECTOR_SIZE) -> snd r j = m j).
Proof.
  intros Hty Hrd Hc Hint Hs r.
  destruct (check_sectors_fits s 1 (total_sectors v)) as [Hchk Hls];
    try assumption; try apply int32_range; try lia; [consts; lia|].
  assert (Hr : r = (0, rd_vhdm (sparse_read_body s
                         {| rd_vhdm := v; rd_prev_blk := -1; rd_buff := buff; rd_mem := m |}),
                    rd_mem (sparse_read_body s
                         {| rd_vhdm := v; rd_prev_blk := -1; rd_buff := buff; rd_mem := m |}))).
  { subst r. unfold mvhd_sparse_read. rewrite Hchk; cbn [fst snd]. rewrite Hls.
    replace (s + 1 - s) with 1 by lia. reflexivity. }
  rewrite Hr. cbn [fst snd]. clear Hr r.
  destruct (readable_sparse v Hty Hrd) as (Hfit & Hblock & Hsz & Hin).
  pose proof Hfit as (Hspb & Hsc & Hcov).
  destruct (quot_rem_block s (sect_per_block v) (proj1 Hs) Hspb) as [Hblk Hsib].
  pose proof (sparse_read_enter v s Hty Hrd Hc Hs) as H2. cbv zeta in H2.
  unfold sparse_read_body. proj.
  assert (Hprev : (Z.quot s (sect_per_block v) =? -1) = false) by (apply Z.eqb_neq; lia).
  rewrite Hprev. cbn [negb].
  match type of H2 with same_image _ ?t /\ _ => set (v2 := t) in * end.
  destruct H2 as (Hsame & Hc2 & Hm2 & Hpos).
  assert (Hbit : c_true (VHD_TESTBIT (curr_bitmap (bitmap v2)) (Z.rem s (sect_per_block v)))
                 = disk_bit v s).
  { pose proof Hsame as (_ & _ & _ & _ & _ & Hp & _).
    rewrite <- (disk_bit_same v v2 s Hsame). rewrite <- Hp.
    apply cached_bit; [apply (bitmap_fits_same v); assumption | exact Hc2 | lia |].
    rewrite Hp. exact Hm2. }
  rewrite Hbit.
  assert (Himg : forall b, image_byte v s b = if disk_bit v s then stored_byte v s b else 0).
  { intros b. unfold image_byte. destruct (disk_type (footer v)); [congruence | |]; reflexivity. }
  destruct (disk_bit v s) eqn:Ebit; proj.
  - specialize (Hpos eq_refl).
    pose proof (disk_bit_allocated v s Ebit) as Hal.
    destruct (Hin s Hs Hal) as [Hbo Hend].
    rewrite Z.rem_mod_nonneg in Hsib by lia.
    assert (Hfull : pos (f v2) + MVHD_SECTOR_SIZE <= size (f v2)).
    { destruct Hsame as (_ & Hsz2 & _). rewrite Hsz2, Hpos. consts; lia. }
    split; [reflexivity|].
    split.
    { eapply same_image_trans; [exact Hsame|].
      unfold same_image; cbn [fread]; proj. repeat split. }
    split; [apply (cache_ok_same_cache v2); [reflexivity | reflexivity | reflexivity | exact Hc2]|].
    split.
    + intros b Hb. rewrite fread_in by (try assumption; consts; lia).
      rewrite Himg, Hpos. destruct Hsame as (Hd & _). rewrite Hd. reflexivity.
    + intros j Hj. apply fread_out; [consts; lia | exact Hj].
  - split; [reflexivity|]. split; [exact Hsame|]. split; [exact Hc2|].
    unfold memset. rewrite uint64_id by (consts; lia).
    split.
    + intros b Hb. rewrite in_range_true by lia. rewrite Himg. reflexivity.
    + intros j Hj. rewrite in_range_false by lia. reflexivity.
Qed.

(** A read of one sector from a fixed image that holds its disk. *)
Lemma fixed_read_one v s m buff :
  disk_type (footer v) = MVHD_TYPE_FIXED -> readable v ->
  is_int s -> 0 <= s < total_sectors v ->
  let r := mvhd_fixed_read v s 1 m buff in
  fst (fst r) = 0 /\ same_image v (snd (fst r)) /\
  bitmap (snd (fst r)) = bitmap v /\
  (forall b, 0 <= b < MVHD_SECTOR_SIZE -> snd r (buff + b) = image_byte v s b) /\
  (forall j, ~ (buff <= j < buff + MVHD_SECTOR_SIZE) -> snd r j = m j).
Proof.
  intros Hty Hrd Hint Hs r.
  unfold readable in Hrd. rewrite Hty in Hrd.
  destruct (check_sectors_fits s 1 (total_sectors v)) as [Hchk Hls];
    try assumption; try apply int32_range; try lia; [consts; lia|].
  subst r. unfold mvhd_fixed_read. rewrite Hchk. cbn [fst snd].
  rewrite int32_id by (consts; lia). rewrite Z.mul_1_l.
  set (f1 := fseeko64 (f v) (s * MVHD_SECTOR_SIZE) SEEK_SET).
  assert (Hp1 : pos f1 = s * MVHD_SECTOR_SIZE) by (apply fseeko64_set; consts; lia).
  assert (Hd1 : data f1 = data (f v)) by apply fseeko64_data.
  assert (Hs1 : size f1 = size (f v)) by apply fseeko64_size.
  split; [reflexivity|].
  split; [unfold same_image; cbn [fread]; proj; repeat split; assumption|].
  split; [reflexivity|].
  split.
  - intros b Hb. rewrite fread_in by (consts; lia).
    unfold image_byte. rewrite Hty, Hd1, Hp1. reflexivity.
  - intros j Hj. apply fread_out; [consts; lia | exact Hj].
Qed.

(** The bitmap load of the walk: the cache is put on the sector's block. *)
Lemma diff_walk_load v s :
  disk_type (footer v) <> MVHD_TYPE_FIXED -> readable v -> cache_ok v ->
  0 <= s < total_sectors v ->
  let blk := Z.quot s (sect_per_block v) in
  let v1 := if negb (curr_block (bitmap v) =? blk)
            then mvhd_read_sect_bitmap v blk else v in
  same_image v v1 /\ cache_ok v1 /\
  c_true (VHD_TESTBIT (curr_bitmap (bitmap v1)) (Z.rem s (sect_per_block v))) = disk_bit v s.
Proof.
  intros Hty Hrd Hc Hs blk v1.
  pose proof (sparse_read_enter v s Hty Hrd Hc Hs) as H. cbv zeta in H. fold blk in H.
  destruct (readable_sparse v Hty Hrd) as (Hfit & _).
  assert (H1 : same_image v v1 /\ cache_ok v1 /\ curr_block (bitmap v1) = s / sect_per_block v).
  { subst v1. destruct (negb (curr_block (bitmap v) =? blk)).
    - destruct H as (Hsame & Hc2 & Hm & _).
      set (w := mvhd_read_sect_bitmap v blk) in *.
      assert (Hsw : same_image v w).
      { eapply same_image_trans; [exact Hsame|]. apply same_image_sym, same_image_seek. }
      split; [exact Hsw|]. split; [|exact Hm].
      apply (cache_ok_same_cache (with_f w (fseeko64 (f w)
               (int32 (Z.rem s (sect_per_block v) * MVHD_SECTOR_SIZE)) SEEK_CUR)));
        [reflexivity | reflexivity | | exact Hc2].
      proj. symmetry. apply fseeko64_data.
    - destruct H as (_ & _ & Hm & _). proj.
      split; [apply same_image_refl|]. split; [exact Hc | exact Hm]. }
  destruct H1 as (Hsame & Hc1 & Hm1).
  split; [exact Hsame|]. split; [exact Hc1|].
  pose proof Hsame as (_ & _ & _ & _ & _ & Hp & _).
  rewrite <- (disk_bit_same v v1 s Hsame). rewrite <- Hp.
  apply cached_bit; [apply (bitmap_fits_same v); assumption | exact Hc1 | lia |].
  rewrite Hp. exact Hm1.
Qed.

Lemma MVHDType_eqb_eq a b : MVHDType_eqb a b = true <-> a = b.
Proof. destruct a, b; cbn; split; intros H; try reflexivity; discriminate. Qed.

Lemma Forall2_same_image_refl l : Forall2 same_image l l.
Proof. induction l; constructor; [apply same_image_refl | assumption]. Qed.

Lemma Forall2_same_image_trans l1 : forall l2 l3,
  Forall2 same_image l1 l2 -> Forall2 same_image l2 l3 -> Forall2 same_image l1 l3.
Proof.
  induction l1 as [|a l1 IH]; intros l2 l3 H12 H23.
  - inversion H12; subst. inversion H23; subst. constructor.
  - inversion H12; subst. inversion H23; subst. constructor.
    + eapply same_image_trans; eassumption.
    + eapply IH; eassumption.
Qed.

Lemma set_nth_same_image : forall (k : nat) l x y,
  nth_error l k = Some x -> same_image x y -> Forall2 same_image l (set_nth k l y).
Proof.
  induction k as [|k IH]; intros [|a l] x y Hn Hxy; cbn in Hn; try discriminate.
  - inversion Hn; subst. cbn [set_nth]. constructor; [exact Hxy | apply Forall2_same_image_refl].
  - cbn [set_nth]. constructor; [apply same_image_refl | eapply IH; eassumption].
Qed.

Lemma set_nth_Forall {A : Type} (P : A -> Prop) : forall (k : nat) l y,
  Forall P l -> P y -> Forall P (set_nth k l y).
Proof.
  induction k as [|k IH]; intros [|a l] y Hl Hy; cbn [set_nth]; try constructor;
    inversion Hl; subst; auto.
Qed.

Lemma Forall_at {A : Type} (P : A -> Prop) l k x :
  Forall P l -> nth_error l k = Some x -> P x.
Proof.
  intros Hl Hn. rewrite Forall_forall in Hl. apply Hl. eapply nth_error_In. exact Hn.
Qed.

Lemma Forall2_same_Forall (P : MVHDMeta -> Prop) :
  (forall v v', same_image v v' -> P v -> P v') ->
  forall l l', Forall2 same_image l l' -> Forall P l -> Forall P l'.
Proof.
  intros HP. induction 1 as [|v v' l l' Hv Hl IH]; intros H; [constructor|].
  inversion H; subst. constructor; [eapply HP; eassumption | auto].
Qed.

(** The walk stops at the image that answers for the sector. *)
Lemma diff_walk_spec s : forall chain,
  0 <= s -> chain_closed chain ->
  Forall readable chain -> Forall cache_ok chain ->
  Forall (fun v => s < total_sectors v) chain ->
  exists k chain' curr,
    diff_walk s chain = Some (k, chain') /\ nth_error chain' k = Some curr /\
    Forall2 same_image chain chain' /\ Forall cache_ok chain' /\
    (forall b, chain_byte s b chain = image_byte curr s b).
Proof.
  induction chain as [|v ps IH]; intros Hs Hcl Hrd Hc Ht.
  - inversion Hcl.
  - inversion Hrd as [|? ? Hrv Hrps]; subst.
    inversion Hc as [|? ? Hcv Hcps]; subst.
    inversion Ht as [|? ? Htv Htps]; subst.
    cbn [diff_walk chain_byte].
    destruct (MVHDType_eqb (disk_type (footer v)) MVHD_TYPE_DIFF) eqn:Ety.
    + apply MVHDType_eqb_eq in Ety.
      assert (Hnf : disk_type (footer v) <> MVHD_TYPE_FIXED) by congruence.
      pose proof (diff_walk_load v s Hnf Hrv Hcv ltac:(lia)) as HL. cbv zeta in HL.
      match type of HL with same_image _ ?t /\ _ => set (v1 := t) in * end.
      destruct HL as (Hsame & Hc1 & Hbit).
      rewrite Hbit, Ety.
      destruct (disk_bit v s) eqn:Ebit; cbn [negb].
      * exists O, (v1 :: ps), v1. split; [reflexivity|]. split; [reflexivity|].
        split; [constructor; [exact Hsame | apply Forall2_same_image_refl]|].
        split; [constructor; assumption|].
        intros b. rewrite (image_byte_same v v1 s b Hsame).
        unfold image_byte. rewrite Ety, Ebit. reflexivity.
      * assert (Hcl' : chain_closed ps).
        { unfold chain_closed in *. inversion Hcl; subst; [congruence | assumption]. }
        destruct (IH Hs Hcl' Hrps Hcps Htps) as (k & ps' & curr & Hw & Hn & Hf2 & Hfc & Hb).
        rewrite Hw. exists (S k), (v1 :: ps'), curr.
        split; [reflexivity|]. split; [exact Hn|].
        split; [constructor; assumption|]. split; [constructor; assumption | exact Hb].
    + exists O, (v :: ps), v. split; [reflexivity|]. split; [reflexivity|].
      split; [apply Forall2_same_image_refl|]. split; [exact Hc|].
      intros b. destruct (disk_type (footer v)); [reflexivity | reflexivity | discriminate].
Qed.

Lemma chain_closed_same l l' : Forall2 same_image l l' -> chain_closed l -> chain_closed l'.
Proof.
  unfold chain_closed. induction 1 as [|v v' l l' Hv Hl IH]; intros H; inversion H; subst.
  - apply Exists_cons_hd. destruct Hv as (_ & _ & Hf & _). rewrite Hf. assumption.
  - apply Exists_cons_tl. auto.
Qed.

Lemma total_bound_same (hi : Z) v v' :
  same_image v v' -> hi <= total_sectors v -> hi <= total_sectors v'.
Proof.
  intros (_ & _ & Hf & _) H. rewrite (total_sectors_footer _ _ Hf). exact H.
Qed.

(** One turn of the loop of [mvhd_diff_read]. *)
Lemma diff_read_body_spec chain0 s st :
  is_int s -> 0 <= s -> chain_closed chain0 -> Forall readable chain0 ->
  Forall (fun v => s + 1 <= total_sectors v) chain0 ->
  Forall2 same_image chain0 (df_chain st) -> Forall cache_ok (df_chain st) ->
  exists st',
    diff_read_body s (Some st) = Some st' /\
    Forall2 same_image chain0 (df_chain st') /\ Forall cache_ok (df_chain st') /\
    df_buff st' = df_buff st + MVHD_SECTOR_SIZE /\
    (forall b, 0 <= b < MVHD_SECTOR_SIZE ->
       df_mem st' (df_buff st + b) = chain_byte s b chain0) /\
    (forall j, ~ (df_buff st <= j < df_buff st + MVHD_SECTOR_SIZE) ->
       df_mem st' j = df_mem st j).
Proof.
  intros Hint Hs Hcl Hrd Htot Hsame Hc.
  pose proof (chain_closed_same _ _ Hsame Hcl) as Hcl1.
  pose proof (Forall2_same_Forall readable readable_same _ _ Hsame Hrd) as Hrd1.
  pose proof (Forall2_same_Forall (fun v => s + 1 <= total_sectors v)
                (total_bound_same (s + 1)) _ _ Hsame Htot) as Htot1.
  assert (Htot1' : Forall (fun v => s < total_sectors v) (df_chain st)).
  { eapply Forall_impl; [|exact Htot1]. cbv beta. intros; lia. }
  destruct (diff_walk_spec s (df_chain st) Hs Hcl1 Hrd1 Hc Htot1')
    as (k & chain1 & curr & Hw & Hn & Hf2 & Hfc & Hb).
  pose proof (Forall2_same_Forall readable readable_same _ _ Hf2 Hrd1) as Hrd2.
  pose proof (Forall2_same_Forall (fun v => s + 1 <= total_sectors v)
                (total_bound_same (s + 1)) _ _ Hf2 Htot1) as Htot2.
  pose proof (Forall_at _ _ _ _ Hrd2 Hn) as Hrc.
  pose proof (Forall_at _ _ _ _ Hfc Hn) as Hcc.
  pose proof (Forall_at _ _ _ _ Htot2 Hn) as Htc. cbv beta in Htc.
  unfold diff_read_body. rewrite Hw, Hn.
  assert (Hbytes : forall b, chain_byte s b chain0 = image_byte curr s b).
  { intros b. rewrite <- Hb. symmetry. apply chain_byte_same. exact Hsame. }
  destruct (disk_type (footer curr)) eqn:Ety; cbn [MVHDType_eqb orb].
  - destruct (fixed_read_one curr s (df_mem st) (df_buff st) Ety Hrc Hint ltac:(lia))
      as (_ & Hs' & Hbm & Hin & Hout).
    eexists. split; [reflexivity|]. proj. cbn [df_chain df_buff df_mem].
    split.
    { eapply Forall2_same_image_trans; [exact Hsame|].
      eapply Forall2_same_image_trans; [exact Hf2|].
      eapply set_nth_same_image; eassumption. }
    split.
    { apply set_nth_Forall; [exact Hfc|].
      apply (cache_ok_same_cache curr); [exact Hbm | apply Hs' | apply Hs' | exact Hcc]. }
    split; [reflexivity|].
    split; [intros b Hb'; rewrite Hbytes; apply Hin; exact Hb' | exact Hout].
  - assert (Hnf : disk_type (footer curr) <> MVHD_TYPE_FIXED) by congruence.
    destruct (sparse_read_one curr s (df_mem st) (df_buff st) Hnf Hrc Hcc Hint ltac:(lia))
      as (_ & Hs' & Hc' & Hin & Hout).
    eexists. split; [reflexivity|]. proj. cbn [df_chain df_buff df_mem].
    split.
    { eapply Forall2_same_image_trans; [exact Hsame|].
      eapply Forall2_same_image_trans; [exact Hf2|].
      eapply set_nth_same_image; eassumption. }
    split; [apply set_nth_Forall; assumption|].
    split; [reflexivity|].
    split; [intros b Hb'; rewrite Hbytes; apply Hin; exact Hb' | exact Hout].
  - assert (Hnf : disk_type (footer curr) <> MVHD_TYPE_FIXED) by congruence.
    destruct (sparse_read_one curr s (df_mem st) (df_buff st) Hnf Hrc Hcc Hint ltac:(lia))
      as (_ & Hs' & Hc' & Hin & Hout).
    eexists. split; [reflexivity|]. proj. cbn [df_chain df_buff df_mem].
    split.
    { eapply Forall2_same_image_trans; [exact Hsame|].
      eapply Forall2_same_image_trans; [exact Hf2|].
      eapply set_nth_same_image; eassumption. }
    split; [apply set_nth_Forall; assumption|].
    split; [reflexivity|].
    split; [intros b Hb'; rewrite Hbytes; apply Hin; exact Hb' | exact Hout].
Qed.

(** What [chain_byte] is at the first image of the chain that answers. *)
Lemma chain_byte_ancestor s b : forall (j : nat) chain A,
  nth_error chain j = Some A ->
  (forall i a, (i < j)%nat -> nth_error chain i = Some a ->
     disk_type (footer a) = MVHD_TYPE_DIFF /\ disk_bit a s = false) ->
  (disk_type (footer A) <> MVHD_TYPE_FIXED -> disk_bit A s = true ->
     chain_byte s b chain = stored_byte A s b) /\
  (disk_type (footer A) = MVHD_TYPE_DYNAMIC -> disk_bit A s = false ->
     chain_byte s b chain = 0) /\
  (disk_type (footer A) = MVHD_TYPE_FIXED ->
     chain_byte s b chain = data (f A) (s * MVHD_SECTOR_SIZE + b)).
Proof.
  induction j as [|j IH]; intros [|a ps] A Hn Hbelow; cbn in Hn; try discriminate.
  - inversion Hn; subst. cbn [chain_byte]. unfold image_byte.
    destruct (disk_type (footer A)); repeat split; intros; try congruence;
      match goal with H : disk_bit A s = _ |- _ => rewrite H; reflexivity end.
  - destruct (Hbelow O a ltac:(lia) eq_refl) as [Hty Hbit].
    cbn [chain_byte]. rewrite Hty, Hbit.
    apply IH; [exact Hn|].
    intros i a' Hi Hn'. apply (Hbelow (S i) a'); [lia | exact Hn'].
Qed.

(** X15.  Take a chain of images, child first, that ends in an image that is
    not a differencing image, each image able to serve its disk (a sparse
    image has a file of at most 4 GiB that holds every allocated block, a
    bitmap that fits and blocks below 2 GiB; a fixed image has a file that
    holds the disk) and with a sound bitmap cache, and a range of sectors
    inside every image's disk.
    [mvhd_diff_read] returns 0 and fills sector slot after sector slot with
    the chain's bytes of that sector, each sector resolved from the head of
    the chain on its own: if the sector's bit is unset in every image before
    some image [A] of the chain, all of them differencing images, and set in
    [A], the slot holds the bytes [A] stores for the sector; if it is unset
    in [A] as well and [A] is the dynamic root, the slot is all zero (a fixed
    root answers with its flat sector).  The files and the BATs of the chain
    are as before. *)
Theorem mvhd_diff_read_resolves chain offset num m buff :
  is_int offset -> is_int num -> 0 <= offset -> 0 <= num ->
  chain_closed chain -> Forall readable chain -> Forall cache_ok chain ->
  Forall (fun v => offset + num <= total_sectors v) chain ->
  exists chain' out,
    mvhd_diff_read chain offset num m buff = Some (0, chain', out) /\
    Forall2 same_image chain chain' /\ Forall cache_ok chain' /\
    (forall j, ~ (buff <= j < buff + num * MVHD_SECTOR_SIZE) -> out j = m j) /\
    (forall s b, offset <= s < offset + num -> 0 <= b < MVHD_SECTOR_SIZE ->
       out (buff + (s - offset) * MVHD_SECTOR_SIZE + b) = chain_byte s b chain) /\
    (forall s b (j : nat) A,
       offset <= s < offset + num -> 0 <= b < MVHD_SECTOR_SIZE ->
       nth_error chain j = Some A ->
       (forall i a, (i < j)%nat -> nth_error chain i = Some a ->
          disk_type (footer a) = MVHD_TYPE_DIFF /\ disk_bit a s = false) ->
       (disk_type (footer A) <> MVHD_TYPE_FIXED -> disk_bit A s = true ->
          out (buff + (s - offset) * MVHD_SECTOR_SIZE + b) = stored_byte A s b) /\
       (disk_type (footer A) = MVHD_TYPE_DYNAMIC -> disk_bit A s = false ->
          out (buff + (s - offset) * MVHD_SECTOR_SIZE + b) = 0) /\
       (disk_type (footer A) = MVHD_TYPE_FIXED ->
          out (buff + (s - offset) * MVHD_SECTOR_SIZE + b)
          = data (f A) (s * MVHD_SECTOR_SIZE + b))).
Proof.
  intros Ho Hn H0 Hnum Hcl Hrd Hc Htot.
  destruct chain as [|vhdm parents]; [inversion Hcl|].
  set (chain := vhdm :: parents) in *.
  assert (Hhead : offset + num <= total_sectors vhdm) by (inversion Htot; assumption).
  assert (Htint : is_int (total_sectors vhdm)) by apply int32_range.
  destruct (check_sectors_fits offset num (total_sectors vhdm)) as [Hchk Hls];
    try assumption; try apply int32_range.
  set (P := fun (s : Z) (ost : option diff_state) =>
    exists st, ost = Some st /\
      Forall2 same_image chain (df_chain st) /\ Forall cache_ok (df_chain st) /\
      df_buff st = buff + (s - offset) * MVHD_SECTOR_SIZE /\
      (forall s' b, offset <= s' < s -> 0 <= b < MVHD_SECTOR_SIZE ->
         df_mem st (buff + (s' - offset) * MVHD_SECTOR_SIZE + b) = chain_byte s' b chain) /\
      (forall j, ~ (buff <= j < df_buff st) -> df_mem st j = m j)).
  assert (HP : P (offset + Z.of_nat (Z.to_nat num))
                 (for_range (Z.to_nat num) offset diff_read_body
                    (Some {| df_chain := chain; df_buff := buff; df_mem := m |}))).
  { apply for_range_inv.
    - unfold P. eexists. split; [reflexivity|]. cbn [df_chain df_buff df_mem].
      split; [apply Forall2_same_image_refl|]. split; [exact Hc|].
      split; [lia|]. split; [intros; lia | reflexivity].
    - intros s ost Hs (st & -> & Hsame & Hcs & Hb & Hdone & Hrest).
      rewrite Z2Nat.id in Hs by lia.
      assert (Htot' : Forall (fun v => s + 1 <= total_sectors v) chain).
      { eapply Forall_impl; [|exact Htot]. cbv beta. intros; lia. }
      destruct (diff_read_body_spec chain s st ltac:(consts; lia) ltac:(lia)
                  Hcl Hrd Htot' Hsame Hcs)
        as (st' & Hbody & Hsame' & Hcs' & Hb' & Hin & Hout).
      unfold P. exists st'. split; [exact Hbody|].
      split; [exact Hsame'|]. split; [exact Hcs'|].
      rewrite Hb', Hb. unfold MVHD_SECTOR_SIZE in *.
      split; [lia|]. split.
      + intros s' b Hs' Hb0.
        destruct (Z.eq_dec s' s) as [-> | Hd].
        * rewrite <- Hb. apply Hin. exact Hb0.
        * rewrite Hout by lia. apply Hdone; lia.
      + intros j Hj. rewrite Hout by lia. apply Hrest. lia. }
  destruct HP as (st & Hfor & Hsame & Hcs & Hb & Hdone & Hrest).
  rewrite Z2Nat.id in Hdone, Hb by lia.
  exists (df_chain st), (df_mem st).
  assert (Hres : mvhd_diff_read chain offset num m buff = Some (0, df_chain st, df_mem st)).
  { unfold mvhd_diff_read, chain. rewrite Hchk. cbn [fst snd]. rewrite Hls.
    replace (offset + num - offset) with num by lia.
    fold chain. rewrite Hfor. reflexivity. }
  split; [exact Hres|]. split; [exact Hsame|]. split; [exact Hcs|].
  split; [intros j Hj; apply Hrest; rewrite Hb; lia|].
  split; [exact Hdone|].
  intros s b j A Hs Hb0 HA Hbelow.
  rewrite (Hdone s b Hs Hb0).
  apply (chain_byte_ancestor s b j chain A HA Hbelow).
Qed.

Lemma example_image_readable ty b0 sec fill :
  ty <> MVHD_TYPE_FIXED -> readable (ExampleChain.image ty b0 sec fill).
Proof.
  intros Hty. unfold readable.
  assert (H : let v := ExampleChain.image ty b0 sec fill in
    bitmap_fits v /\ sect_per_block v * MVHD_SECTOR_SIZE <= INT_MAX /\
    size (f v) <= 2 ^ 32 /\
    forall s, 0 <= s < total_sectors v ->
      block_offset v (s / sect_per_block v) <> MVHD_SPARSE_BLK ->
      0 <= block_offset v (s / sect_per_block v) /\
      (block_offset v (s / sect_per_block v) + sector_count (bitmap v) + sect_per_block v)
      * MVHD_SECTOR_SIZE <= size (f v)).
  { cbv zeta. unfold bitmap_fits.
    change (total_sectors (ExampleChain.image ty b0 sec fill)) with 16.
    cbn [ExampleChain.image sect_per_block bitmap sector_count f size block_offset].
    unfold INT_MAX, MVHD_SECTOR_SIZE.
    repeat split; try lia.
    - destruct (Z.eqb_spec (s / 8) 0); [lia | congruence].
    - destruct (Z.eqb_spec (s / 8) 0); [lia | congruence]. }
  cbn [ExampleChain.image footer disk_type] in *.
  destruct ty; [congruence | exact H | exact H].
Qed.

(** A read of sectors 0..2 through the chain of the child and its parent:
    sector 0 comes from the child, sector 1 from the parent, sector 2, which
    nobody holds, is zero, and the buffer past the third slot is untouched. *)
Lemma mvhd_diff_read_resolves_witness :
  exists chain' out,
    mvhd_diff_read ExampleChain.chain 0 3 Examples.fresh_buffer 0 = Some (0, chain', out) /\
    out 0 = 193 /\ out 511 = 193 /\ out 512 = 178 /\ out 1024 = 0 /\ out 1536 = 170.
Proof.
  assert (Ho : is_int 0) by (unfold is_int, INT_MIN, INT_MAX; lia).
  assert (Hn : is_int 3) by (unfold is_int, INT_MIN, INT_MAX; lia).
  assert (Hcl : chain_closed ExampleChain.chain).
  { unfold chain_closed, ExampleChain.chain. apply Exists_cons_tl, Exists_cons_hd.
    simpl. congruence. }
  assert (Hrd : Forall readable ExampleChain.chain).
  { unfold ExampleChain.chain, ExampleChain.child, ExampleChain.parent.
    apply Forall_cons; [apply example_image_readable; congruence|].
    apply Forall_cons; [apply example_image_readable; congruence | apply Forall_nil]. }
  assert (Hc : Forall cache_ok ExampleChain.chain).
  { unfold ExampleChain.chain.
    apply Forall_cons; [unfold cache_ok; simpl; intros; lia|].
    apply Forall_cons; [unfold cache_ok; simpl; intros; lia | apply Forall_nil]. }
  assert (Ht : Forall (fun v => 0 + 3 <= total_sectors v) ExampleChain.chain).
  { unfold ExampleChain.chain.
    apply Forall_cons; [vm_compute; congruence|].
    apply Forall_cons; [vm_compute; congruence | apply Forall_nil]. }
  destruct (mvhd_diff_read_resolves ExampleChain.chain 0 3 Examples.fresh_buffer 0
              Ho Hn ltac:(lia) ltac:(lia) Hcl Hrd Hc Ht)
    as (chain' & out & Hres & _ & _ & Hout & Hb & _).
  exists chain', out. split; [exact Hres|].
  split; [exact (Hb 0 0 ltac:(lia) ltac:(unfold MVHD_SECTOR_SIZE; lia))|].
  split; [exact (Hb 0 511 ltac:(lia) ltac:(unfold MVHD_SECTOR_SIZE; lia))|].
  split; [exact (Hb 1 0 ltac:(lia) ltac:(unfold MVHD_SECTOR_SIZE; lia))|].
  split; [exact (Hb 2 0 ltac:(lia) ltac:(unfold MVHD_SECTOR_SIZE; lia))|].
  apply (Hout 1536). unfold MVHD_SECTOR_SIZE. lia.
Defined.

(** C4, on a chain whose child lies in a file of more than 4 GiB.  The child
    of [ExampleLarge.chain] is a differencing image whose block 0 lies inside
    its file, past byte 2^32; the bit of sector 0 is set in the block's
    bitmap and the sector stores [0xC1] bytes, so that the chain's bytes of
    sector 0 are the child's.  [mvhd_diff_read] of sector 0 answers 0 but
    returns the parent's [0xB2] bytes: [mvhd_read_sect_bitmap] forms the
    byte offset of the bitmap as a 32-bit product and reads it at byte 2048
    instead of byte 2^32 + 2048, finds the bit unset there and goes on to
    the parent. *)
Theorem diff_read_misses_bit_past_4gib :
  disk_type (footer ExampleLarge.child) = MVHD_TYPE_DIFF /\
  (block_offset ExampleLarge.child 0 + sector_count (bitmap ExampleLarge.child)
   + sect_per_block ExampleLarge.child) * MVHD_SECTOR_SIZE
  <= size (f ExampleLarge.child) - MVHD_FOOTER_SIZE /\
  0 + 1 <= total_sectors ExampleLarge.child /\
  disk_bit ExampleLarge.child 0 = true /\
  ExampleRevisit.agree (stored_byte ExampleLarge.child 0) 0 (fun _ => 193)
    (ExampleRevisit.offsets 0 512) = true /\
  chain_byte 0 0 ExampleLarge.chain = 193 /\
  match ExampleLarge.read_first with
  | Some (truncated, child' :: _, out) =>
    truncated = 0 /\
    ExampleRevisit.agree out 0 (fun _ => 178) (ExampleRevisit.offsets 0 512) = true /\
    out 0 <> stored_byte ExampleLarge.child 0 0 /\
    log (f child') = [EvRead 2048 512]
  | _ => False
  end.
Proof.
  split; [reflexivity|].
  split; [vm_compute; congruence|].
  split; [vm_compute; congruence|].
  do 3 (split; [vm_compute; reflexivity|]).
  vm_compute.
  split; [reflexivity|]. split; [reflexivity|]. split; [discriminate | reflexivity].
Qed.


(** * Part III: further properties of the code *)

(** ** The bit array macros *)

Lemma bit_mask_pow2 r : 0 <= r < 8 -> Z.shiftr 128 r = 2 ^ (7 - r).
Proof.
  intros H.
  assert (Hc : r = 0 \/ r = 1 \/ r = 2 \/ r = 3 \/ r = 4 \/ r = 5 \/ r = 6 \/ r = 7) by lia.
  destruct Hc as [-> | [-> | [-> | [-> | [-> | [-> | [-> | ->]]]]]]]; reflexivity.
Qed.

Lemma land_pow2 x j : 0 <= j -> Z.land x (2 ^ j) = if Z.testbit x j then 2 ^ j else 0.
Proof.
  intros Hj. apply Z.bits_inj'. intros n Hn.
  rewrite Z.land_spec, Z.pow2_bits_eqb by lia.
  destruct (Z.eqb_spec j n) as [-> | Hne].
  - rewrite andb_true_r. destruct (Z.testbit x n) eqn:E.
    + rewrite Z.pow2_bits_true by lia. reflexivity.
    + rewrite Z.bits_0. reflexivity.
  - rewrite andb_false_r. destruct (Z.testbit x j).
    + rewrite Z.pow2_bits_false by lia. reflexivity.
    + rewrite Z.bits_0. reflexivity.
Qed.

Lemma rem8_range k : 0 <= k -> 0 <= Z.rem k 8 < 8.
Proof. intros H. rewrite Z.rem_mod_nonneg by lia. apply Z.mod_pos_bound. lia. Qed.

(** The bit order of the bitmap: sector bit [k] is bit [7 - k mod 8], counted
    from the least significant, of byte [k / 8]. *)
Lemma VHD_TESTBIT_spec A k :
  0 <= k -> c_true (VHD_TESTBIT A k) = Z.testbit (A (k / 8)) (7 - k mod 8).
Proof.
  intros Hk. pose proof (rem8_range k Hk) as Hr.
  unfold VHD_TESTBIT. rewrite bit_mask_pow2 by exact Hr.
  rewrite land_pow2 by lia.
  rewrite Z.quot_div_nonneg, Z.rem_mod_nonneg in * by lia.
  unfold c_true. destruct (Z.testbit (A (k / 8)) (7 - k mod 8)); [|reflexivity].
  destruct (Z.eqb_spec (2 ^ (7 - k mod 8)) 0) as [E | N]; [|reflexivity].
  pose proof (Z.pow_pos_nonneg 2 (7 - k mod 8) ltac:(lia) ltac:(lia)). lia.
Qed.

Lemma uint8_testbit x n : 0 <= n < 8 -> Z.testbit (uint8 x) n = Z.testbit x n.
Proof. intros H. unfold uint8. apply Z.mod_pow2_bits_low. lia. Qed.

Lemma same_bit_iff j k :
  0 <= j -> 0 <= k -> (j / 8 = k / 8 /\ j mod 8 = k mod 8) <-> j = k.
Proof.
  intros Hj Hk. split; [|intros ->; split; reflexivity].
  intros [Hq Hm].
  rewrite (Z.div_mod j 8), (Z.div_mod k 8) by lia. rewrite Hq, Hm. reflexivity.
Qed.

Lemma VHD_SETBIT_testbit A k j :
  0 <= k -> 0 <= j ->
  c_true (VHD_TESTBIT (VHD_SETBIT A k) j) = (j =? k) || c_true (VHD_TESTBIT A j).
Proof.
  intros Hk Hj. pose proof (rem8_range k Hk) as Hr.
  pose proof (Z.mod_pos_bound j 8 ltac:(lia)) as Hjm.
  rewrite !VHD_TESTBIT_spec by exact Hj.
  unfold VHD_SETBIT. rewrite bit_mask_pow2 by exact Hr.
  rewrite Z.quot_div_nonneg, Z.rem_mod_nonneg in * by lia.
  destruct (Z.eqb_spec (j / 8) (k / 8)) as [Eq | Nq].
  - rewrite uint8_testbit by lia. rewrite Z.lor_spec, Z.pow2_bits_eqb by lia.
    rewrite Eq. rewrite orb_comm. f_equal.
    destruct (Z.eqb_spec (7 - k mod 8) (7 - j mod 8)) as [Em | Nm];
      destruct (Z.eqb_spec j k) as [Ejk | Njk]; try reflexivity.
    + exfalso. apply Njk. apply same_bit_iff; try assumption. split; lia.
    + exfalso. subst j. lia.
  - destruct (Z.eqb_spec j k) as [-> | _]; [contradiction | reflexivity].
Qed.

Lemma VHD_CLEARBIT_testbit A k j :
  0 <= k -> 0 <= j ->
  c_true (VHD_TESTBIT (VHD_CLEARBIT A k) j) = negb (j =? k) && c_true (VHD_TESTBIT A j).
Proof.
  intros Hk Hj. pose proof (rem8_range k Hk) as Hr.
  pose proof (Z.mod_pos_bound j 8 ltac:(lia)) as Hjm.
  rewrite !VHD_TESTBIT_spec by exact Hj.
  unfold VHD_CLEARBIT. rewrite bit_mask_pow2 by exact Hr.
  rewrite Z.quot_div_nonneg, Z.rem_mod_nonneg in * by lia.
  destruct (Z.eqb_spec (j / 8) (k / 8)) as [Eq | Nq].
  - rewrite uint8_testbit by lia.
    rewrite Z.land_spec, Z.lnot_spec, Z.pow2_bits_eqb by lia.
    rewrite Eq. rewrite andb_comm. f_equal.
    destruct (Z.eqb_spec (7 - k mod 8) (7 - j mod 8)) as [Em | Nm];
      destruct (Z.eqb_spec j k) as [Ejk | Njk]; try reflexivity.
    + exfalso. apply Njk. apply same_bit_iff; try assumption. split; lia.
    + exfalso. subst j. lia.
  - destruct (Z.eqb_spec j k) as [-> | _]; [contradiction | reflexivity].
Qed.

(** X1.  The three bit array macros treat a buffer as an array of bits,
    numbered from 0, bit [k] being bit [7 - k mod 8] of byte [k / 8] (most
    significant bit first): after [VHD_SETBIT] of bit [k] the test of [k] is
    true, after [VHD_CLEARBIT] it is false, and either leaves the test of
    every other bit as it was. *)
Theorem bit_macros_law A k j :
  0 <= k -> 0 <= j ->
  c_true (VHD_TESTBIT A k) = Z.testbit (A (k / 8)) (7 - k mod 8) /\
  c_true (VHD_TESTBIT (VHD_SETBIT A k) k) = true /\
  c_true (VHD_TESTBIT (VHD_CLEARBIT A k) k) = false /\
  (j <> k ->
   c_true (VHD_TESTBIT (VHD_SETBIT A k) j) = c_true (VHD_TESTBIT A j) /\
   c_true (VHD_TESTBIT (VHD_CLEARBIT A k) j) = c_true (VHD_TESTBIT A j)).
Proof.
  intros Hk Hj.
  split; [apply VHD_TESTBIT_spec; exact Hk|].
  split; [rewrite VHD_SETBIT_testbit, Z.eqb_refl by assumption; reflexivity|].
  split; [rewrite VHD_CLEARBIT_testbit, Z.eqb_refl by assumption; reflexivity|].
  intros Hne. apply Z.eqb_neq in Hne.
  rewrite VHD_SETBIT_testbit, VHD_CLEARBIT_testbit, Hne by assumption.
  split; reflexivity.
Qed.

Lemma bit_macros_law_witness :
  c_true (VHD_TESTBIT (VHD_SETBIT zero_bytes 4095) 4095) = true /\
  c_true (VHD_TESTBIT (VHD_SETBIT zero_bytes 4095) 4094) = false /\
  VHD_SETBIT zero_bytes 4095 511 = 1.
Proof.
  destruct (bit_macros_law zero_bytes 4095 4094 ltac:(lia) ltac:(lia)) as (_ & H1 & _ & H2).
  split; [exact H1|]. split; [|reflexivity].
  destruct (H2 ltac:(lia)) as [H3 _]. rewrite H3. reflexivity.
Defined.

(** ** Reads leave the image alone *)

Lemma read_sect_bitmap_same v blk : same_image v (mvhd_read_sect_bitmap v blk).
Proof.
  unfold same_image, mvhd_read_sect_bitmap, fread.
  destruct (negb (block_offset v blk =? MVHD_SPARSE_BLK)); proj;
    rewrite ?fseeko64_data, ?fseeko64_size; repeat split.
Qed.

Lemma same_image_fread v m ptr n : same_image v (with_f v (snd (fread (f v) m ptr n))).
Proof. unfold same_image, fread; proj. repeat split. Qed.

Ltac same_tail :=
  repeat lazymatch goal with
  | |- same_image ?a ?a => apply same_image_refl
  | |- same_image _ (with_f _ (snd (fread _ _ _ _))) =>
      eapply same_image_trans; [|apply same_image_fread]
  | |- same_image _ (with_f _ (fseeko64 _ _ _)) =>
      eapply same_image_trans; [|apply same_image_seek]
  | |- same_image _ (mvhd_read_sect_bitmap _ _) =>
      eapply same_image_trans; [|apply read_sect_bitmap_same]
  end.

Lemma sparse_read_body_same s st :
  same_image (rd_vhdm st) (rd_vhdm (sparse_read_body s st)).
Proof.
  unfold sparse_read_body.
  repeat match goal with |- context [if ?c then _ else _] => destruct c end;
    proj; same_tail.
Qed.

Lemma sparse_read_loop_same : forall (n : nat) (s : Z) (st : rd_state),
  same_image (rd_vhdm st) (rd_vhdm (for_range n s sparse_read_body st)).
Proof.
  induction n as [|n IH]; intros s st; cbn [for_range]; [apply same_image_refl|].
  eapply same_image_trans; [apply (sparse_read_body_same s st) | apply IH].
Qed.

Lemma sparse_read_same vhdm offset num m buff :
  same_image vhdm (snd (fst (mvhd_sparse_read vhdm offset num m buff))).
Proof.
  unfold mvhd_sparse_read. cbn [fst snd].
  apply (sparse_read_loop_same _ offset
           {| rd_vhdm := vhdm; rd_prev_blk := -1; rd_buff := buff; rd_mem := m |}).
Qed.

Lemma fixed_read_same vhdm offset num m buff :
  same_image vhdm (snd (fst (mvhd_fixed_read vhdm offset num m buff))) /\
  bitmap (snd (fst (mvhd_fixed_read vhdm offset num m buff))) = bitmap vhdm.
Proof.
  unfold mvhd_fixed_read, same_image, fread. proj.
  rewrite fseeko64_data, fseeko64_size. repeat split.
Qed.

Lemma diff_walk_same s : forall chain k chain',
  diff_walk s chain = Some (k, chain') -> Forall2 same_image chain chain'.
Proof.
  induction chain as [|v ps IH]; intros k chain' H; cbn [diff_walk] in H; [discriminate|].
  destruct (MVHDType_eqb (disk_type (footer v)) MVHD_TYPE_DIFF).
  - set (v1 := if negb (curr_block (bitmap v) =? Z.quot s (sect_per_block v))
               then mvhd_read_sect_bitmap v (Z.quot s (sect_per_block v)) else v) in *.
    assert (Hv1 : same_image v v1).
    { subst v1. destruct (negb (_ =? _)); [apply read_sect_bitmap_same | apply same_image_refl]. }
    destruct (negb (c_true _)).
    + destruct (diff_walk s ps) as [[k' ps']|] eqn:E; [|discriminate].
      inversion H; subst. constructor; [exact Hv1 | eapply IH; reflexivity].
    + inversion H; subst. constructor; [exact Hv1 | apply Forall2_same_image_refl].
  - inversion H; subst. apply Forall2_same_image_refl.
Qed.

Lemma diff_read_body_same chain0 s st st' :
  Forall2 same_image chain0 (df_chain st) ->
  diff_read_body s (Some st) = Some st' ->
  Forall2 same_image chain0 (df_chain st').
Proof.
  intros H0 Hb. unfold diff_read_body in Hb.
  destruct (diff_walk s (df_chain st)) as [[k chain1]|] eqn:Ew; [|discriminate].
  destruct (nth_error chain1 k) as [curr|] eqn:En; [|discriminate].
  inversion Hb; subst; clear Hb. cbn [df_chain].
  eapply Forall2_same_image_trans; [exact H0|].
  eapply Forall2_same_image_trans; [eapply diff_walk_same; exact Ew|].
  eapply set_nth_same_image; [exact En|].
  destruct (_ || _); [apply sparse_read_same | apply fixed_read_same].
Qed.

Lemma diff_read_loop_same chain0 : forall (n : nat) (s : Z) (ost : option diff_state) st',
  (forall st, ost = Some st -> Forall2 same_image chain0 (df_chain st)) ->
  for_range n s diff_read_body ost = Some st' ->
  Forall2 same_image chain0 (df_chain st').
Proof.
  induction n as [|n IH]; intros s ost st' H0 Hr; cbn [for_range] in Hr.
  - apply H0. exact Hr.
  - apply (IH (s + 1) (diff_read_body s ost) st'); [|exact Hr].
    intros st1 H1. destruct ost as [st|]; [|discriminate].
    eapply diff_read_body_same; [apply H0; reflexivity | exact H1].
Qed.

(** X2.  No read changes an image, whatever the request: after
    [mvhd_fixed_read], [mvhd_sparse_read] and [mvhd_diff_read] the bytes and
    the length of every file, the BAT and the constants of every handle are
    as before (a read moves cursors and reloads bitmap caches only; a fixed
    read leaves the bitmap cache alone too). *)
Theorem reads_never_modify vhdm chain offset num m buff :
  same_image vhdm (snd (fst (mvhd_fixed_read vhdm offset num m buff))) /\
  bitmap (snd (fst (mvhd_fixed_read vhdm offset num m buff))) = bitmap vhdm /\
  same_image vhdm (snd (fst (mvhd_sparse_read vhdm offset num m buff))) /\
  (forall t chain' out,
     mvhd_diff_read chain offset num m buff = Some (t, chain', out) ->
     Forall2 same_image chain chain').
Proof.
  split; [apply fixed_read_same|]. split; [apply fixed_read_same|].
  split; [apply sparse_read_same|].
  intros t chain' out H. unfold mvhd_diff_read in H.
  destruct chain as [|v0 ps]; [discriminate|].
  destruct (for_range _ _ _ _) as [st|] eqn:E; [|discriminate].
  inversion H; subst.
  eapply diff_read_loop_same; [|exact E].
  intros st0 H0. inversion H0; subst. apply Forall2_same_image_refl.
Qed.

(** ** Fixed images: writing and reading back *)

Lemma fixed_write_effect vhdm offset num m buff :
  is_int offset -> is_int num -> 0 <= offset <= total_sectors vhdm -> 0 <= num ->
  Z.min num (total_sectors vhdm - offset) * MVHD_SECTOR_SIZE <= INT_MAX ->
  let transfer := Z.min num (total_sectors vhdm - offset) in
  let w := mvhd_fixed_write vhdm offset num m buff in
  fst w = num - transfer /\
  footer (snd w) = footer vhdm /\
  size (f vhdm) <= size (f (snd w)) /\
  ((offset + transfer) * MVHD_SECTOR_SIZE <= size (f vhdm) -> size (f (snd w)) = size (f vhdm)) /\
  (forall i, 0 <= i < transfer * MVHD_SECTOR_SIZE ->
     data (f (snd w)) (offset * MVHD_SECTOR_SIZE + i) = m (buff + i)) /\
  (forall j, j < size (f vhdm) ->
     ~ (offset * MVHD_SECTOR_SIZE <= j < (offset + transfer) * MVHD_SECTOR_SIZE) ->
     data (f (snd w)) j = data (f vhdm) j).
Proof.
  intros Ho Hn Hoff Hnum Hmul transfer w.
  destruct (check_sectors_in_range offset num (total_sectors vhdm) Ho Hn
              (int32_range _) Hoff Hnum) as [Htr Htc].
  fold transfer in Htr. subst w. unfold mvhd_fixed_write. rewrite Htr, Htc, Htr.
  cbn [fst snd]. proj.
  assert (Hid : int32 (transfer * MVHD_SECTOR_SIZE) = transfer * MVHD_SECTOR_SIZE)
    by (apply int32_id; subst transfer; consts; lia).
  rewrite Hid.
  assert (Hb : 0 <= transfer * MVHD_SECTOR_SIZE < 2 ^ 64) by (subst transfer; consts; lia).
  set (f1 := fseeko64 (f vhdm) (offset * MVHD_SECTOR_SIZE) SEEK_SET).
  assert (Hp1 : pos f1 = offset * MVHD_SECTOR_SIZE) by (apply fseeko64_set; consts; lia).
  assert (Hd1 : data f1 = data (f vhdm)) by apply fseeko64_data.
  assert (Hs1 : size f1 = size (f vhdm)) by apply fseeko64_size.
  split; [reflexivity|]. split; [reflexivity|].
  split; [rewrite <- Hs1; apply fwrite_size_ge|].
  split.
  { intros Hin. unfold fwrite. rewrite uint64_id by exact Hb.
    destruct (Z.eqb_spec (transfer * MVHD_SECTOR_SIZE) 0); cbn [size]; lia. }
  split.
  - intros i Hi. rewrite <- Hp1. apply fwrite_in; assumption.
  - intros j Hj Hout. rewrite fwrite_out by (try assumption; lia). rewrite Hd1. reflexivity.
Qed.

(** X3.  On a fixed image whose file holds the disk, what [mvhd_fixed_write]
    writes inside the disk, [mvhd_fixed_read] of the same range reads back:
    both answer 0 and the buffer receives the written bytes. *)
Theorem fixed_write_read_roundtrip vhdm offset num m buff m2 buff2 :
  is_int offset -> is_int num -> 0 <= offset -> 0 <= num ->
  offset + num <= total_sectors vhdm ->
  num * MVHD_SECTOR_SIZE <= INT_MAX ->
  total_sectors vhdm * MVHD_SECTOR_SIZE <= size (f vhdm) ->
  let w := mvhd_fixed_write vhdm offset num m buff in
  let r := mvhd_fixed_read (snd w) offset num m2 buff2 in
  fst w = 0 /\ fst (fst r) = 0 /\
  (forall i, 0 <= i < num * MVHD_SECTOR_SIZE -> snd r (buff2 + i) = m (buff + i)) /\
  (forall j, ~ (buff2 <= j < buff2 + num * MVHD_SECTOR_SIZE) -> snd r j = m2 j).
Proof.
  intros Ho Hn H0 Hnum Hin Hmul Hsz w r.
  assert (Hmin : Z.min num (total_sectors vhdm - offset) = num) by lia.
  destruct (fixed_write_effect vhdm offset num m buff Ho Hn ltac:(lia) Hnum
              ltac:(rewrite Hmin; exact Hmul)) as (Hret & Hfoot & Hge & _ & Hdata & _).
  fold w in Hret, Hfoot, Hge, Hdata. rewrite Hmin in *.
  assert (Htot : total_sectors (snd w) = total_sectors vhdm)
    by (apply total_sectors_footer; exact Hfoot).
  destruct (check_sectors_fits offset num (total_sectors (snd w))) as [Hchk _];
    try assumption; try apply int32_range; try (rewrite Htot; exact Hin).
  subst r. unfold mvhd_fixed_read. rewrite Hchk. cbn [fst snd].
  rewrite int32_id by (consts; lia).
  set (f1 := fseeko64 (f (snd w)) (offset * MVHD_SECTOR_SIZE) SEEK_SET).
  assert (Hp1 : pos f1 = offset * MVHD_SECTOR_SIZE) by (apply fseeko64_set; consts; lia).
  assert (Hd1 : data f1 = data (f (snd w))) by apply fseeko64_data.
  assert (Hs1 : size f1 = size (f (snd w))) by apply fseeko64_size.
  assert (Hb : 0 <= num * MVHD_SECTOR_SIZE < 2 ^ 64) by (consts; lia).
  split; [lia|]. split; [reflexivity|]. split.
  - intros i Hi. rewrite fread_in by (try assumption; consts; lia).
    rewrite Hd1, Hp1. apply Hdata. exact Hi.
  - intros j Hj. apply fread_out; assumption.
Qed.

(** On the fixed image of 1000 sectors: sectors 995..999 written and read
    back. *)
Lemma fixed_write_read_roundtrip_witness :
  let w := mvhd_fixed_write Examples.fixed_1000 995 5 ExampleWrite.payload 0 in
  let r := mvhd_fixed_read (snd w) 995 5 Examples.fresh_buffer 0 in
  fst w = 0 /\ fst (fst r) = 0 /\
  forall i, 0 <= i < 5 * 512 -> snd r i = ExampleWrite.payload i.
Proof.
  assert (Ho : is_int 995) by (unfold is_int, INT_MIN, INT_MAX; lia).
  assert (Hn : is_int 5) by (unfold is_int, INT_MIN, INT_MAX; lia).
  assert (Hin : 995 + 5 <= total_sectors Examples.fixed_1000) by (vm_compute; congruence).
  assert (Hmul : 5 * MVHD_SECTOR_SIZE <= INT_MAX) by (vm_compute; congruence).
  assert (Hsz : total_sectors Examples.fixed_1000 * MVHD_SECTOR_SIZE
                <= size (f Examples.fixed_1000)) by (vm_compute; congruence).
  pose proof (fixed_write_read_roundtrip Examples.fixed_1000 995 5 ExampleWrite.payload 0
                Examples.fresh_buffer 0 Ho Hn ltac:(lia) ltac:(lia) Hin Hmul Hsz) as H.
  cbv zeta in H. destruct H as (Hw & Hr & Hrt & _).
  cbv zeta. split; [exact Hw|]. split; [exact Hr|].
  intros i Hi. exact (Hrt i Hi).
Defined.

(** X4.  A write to a fixed image that starts inside the disk changes bytes
    of the clamped range only: the file keeps its length, and every byte
    before [offset * 512] and from the end of the clamped range on, the
    trailing footer among them, is as before; the answer is the number of
    sectors that did not fit. *)
Theorem fixed_write_stays_in_range vhdm offset num m buff :
  is_int offset -> is_int num -> 0 <= offset <= total_sectors vhdm -> 0 <= num ->
  Z.min num (total_sectors vhdm - offset) * MVHD_SECTOR_SIZE <= INT_MAX ->
  total_sectors vhdm * MVHD_SECTOR_SIZE <= size (f vhdm) ->
  let w := mvhd_fixed_write vhdm offset num m buff in
  fst w = num - Z.min num (total_sectors vhdm - offset) /\
  size (f (snd w)) = size (f vhdm) /\
  (forall j, j < offset * MVHD_SECTOR_SIZE -> data (f (snd w)) j = data (f vhdm) j) /\
  (forall j, (offset + num) * MVHD_SECTOR_SIZE <= j < size (f vhdm) ->
     data (f (snd w)) j = data (f vhdm) j) /\
  (forall j, total_sectors vhdm * MVHD_SECTOR_SIZE <= j < size (f vhdm) ->
     data (f (snd w)) j = data (f vhdm) j).
Proof.
  intros Ho Hn Hoff Hnum Hmul Hsz w.
  destruct (fixed_write_effect vhdm offset num m buff Ho Hn Hoff Hnum Hmul)
    as (Hret & _ & _ & Hsame & _ & Hout).
  fold w in Hret, Hsame, Hout.
  split; [exact Hret|].
  split; [apply Hsame; consts; lia|].
  split; [intros j Hj; apply Hout; consts; lia|].
  split; intros j Hj; apply Hout; consts; lia.
Qed.

(** On the fixed image of 1000 sectors, a write of 10 sectors at 995 answers
    5 and leaves the 512 bytes after the disk as they were. *)
Lemma fixed_write_stays_in_range_witness :
  let w := mvhd_fixed_write Examples.fixed_1000 995 10 ExampleWrite.payload 0 in
  fst w = 5 /\
  forall j, 1000 * 512 <= j < 1000 * 512 + 512 ->
    data (f (snd w)) j = data (f Examples.fixed_1000) j.
Proof.
  assert (Ho : is_int 995) by (unfold is_int, INT_MIN, INT_MAX; lia).
  assert (Hn : is_int 10) by (unfold is_int, INT_MIN, INT_MAX; lia).
  assert (Hoff : 0 <= 995 <= total_sectors Examples.fixed_1000)
    by (vm_compute; split; congruence).
  assert (Hmul : Z.min 10 (total_sectors Examples.fixed_1000 - 995) * MVHD_SECTOR_SIZE
                 <= INT_MAX) by (vm_compute; congruence).
  assert (Hsz : total_sectors Examples.fixed_1000 * MVHD_SECTOR_SIZE
                <= size (f Examples.fixed_1000)) by (vm_compute; congruence).
  pose proof (fixed_write_stays_in_range Examples.fixed_1000 995 10 ExampleWrite.payload 0
                Ho Hn Hoff ltac:(lia) Hmul Hsz) as H.
  cbv zeta in H. destruct H as (Hret & _ & _ & _ & Hfoot).
  cbv zeta. split; [exact Hret|].
  intros j Hj. apply Hfoot. exact Hj.
Defined.

(** ** Flushing and reloading the bitmap cache *)

Lemma flush_none v : curr_block (bitmap v) < 0 -> mvhd_write_curr_sect_bitmap v = v.
Proof.
  intros H. unfold mvhd_write_curr_sect_bitmap.
  destruct (Z.leb_spec 0 (curr_block (bitmap v))); [lia | reflexivity].
Qed.

Lemma flush_spec v :
  0 <= curr_block (bitmap v) ->
  0 <= block_offset v (curr_block (bitmap v)) ->
  (block_offset v (curr_block (bitmap v)) + sector_count (bitmap v)) * MVHD_SECTOR_SIZE
    <= 2 ^ 32 ->
  0 < sector_count (bitmap v) ->
  let bo := block_offset v (curr_block (bitmap v)) in
  let w := mvhd_write_curr_sect_bitmap v in
  (forall i, 0 <= i < sector_count (bitmap v) * MVHD_SECTOR_SIZE ->
     data (f w) (bo * MVHD_SECTOR_SIZE + i) = curr_bitmap (bitmap v) i) /\
  (forall j, j < size (f v) ->
     ~ (bo * MVHD_SECTOR_SIZE <= j < (bo + sector_count (bitmap v)) * MVHD_SECTOR_SIZE) ->
     data (f w) j = data (f v) j) /\
  size (f w) = Z.max (size (f v)) ((bo + sector_count (bitmap v)) * MVHD_SECTOR_SIZE) /\
  bitmap w = bitmap v /\ block_offset w = block_offset v /\
  footer w = footer v /\ sparse w = sparse v /\ sect_per_block w = sect_per_block v.
Proof.
  intros Hm Hbo Hend Hsc bo w. subst w. unfold mvhd_write_curr_sect_bitmap.
  destruct (Z.leb_spec 0 (curr_block (bitmap v))); [|lia].
  fold bo. rewrite (uint32_id (bo * MVHD_SECTOR_SIZE)) by (subst bo; consts; lia).
  rewrite (uint64_id (sector_count (bitmap v))) by (subst bo; consts; lia).
  set (f1 := fseeko64 (f v) (bo * MVHD_SECTOR_SIZE) SEEK_SET).
  assert (Hp1 : pos f1 = bo * MVHD_SECTOR_SIZE) by (apply fseeko64_set; subst bo; consts; lia).
  assert (Hd1 : data f1 = data (f v)) by apply fseeko64_data.
  assert (Hs1 : size f1 = size (f v)) by apply fseeko64_size.
  assert (Hn : 0 < MVHD_SECTOR_SIZE * sector_count (bitmap v) < 2 ^ 64)
    by (subst bo; consts; lia).
  proj.
  split.
  { intros i Hi. rewrite <- Hp1. rewrite fwrite_in by (consts; lia). reflexivity. }
  split.
  { intros j Hj Hout. rewrite fwrite_out by (consts; lia). rewrite Hd1. reflexivity. }
  split.
  { unfold fwrite. rewrite uint64_id by lia.
    destruct (Z.eqb_spec (MVHD_SECTOR_SIZE * sector_count (bitmap v)) 0); [lia|].
    cbn [size]. rewrite Hp1, Hs1. consts; lia. }
  repeat split.
Qed.

(** X5.  Flushing the cache of an allocated block and loading the block again
    gives the cache back, when the block's bitmap, of at least one byte and
    at most [INT_MAX] bytes, ends at or before byte 2^32 of a file of at most
    4 GiB (both functions address the bitmap by a 32-bit byte offset): after
    [mvhd_write_curr_sect_bitmap] the block's bitmap on disk is the cached
    one (the cache is sound), no byte of the file outside the block's bitmap
    sectors changed, and an [mvhd_read_sect_bitmap] of the block reads back
    every byte of the cache. *)
Theorem flush_then_load v :
  0 <= curr_block (bitmap v) ->
  block_offset v (curr_block (bitmap v)) <> MVHD_SPARSE_BLK ->
  0 <= block_offset v (curr_block (bitmap v)) ->
  0 < sector_count (bitmap v) * MVHD_SECTOR_SIZE <= INT_MAX ->
  (block_offset v (curr_block (bitmap v)) + sector_count (bitmap v)) * MVHD_SECTOR_SIZE
    <= 2 ^ 32 ->
  size (f v) <= 2 ^ 32 ->
  let blk := curr_block (bitmap v) in
  let w := mvhd_write_curr_sect_bitmap v in
  cache_ok w /\
  (forall j, j < size (f v) ->
     ~ (block_offset v blk * MVHD_SECTOR_SIZE <= j
        < (block_offset v blk + sector_count (bitmap v)) * MVHD_SECTOR_SIZE) ->
     data (f w) j = data (f v) j) /\
  (forall i, 0 <= i < sector_count (bitmap v) * MVHD_SECTOR_SIZE ->
     curr_bitmap (bitmap (mvhd_read_sect_bitmap w blk)) i = curr_bitmap (bitmap v) i) /\
  curr_block (bitmap (mvhd_read_sect_bitmap w blk)) = blk.
Proof.
  intros Hm Hne Hbo Hsc Hend Hsz blk w.
  destruct (flush_spec v Hm Hbo Hend ltac:(consts; lia))
    as (Hin & Hout & Hsize & Hbm & Hbat & _).
  fold w blk in Hin, Hout, Hsize, Hbm, Hbat.
  split.
  { unfold cache_ok. rewrite Hbm, Hbat. intros _ i Hi. fold blk.
    apply Z.eqb_neq in Hne. fold blk in Hne. rewrite Hne. symmetry. apply Hin. exact Hi. }
  split; [exact Hout|].
  pose proof (read_sect_bitmap_alloc w blk) as HL. cbv zeta in HL.
  rewrite Hbat, Hbm in HL. fold blk in Hend, Hbo, Hne.
  specialize (HL Hne Hbo Hsc ltac:(lia) ltac:(lia)).
  destruct HL as (_ & Hmk & _ & Hload).
  split; [|exact Hmk].
  intros i Hi. rewrite Hload by exact Hi. apply Hin. exact Hi.
Qed.

(** ** Reading a range of a sparse image *)

Lemma div_bounds s p : 0 < p -> s / p * p <= s < s / p * p + p.
Proof.
  intros Hp. pose proof (Z.div_mod s p ltac:(lia)). pose proof (Z.mod_pos_bound s p Hp). lia.
Qed.

Lemma div_of_bounds x p q : 0 < p -> q * p <= x < q * p + p -> x / p = q.
Proof. intros Hp H. symmetry. apply (Z.div_unique x p q (x - q * p)); lia. Qed.

Lemma mod_as_sub s p : 0 < p -> s mod p = s - s / p * p.
Proof. intros Hp. pose proof (Z.div_mod s p ltac:(lia)). lia. Qed.

Lemma set_count_range v : forall (n : nat) lo, 0 <= set_count v lo n <= Z.of_nat n.
Proof.
  induction n as [|n IH]; intros lo; cbn [set_count]; [lia|].
  specialize (IH (lo + 1)). destruct (disk_bit v lo); lia.
Qed.

Lemma set_count_snoc v : forall (n : nat) lo,
  set_count v lo (S n)
  = set_count v lo n + (if disk_bit v (lo + Z.of_nat n) then 1 else 0).
Proof.
  induction n as [|n IH]; intros lo.
  - cbn [set_count Z.of_nat]. replace (lo + 0) with lo by lia. lia.
  - change (set_count v lo (S (S n)))
      with ((if disk_bit v lo then 1 else 0) + set_count v (lo + 1) (S n)).
    rewrite IH. cbn [set_count].
    replace (lo + 1 + Z.of_nat n) with (lo + Z.of_nat (S n)) by lia. lia.
Qed.

Lemma set_count_full v : forall (n : nat) lo,
  (forall k, lo <= k < lo + Z.of_nat n -> disk_bit v k = true) ->
  set_count v lo n = Z.of_nat n.
Proof.
  induction n as [|n IH]; intros lo H; cbn [set_count]; [reflexivity|].
  rewrite (H lo) by lia. rewrite IH by (intros k Hk; apply H; lia). lia.
Qed.

Lemma block_entry_facts v offset s :
  0 < sect_per_block v -> 0 <= offset <= s ->
  let e := block_entry v offset s in
  offset <= e <= s /\ e / sect_per_block v = s / sect_per_block v /\
  (s = offset -> e = s) /\
  (offset < s -> s / sect_per_block v = (s - 1) / sect_per_block v ->
     e = block_entry v offset (s - 1)) /\
  (offset < s -> s / sect_per_block v <> (s - 1) / sect_per_block v -> e = s).
Proof.
  intros Hp Hs e. subst e. unfold block_entry.
  pose proof (div_bounds s (sect_per_block v) Hp) as Hb.
  pose proof (div_bounds (s - 1) (sect_per_block v) Hp) as Hb1.
  split; [lia|]. split.
  { apply div_of_bounds; [exact Hp | lia]. }
  split; [lia|]. split.
  - intros Hlt Heq. rewrite Heq. reflexivity.
  - intros Hlt Hne.
    assert (s = s / sect_per_block v * sect_per_block v); [|lia].
    destruct (Z.eq_dec s (s / sect_per_block v * sect_per_block v)) as [E | N]; [exact E|].
    exfalso. apply Hne. symmetry. apply div_of_bounds; [exact Hp | lia].
Qed.

(** On entering a block, the cache is on the block and, when the block is
    allocated, the cursor on the sector's data. *)
Lemma sparse_read_enter_alloc v s :
  disk_type (footer v) <> MVHD_TYPE_FIXED -> readable v -> cache_ok v ->
  0 <= s < total_sectors v ->
  let blk := Z.quot s (sect_per_block v) in
  let sib := Z.rem s (sect_per_block v) in
  let v2 :=
    if negb (curr_block (bitmap v) =? blk) then
      with_f (mvhd_read_sect_bitmap v blk)
        (fseeko64 (f (mvhd_read_sect_bitmap v blk)) (int32 (sib * MVHD_SECTOR_SIZE)) SEEK_CUR)
    else
      with_f v (fseeko64 (f v)
                  (uint32 (block_offset v blk + sector_count (bitmap v) + sib)
                   * MVHD_SECTOR_SIZE) SEEK_SET) in
  same_image v v2 /\ cache_ok v2 /\
  curr_block (bitmap v2) = s / sect_per_block v /\
  (block_offset v (s / sect_per_block v) <> MVHD_SPARSE_BLK -> pos (f v2) = data_addr v s).
Proof.
  intros Hty Hrd Hc Hs blk sib v2.
  destruct (sparse_read_enter v s Hty Hrd Hc Hs) as (Hsame & Hc2 & Hm & _).
  fold blk sib v2 in Hsame, Hc2, Hm.
  split; [exact Hsame|]. split; [exact Hc2|]. split; [exact Hm|].
  intros Hal.
  destruct (readable_sparse v Hty Hrd) as (Hfit & Hblock & Hsz & Hin).
  pose proof Hfit as (Hspb & Hsc & Hcov).
  destruct (quot_rem_block s (sect_per_block v) (proj1 Hs) Hspb) as [Hblk Hsib].
  assert (Eblk : blk = s / sect_per_block v) by (apply Z.quot_div_nonneg; lia).
  assert (Esib : sib = s mod sect_per_block v) by (apply Z.rem_mod_nonneg; lia).
  fold blk sib in Hblk, Hsib.
  destruct (Hin s Hs Hal) as [Hbo Hend]. rewrite <- Eblk in Hbo, Hend, Hal.
  unfold data_addr. rewrite <- Eblk, <- Esib.
  subst v2.
  destruct (Z.eqb_spec (curr_block (bitmap v)) blk) as [Ecur | Ncur]; cbn [negb].
  - proj. rewrite uint32_id by (consts; lia). apply fseeko64_set. consts; lia.
  - destruct (read_sect_bitmap_alloc v blk Hal Hbo ltac:(lia) ltac:(consts; lia) Hsz)
      as (_ & _ & Hpos & _).
    proj. rewrite (int32_id (sib * MVHD_SECTOR_SIZE)) by (consts; lia).
    rewrite fseeko64_cur by (rewrite Hpos; consts; lia). rewrite Hpos. lia.
Qed.

Lemma data_addr_same_block v x y :
  0 < sect_per_block v -> x / sect_per_block v = y / sect_per_block v ->
  data_addr v y = data_addr v x + (y - x) * MVHD_SECTOR_SIZE.
Proof.
  intros Hp Hq. unfold data_addr. rewrite !mod_as_sub by exact Hp. rewrite Hq. lia.
Qed.

Lemma data_addr_same v v' s : same_image v v' -> data_addr v' s = data_addr v s.
Proof.
  intros (_ & _ & _ & _ & Hbo & Hp & Hc). unfold data_addr. rewrite Hbo, Hp, Hc. reflexivity.
Qed.

Lemma served_sector_facts v offset s :
  0 < sect_per_block v -> 0 <= offset <= s ->
  block_entry v offset s <= served_sector v offset s <= s /\
  served_sector v offset s / sect_per_block v = s / sect_per_block v.
Proof.
  intros Hp Hs.
  destruct (block_entry_facts v offset s Hp Hs) as (He & Hq & _).
  unfold served_sector.
  pose proof (set_count_range v (Z.to_nat (s - block_entry v offset s))
                (block_entry v offset s)) as Hc.
  rewrite Z2Nat.id in Hc by lia.
  split; [lia|].
  pose proof (div_bounds s (sect_per_block v) Hp) as Hb.
  pose proof (div_bounds (block_entry v offset s) (sect_per_block v) Hp) as Hbe.
  rewrite Hq in Hbe.
  apply div_of_bounds; [exact Hp | lia].
Qed.

(** The sector served next, within a block. *)
Lemma served_sector_next v offset s :
  0 < sect_per_block v -> 0 <= offset < s ->
  s / sect_per_block v = (s - 1) / sect_per_block v ->
  served_sector v offset s
  = served_sector v offset (s - 1) + (if disk_bit v (s - 1) then 1 else 0).
Proof.
  intros Hp Hs Hq.
  destruct (block_entry_facts v offset s Hp ltac:(lia)) as (He & _ & _ & Hsame & _).
  specialize (Hsame ltac:(lia) Hq).
  destruct (block_entry_facts v offset (s - 1) Hp ltac:(lia)) as (He1 & _).
  unfold served_sector. rewrite Hsame.
  set (e := block_entry v offset (s - 1)) in *.
  replace (Z.to_nat (s - e)) with (S (Z.to_nat (s - 1 - e))) by lia.
  rewrite set_count_snoc. rewrite Z2Nat.id by lia.
  replace (e + (s - 1 - e)) with (s - 1) by lia. lia.
Qed.

Lemma served_sector_entry v offset s :
  0 < sect_per_block v -> 0 <= offset <= s ->
  (s = offset \/ s / sect_per_block v <> (s - 1) / sect_per_block v) ->
  served_sector v offset s = s.
Proof.
  intros Hp Hs Hcase.
  destruct (block_entry_facts v offset s Hp Hs) as (_ & _ & H0 & _ & Hnew).
  assert (He : block_entry v offset s = s).
  { destruct Hcase as [E | N]; [apply H0; exact E|].
    destruct (Z.eq_dec s offset) as [E | Ne]; [apply H0; exact E | apply Hnew; [lia | exact N]]. }
  unfold served_sector. rewrite He, Z.sub_diag. cbn [Z.to_nat set_count]. lia.
Qed.

Lemma stored_byte_addr v s b : stored_byte v s b = data (f v) (data_addr v s + b).
Proof. reflexivity. Qed.

(** One turn of the loop of [mvhd_sparse_read]. *)
Lemma sparse_read_step v offset s st :
  disk_type (footer v) <> MVHD_TYPE_FIXED -> readable v ->
  0 <= offset <= s -> s < total_sectors v ->
  read_inv v offset s st ->
  let st' := sparse_read_body s st in
  read_inv v offset (s + 1) st' /\
  rd_buff st' = rd_buff st + MVHD_SECTOR_SIZE /\
  (forall b, 0 <= b < MVHD_SECTOR_SIZE ->
     rd_mem st' (rd_buff st + b)
     = if disk_bit v s then stored_byte v (served_sector v offset s) b else 0) /\
  (forall j, ~ (rd_buff st <= j < rd_buff st + MVHD_SECTOR_SIZE) ->
     rd_mem st' j = rd_mem st j).
Proof.
  intros Hty Hrd Hs Htot (Hsame & Hc & Hfirst & Hnext) st'.
  set (cur := rd_vhdm st) in *.
  pose proof Hsame as (Hd & Hsz & Hfo & _ & Hbo & Hp & Hcnt).
  assert (Htyc : disk_type (footer cur) <> MVHD_TYPE_FIXED) by (rewrite Hfo; exact Hty).
  pose proof (readable_same _ _ Hsame Hrd) as Hrdc.
  assert (Htotc : 0 <= s < total_sectors cur)
    by (rewrite (total_sectors_footer _ _ Hfo); lia).
  destruct (readable_sparse v Hty Hrd) as (Hfit & Hblock & Hsize & Hin).
  pose proof Hfit as (Hspb & Hsc & Hcov).
  destruct (quot_rem_block s (sect_per_block v) ltac:(lia) Hspb) as [Hblk Hsib].
  assert (Eq : Z.quot s (sect_per_block cur) = s / sect_per_block v)
    by (rewrite Hp; apply Z.quot_div_nonneg; lia).
  assert (Er : Z.rem s (sect_per_block cur) = s mod sect_per_block v)
    by (rewrite Hp; apply Z.rem_mod_nonneg; lia).
  assert (Hdiv : 0 <= s / sect_per_block v) by (apply Z.div_pos; lia).
  destruct (served_sector_facts v offset s Hspb Hs) as (Hsv & Hsvq).
  destruct (block_entry_facts v offset s Hspb Hs) as (He & _).
  pose proof (sparse_read_enter_alloc cur s Htyc Hrdc Hc Htotc) as HE. cbv zeta in HE.
  subst st'. unfold sparse_read_body. fold cur.
  match goal with
  | |- context [if c_true (VHD_TESTBIT (curr_bitmap (bitmap ?w)) _) then _ else _] =>
      set (v2 := w)
  end.
  assert (K : same_image v v2 /\ cache_ok v2 /\
              curr_block (bitmap v2) = s / sect_per_block v /\
              (block_offset v (s / sect_per_block v) <> MVHD_SPARSE_BLK ->
               pos (f v2) = data_addr v (served_sector v offset s))).
  { subst v2.
    destruct (Z.eqb_spec (Z.quot s (sect_per_block cur)) (rd_prev_blk st)) as [Eprev | Nprev];
      cbn [negb].
    - (* the block the loop is in *)
      assert (Hlt : offset < s).
      { destruct (Z.eq_dec s offset) as [E | N]; [|lia].
        rewrite (Hfirst E), Eq in Eprev. lia. }
      destruct (Hnext Hlt) as (Hprev & Hmark & Hpos).
      assert (Hq1 : s / sect_per_block v = (s - 1) / sect_per_block v) by congruence.
      split; [exact Hsame|]. split; [exact Hc|]. split; [congruence|].
      intros Hal. rewrite Hq1 in Hal. rewrite (Hpos Hal).
      rewrite (served_sector_next v offset s Hspb ltac:(lia) Hq1).
      destruct (served_sector_facts v offset (s - 1) Hspb ltac:(lia)) as (_ & Hq2).
      set (x := served_sector v offset (s - 1)) in *.
      destruct (disk_bit v (s - 1)).
      + rewrite (data_addr_same_block v x (x + 1) Hspb).
        * lia.
        * destruct (served_sector_facts v offset s Hspb Hs) as (_ & Hq3).
          rewrite (served_sector_next v offset s Hspb ltac:(lia) Hq1) in Hq3.
          fold x in Hq3. destruct (disk_bit v (s - 1)) eqn:E.
          -- congruence.
          -- pose proof (div_bounds x (sect_per_block v) Hspb).
             pose proof (div_bounds (s - 1) (sect_per_block v) Hspb).
             destruct (served_sector_facts v offset (s - 1) Hspb ltac:(lia)) as (Hx & _).
             fold x in Hx. symmetry. apply div_of_bounds; [exact Hspb|].
             pose proof (div_bounds s (sect_per_block v) Hspb). lia.
      + rewrite Z.add_0_r. f_equal. lia.
    - (* a block is entered *)
      assert (Hentry : s = offset \/ s / sect_per_block v <> (s - 1) / sect_per_block v).
      { destruct (Z.eq_dec s offset) as [E | N]; [left; exact E | right].
        destruct (Hnext ltac:(lia)) as (Hprev & _). congruence. }
      rewrite (served_sector_entry v offset s Hspb Hs Hentry).
      destruct HE as (E1 & E2 & E3 & E4).
      split; [eapply same_image_trans; [exact Hsame | exact E1]|].
      split; [exact E2|]. split; [rewrite E3, Hp; reflexivity|].
      intros Hal. rewrite <- (data_addr_same v cur s Hsame). apply E4.
      rewrite Hbo, Hp. exact Hal. }
  clearbody v2. clear HE.
  destruct K as (Hsame2 & Hc2 & Hm2 & Hpos2).
  pose proof Hsame2 as (Hd2 & Hsz2 & _ & _ & _ & Hp2 & _).
  assert (Hbit : c_true (VHD_TESTBIT (curr_bitmap (bitmap v2)) (Z.rem s (sect_per_block cur)))
                 = disk_bit v s).
  { rewrite <- (disk_bit_same v v2 s Hsame2). rewrite Hp, <- Hp2.
    apply cached_bit; [apply (bitmap_fits_same v); assumption | exact Hc2 | lia |].
    rewrite Hp2. exact Hm2. }
  rewrite Hbit.
  assert (Hprev' : (if negb (Z.quot s (sect_per_block cur) =? rd_prev_blk st)
                    then Z.quot s (sect_per_block cur) else rd_prev_blk st)
                   = s / sect_per_block v).
  { destruct (Z.eqb_spec (Z.quot s (sect_per_block cur)) (rd_prev_blk st)); cbn [negb];
      congruence. }
  rewrite Hprev'.
  replace (s + 1 - 1) with s by lia.
  destruct (disk_bit v s) eqn:Ebit; proj.
  - pose proof (disk_bit_allocated v s Ebit) as Hal.
    specialize (Hpos2 Hal).
    destruct (Hin (served_sector v offset s) ltac:(lia)) as [Hbo' Hend];
      [rewrite Hsvq; exact Hal|].
    rewrite Hsvq in Hbo', Hend.
    assert (Hfull : pos (f v2) + MVHD_SECTOR_SIZE <= size (f v2)).
    { rewrite Hsz2, Hpos2. unfold data_addr. rewrite Hsvq.
      pose proof (Z.mod_pos_bound (served_sector v offset s) (sect_per_block v) Hspb).
      consts; lia. }
    split.
    { unfold read_inv. proj. cbn [fread snd].
      split; [eapply same_image_trans; [exact Hsame2 | unfold same_image; proj; repeat split]|].
      split; [apply (cache_ok_same_cache v2); [reflexivity | reflexivity | reflexivity | exact Hc2]|].
      split; [intros; lia|].
      intros _. replace (s + 1 - 1) with s by lia. rewrite Ebit.
      split; [reflexivity|]. split; [exact Hm2|].
      intros _. cbn [pos]. rewrite fread_count_full by (consts; lia). rewrite Hpos2. reflexivity. }
    split; [reflexivity|]. split.
    + intros b Hb. rewrite fread_in by (try assumption; consts; lia).
      rewrite stored_byte_addr, Hpos2, Hd2. reflexivity.
    + intros j Hj. apply fread_out; [consts; lia | exact Hj].
  - split.
    { unfold read_inv. proj.
      split; [exact Hsame2|]. split; [exact Hc2|]. split; [intros; lia|].
      intros _. replace (s + 1 - 1) with s by lia. rewrite Ebit.
      split; [reflexivity|]. split; [exact Hm2|].
      intros Hal. rewrite (Hpos2 Hal). lia. }
    split; [reflexivity|].
    unfold memset. rewrite uint64_id by (consts; lia). split.
    + intros b Hb. rewrite in_range_true by lia. reflexivity.
    + intros j Hj. rewrite in_range_false by lia. reflexivity.
Qed.

(** What [mvhd_sparse_read] returns for a range that starts inside the disk. *)
Lemma sparse_read_range v offset num m buff :
  disk_type (footer v) <> MVHD_TYPE_FIXED -> readable v -> cache_ok v ->
  is_int offset -> is_int num -> 0 <= offset <= total_sectors v -> 0 <= num ->
  let transfer := Z.min num (total_sectors v - offset) in
  let r := mvhd_sparse_read v offset num m buff in
  fst (fst r) = num - transfer /\
  same_image v (snd (fst r)) /\ cache_ok (snd (fst r)) /\
  (forall s b, offset <= s < offset + transfer -> 0 <= b < MVHD_SECTOR_SIZE ->
     snd r (buff + (s - offset) * MVHD_SECTOR_SIZE + b)
     = if disk_bit v s then stored_byte v (served_sector v offset s) b else 0) /\
  (forall j, ~ (buff <= j < buff + transfer * MVHD_SECTOR_SIZE) -> snd r j = m j).
Proof.
  intros Hty Hrd Hc Ho Hn Hoff Hnum transfer r.
  destruct (check_sectors_in_range offset num (total_sectors v) Ho Hn
              (int32_range _) Hoff Hnum) as [Htr Htc].
  fold transfer in Htr.
  assert (Htint : is_int (total_sectors v)) by apply int32_range.
  set (st0 := {| rd_vhdm := v; rd_prev_blk := -1; rd_buff := buff; rd_mem := m |}).
  assert (Hr : r = (num - transfer,
                    rd_vhdm (for_range (Z.to_nat transfer) offset sparse_read_body st0),
                    rd_mem (for_range (Z.to_nat transfer) offset sparse_read_body st0))).
  { subst r. unfold mvhd_sparse_read. rewrite Htc, Htr. cbn [fst snd].
    rewrite int32_id by (subst transfer; consts; lia).
    replace (offset + transfer - offset) with transfer by lia. reflexivity. }
  set (P := fun (s : Z) (st : rd_state) =>
    read_inv v offset s st /\
    rd_buff st = buff + (s - offset) * MVHD_SECTOR_SIZE /\
    (forall s' b, offset <= s' < s -> 0 <= b < MVHD_SECTOR_SIZE ->
       rd_mem st (buff + (s' - offset) * MVHD_SECTOR_SIZE + b)
       = if disk_bit v s' then stored_byte v (served_sector v offset s') b else 0) /\
    (forall j, ~ (buff <= j < rd_buff st) -> rd_mem st j = m j)).
  assert (HP : P (offset + Z.of_nat (Z.to_nat transfer))
                 (for_range (Z.to_nat transfer) offset sparse_read_body st0)).
  { apply for_range_inv.
    - unfold P, read_inv, st0. proj.
      split.
      { split; [apply same_image_refl|]. split; [exact Hc|].
        split; [reflexivity | intros; lia]. }
      split; [lia|]. split; [intros; lia | reflexivity].
    - intros s st Hs (Hinv & Hb & Hdone & Hrest).
      rewrite Z2Nat.id in Hs by (subst transfer; lia).
      destruct (sparse_read_step v offset s st Hty Hrd ltac:(lia) ltac:(subst transfer; lia) Hinv)
        as (Hinv' & Hb' & Hin & Hout).
      unfold P. split; [exact Hinv'|].
      rewrite Hb', Hb. unfold MVHD_SECTOR_SIZE in *.
      split; [lia|]. split.
      + intros s' b Hs' Hb0.
        destruct (Z.eq_dec s' s) as [-> | Hd].
        * rewrite <- Hb. apply Hin. exact Hb0.
        * rewrite Hout by lia. apply Hdone; lia.
      + intros j Hj. rewrite Hout by lia. apply Hrest. lia. }
  rewrite Z2Nat.id in HP by (subst transfer; lia).
  destruct HP as ((Hsame & Hcache & _) & Hb & Hdone & Hrest).
  rewrite Hr. cbn [fst snd].
  split; [reflexivity|]. split; [exact Hsame|]. split; [exact Hcache|].
  split; [exact Hdone|].
  intros j Hj. apply Hrest. rewrite Hb. lia.
Qed.

(** X6.  What [mvhd_sparse_read] returns, for a sparse image that can serve
    its disk, a sound cache and a request that starts inside the disk: the
    answer is the number of sectors past the end of the disk; the slot of a
    sector whose bit is unset is filled with zeros; the slot of a sector whose
    bit is set receives the stored bytes of sector [served_sector], that is
    the sector where the read entered the block plus the number of set bits
    between there and the sector; the rest of the memory is untouched. *)
Theorem sparse_read_serves v offset num m buff :
  disk_type (footer v) <> MVHD_TYPE_FIXED -> readable v -> cache_ok v ->
  is_int offset -> is_int num -> 0 <= offset <= total_sectors v -> 0 <= num ->
  let transfer := Z.min num (total_sectors v - offset) in
  let r := mvhd_sparse_read v offset num m buff in
  fst (fst r) = num - transfer /\
  cache_ok (snd (fst r)) /\
  (forall s b, offset <= s < offset + transfer -> 0 <= b < MVHD_SECTOR_SIZE ->
     snd r (buff + (s - offset) * MVHD_SECTOR_SIZE + b)
     = if disk_bit v s then stored_byte v (served_sector v offset s) b else 0) /\
  (forall j, ~ (buff <= j < buff + transfer * MVHD_SECTOR_SIZE) -> snd r j = m j).
Proof.
  intros Hty Hrd Hc Ho Hn Hoff Hnum.
  destruct (sparse_read_range v offset num m buff Hty Hrd Hc Ho Hn Hoff Hnum)
    as (H1 & _ & H3 & H4 & H5).
  cbv zeta. split; [exact H1|]. split; [exact H3|]. split; [exact H4 | exact H5].
Qed.

Lemma served_sector_dense v offset s :
  0 < sect_per_block v -> 0 <= offset <= s ->
  (forall k, block_entry v offset s <= k < s -> disk_bit v k = true) ->
  served_sector v offset s = s.
Proof.
  intros Hp Hs Hall.
  destruct (block_entry_facts v offset s Hp Hs) as (He & _).
  unfold served_sector. rewrite set_count_full.
  - rewrite Z2Nat.id by lia. lia.
  - intros k Hk. rewrite Z2Nat.id in Hk by lia. apply Hall. lia.
Qed.

(** X7.  On a sparse image that can serve its disk (its file is at most
    4 GiB long and holds every allocated block, the bitmap fits and a block
    is below 2 GiB), with a sound cache, for a range inside the disk:
    [mvhd_sparse_read] returns the image's own bytes for a sector of the
    range (the stored sector when the bit is set, zeros when it is not)
    whenever no hole comes before the sector on the read's way through the
    sector's block: every sector from [block_entry], where the read entered
    the block, up to the sector has its bit set.  So a range of stored
    sectors only is read back right, across blocks too. *)
Theorem sparse_read_right_after_no_hole v offset num m buff :
  disk_type (footer v) <> MVHD_TYPE_FIXED -> readable v -> cache_ok v ->
  is_int offset -> is_int num -> 0 <= offset -> 0 <= num ->
  offset + num <= total_sectors v ->
  let r := mvhd_sparse_read v offset num m buff in
  fst (fst r) = 0 /\
  (forall s b, offset <= s < offset + num -> 0 <= b < MVHD_SECTOR_SIZE ->
     (forall k, block_entry v offset s <= k < s -> disk_bit v k = true) ->
     snd r (buff + (s - offset) * MVHD_SECTOR_SIZE + b) = image_byte v s b) /\
  ((forall s, offset <= s < offset + num -> disk_bit v s = true) ->
   forall s b, offset <= s < offset + num -> 0 <= b < MVHD_SECTOR_SIZE ->
     snd r (buff + (s - offset) * MVHD_SECTOR_SIZE + b) = stored_byte v s b).
Proof.
  intros Hty Hrd Hc Ho Hn Hoff Hnum Hin.
  destruct (sparse_read_range v offset num m buff Hty Hrd Hc Ho Hn ltac:(lia) Hnum)
    as (H1 & _ & _ & H4 & _).
  rewrite Z.min_l in H1, H4 by lia.
  destruct (readable_sparse v Hty Hrd) as ((Hspb & _) & _).
  assert (Himg : forall s b, image_byte v s b = if disk_bit v s then stored_byte v s b else 0).
  { intros s b. unfold image_byte. destruct (disk_type (footer v)); [congruence | |]; reflexivity. }
  cbv zeta. split; [lia|]. split.
  - intros s b Hs Hb Hall. rewrite (H4 s b Hs Hb), Himg.
    rewrite (served_sector_dense v offset s Hspb ltac:(lia) Hall). reflexivity.
  - intros Hall s b Hs Hb. rewrite (H4 s b Hs Hb), (Hall s Hs).
    rewrite (served_sector_dense v offset s Hspb ltac:(lia)); [reflexivity|].
    intros k Hk. apply Hall.
    destruct (block_entry_facts v offset s Hspb ltac:(lia)) as (He & _). lia.
Qed.

(** X8.  The cursor of [mvhd_sparse_read] does not move over a hole.  On a
    sparse image that can serve its disk (its file is at most 4 GiB long and
    holds every allocated block, the bitmap fits and a block is below
    2 GiB), with a sound cache: when a read of two sectors or more inside
    the disk starts at a sector [s] whose bit is unset and goes on to sector
    [s + 1] of the same block whose bit is set, the slot of [s] is filled
    with zeros and the slot of [s + 1] receives the bytes stored in the data
    sector of [s], not those of [s + 1]. *)
Theorem sparse_read_hole_then_data v s num m buff :
  disk_type (footer v) <> MVHD_TYPE_FIXED -> readable v -> cache_ok v ->
  is_int s -> is_int num -> 0 <= s -> 2 <= num -> s + 2 <= total_sectors v ->
  (s + 1) / sect_per_block v = s / sect_per_block v ->
  disk_bit v s = false -> disk_bit v (s + 1) = true ->
  let r := mvhd_sparse_read v s num m buff in
  (forall b, 0 <= b < MVHD_SECTOR_SIZE -> snd r (buff + b) = 0) /\
  (forall b, 0 <= b < MVHD_SECTOR_SIZE ->
     snd r (buff + MVHD_SECTOR_SIZE + b) = stored_byte v s b).
Proof.
  intros Hty Hrd Hc Ho Hn H0 Hnum Hin Hblk Hb0 Hb1.
  destruct (sparse_read_range v s num m buff Hty Hrd Hc Ho Hn ltac:(lia) ltac:(lia))
    as (_ & _ & _ & H4 & _).
  destruct (readable_sparse v Hty Hrd) as ((Hspb & _) & _).
  cbv zeta. split.
  - intros b Hb. pose proof (H4 s b ltac:(lia) Hb) as H.
    rewrite Hb0 in H. rewrite <- H. f_equal. lia.
  - intros b Hb. pose proof (H4 (s + 1) b ltac:(lia) Hb) as H.
    rewrite Hb1 in H.
    replace (buff + (s + 1 - s) * MVHD_SECTOR_SIZE + b) with (buff + MVHD_SECTOR_SIZE + b)
      in H by lia.
    rewrite H. f_equal.
    rewrite (served_sector_next v s (s + 1) Hspb ltac:(lia));
      [|replace (s + 1 - 1) with s by lia; exact Hblk].
    replace (s + 1 - 1) with s by lia. rewrite Hb0.
    rewrite (served_sector_entry v s s Hspb ltac:(lia)) by (left; reflexivity). lia.
Qed.

(** ** Writing to allocated blocks of a sparse image *)

Lemma write_ready_facts v :
  write_ready v ->
  0 < sect_per_block v /\ 0 < sector_count (bitmap v) /\
  sector_count (bitmap v) * MVHD_SECTOR_SIZE <= INT_MAX /\
  sect_per_block v <= sector_count (bitmap v) * MVHD_SECTOR_SIZE * 8 /\
  sect_per_block v * MVHD_SECTOR_SIZE <= INT_MAX /\
  size (f v) <= 2 ^ 32.
Proof.
  intros (Hty & Hrd & _).
  destruct (readable_sparse v Hty Hrd) as ((Hspb & Hsc & Hcov) & Hblock & Hsz & _).
  repeat split; try assumption; try lia. consts; lia.
Qed.

Lemma region_data v s :
  write_ready v -> stored_in v s ->
  0 <= block_offset v (s / sect_per_block v) /\
  (block_offset v (s / sect_per_block v) + sector_count (bitmap v)) * MVHD_SECTOR_SIZE
    <= data_addr v s /\
  data_addr v s + MVHD_SECTOR_SIZE
    <= (block_offset v (s / sect_per_block v) + sector_count (bitmap v) + sect_per_block v)
       * MVHD_SECTOR_SIZE /\
  (block_offset v (s / sect_per_block v) + sector_count (bitmap v) + sect_per_block v)
    * MVHD_SECTOR_SIZE <= size (f v).
Proof.
  intros Hw (Hs & Hal).
  destruct (write_ready_facts v Hw) as (Hspb & _).
  destruct Hw as (Hty & Hrd & _).
  destruct (readable_sparse v Hty Hrd) as (_ & _ & _ & Hin).
  destruct (Hin s Hs Hal) as [Hbo Hend].
  pose proof (Z.mod_pos_bound s (sect_per_block v) Hspb).
  unfold data_addr. consts. repeat split; lia.
Qed.

Lemma data_sectors_apart v s1 s2 :
  write_ready v -> stored_in v s1 -> stored_in v s2 -> s1 <> s2 ->
  data_addr v s1 + MVHD_SECTOR_SIZE <= data_addr v s2
  \/ data_addr v s2 + MVHD_SECTOR_SIZE <= data_addr v s1.
Proof.
  intros Hw H1 H2 Hne.
  destruct (write_ready_facts v Hw) as (Hspb & Hsc & _).
  destruct (Z.eq_dec (s1 / sect_per_block v) (s2 / sect_per_block v)) as [E | N].
  - rewrite (data_addr_same_block v s1 s2 Hspb E). consts; lia.
  - pose proof (region_data v s1 Hw H1) as R1. pose proof (region_data v s2 Hw H2) as R2.
    destruct Hw as (_ & _ & Hdis).
    destruct (Hdis s1 s2 (proj1 H1) (proj1 H2) N (proj2 H1) (proj2 H2)); consts; lia.
Qed.

Lemma data_bitmap_apart v s1 s2 :
  write_ready v -> stored_in v s1 -> stored_in v s2 ->
  (block_offset v (s2 / sect_per_block v) + sector_count (bitmap v)) * MVHD_SECTOR_SIZE
    <= data_addr v s1
  \/ data_addr v s1 + MVHD_SECTOR_SIZE <= block_offset v (s2 / sect_per_block v) * MVHD_SECTOR_SIZE.
Proof.
  intros Hw H1 H2.
  pose proof (region_data v s1 Hw H1) as R1. pose proof (region_data v s2 Hw H2) as R2.
  destruct (write_ready_facts v Hw) as (Hspb & Hsc & _).
  destruct (Z.eq_dec (s1 / sect_per_block v) (s2 / sect_per_block v)) as [E | N].
  - rewrite <- E. left. lia.
  - destruct Hw as (_ & _ & Hdis).
    destruct (Hdis s1 s2 (proj1 H1) (proj1 H2) N (proj2 H1) (proj2 H2)); consts; lia.
Qed.

Lemma bitmaps_apart v s1 s2 :
  write_ready v -> stored_in v s1 -> stored_in v s2 ->
  s1 / sect_per_block v <> s2 / sect_per_block v ->
  (block_offset v (s1 / sect_per_block v) + sector_count (bitmap v)) * MVHD_SECTOR_SIZE
    <= block_offset v (s2 / sect_per_block v) * MVHD_SECTOR_SIZE
  \/ (block_offset v (s2 / sect_per_block v) + sector_count (bitmap v)) * MVHD_SECTOR_SIZE
    <= block_offset v (s1 / sect_per_block v) * MVHD_SECTOR_SIZE.
Proof.
  intros Hw H1 H2 N.
  destruct (write_ready_facts v Hw) as (Hspb & Hsc & _).
  destruct Hw as (_ & _ & Hdis).
  destruct (Hdis s1 s2 (proj1 H1) (proj1 H2) N (proj2 H1) (proj2 H2)); consts; lia.
Qed.

Lemma bit_byte_range v s :
  0 < sect_per_block v -> sect_per_block v <= sector_count (bitmap v) * MVHD_SECTOR_SIZE * 8 ->
  0 <= s ->
  0 <= Z.quot (s mod sect_per_block v) 8 < sector_count (bitmap v) * MVHD_SECTOR_SIZE.
Proof.
  intros Hp Hcov Hs. pose proof (Z.mod_pos_bound s (sect_per_block v) Hp).
  rewrite Z.quot_div_nonneg by lia.
  split; [apply Z.div_pos; lia | apply Z.div_lt_upper_bound; lia].
Qed.

(** The bit on disk depends on the block's bitmap sectors only. *)
Lemma disk_bit_ext v v' s :
  write_ready v -> same_layout v v' -> stored_in v s ->
  (forall i, 0 <= i < sector_count (bitmap v) * MVHD_SECTOR_SIZE ->
     data (f v') (block_offset v (s / sect_per_block v) * MVHD_SECTOR_SIZE + i)
     = data (f v) (block_offset v (s / sect_per_block v) * MVHD_SECTOR_SIZE + i)) ->
  disk_bit v' s = disk_bit v s.
Proof.
  intros Hw (_ & _ & Hbo & Hp & _) (Hs & Hal) Hbytes.
  destruct (write_ready_facts v Hw) as (Hspb & _ & _ & Hcov & _).
  unfold disk_bit. rewrite Hbo, Hp.
  apply Z.eqb_neq in Hal. rewrite Hal. f_equal.
  apply VHD_TESTBIT_byte. apply Hbytes.
  apply bit_byte_range; [exact Hspb | exact Hcov | lia].
Qed.

Lemma eff_bit_sound v s :
  bitmap_fits v -> cache_ok v -> 0 <= s -> eff_bit v s = disk_bit v s.
Proof.
  intros Hfit Hc Hs. unfold eff_bit.
  destruct (Z.eqb_spec (curr_block (bitmap v)) (s / sect_per_block v)) as [E | N];
    [|reflexivity].
  rewrite <- (Z.rem_mod_nonneg s (sect_per_block v)) by (destruct Hfit; lia).
  apply cached_bit; assumption.
Qed.

Lemma same_layout_refl v : same_layout v v.
Proof. repeat split. Qed.

Lemma same_layout_trans v1 v2 v3 : same_layout v1 v2 -> same_layout v2 v3 -> same_layout v1 v3.
Proof.
  unfold same_layout.
  intros (a1 & a2 & a3 & a4 & a5 & a6) (b1 & b2 & b3 & b4 & b5 & b6).
  repeat split; congruence.
Qed.

Lemma write_ready_layout v v' : same_layout v v' -> write_ready v -> write_ready v'.
Proof.
  intros (Hf & Hsp & Hbo & Hp & Hc & Hsz) (Hty & Hrd & Hdis).
  unfold write_ready. rewrite Hf. split; [exact Hty|]. split.
  - unfold readable, bitmap_fits in *.
    rewrite (total_sectors_footer _ _ Hf), Hf, Hsz, Hbo, Hp, Hc. exact Hrd.
  - unfold regions_disjoint in *.
    rewrite (total_sectors_footer _ _ Hf), Hbo, Hp, Hc. exact Hdis.
Qed.

Lemma stored_in_layout v v' s : same_layout v v' -> stored_in v s -> stored_in v' s.
Proof.
  intros (Hf & _ & Hbo & Hp & _) H. unfold stored_in in *.
  rewrite (total_sectors_footer _ _ Hf), Hbo, Hp. exact H.
Qed.

Lemma data_addr_layout v v' s : same_layout v v' -> data_addr v' s = data_addr v s.
Proof.
  intros (_ & _ & Hbo & Hp & Hc & _). unfold data_addr. rewrite Hbo, Hp, Hc. reflexivity.
Qed.

Lemma in_sectors_next offset s s' :
  offset <= s -> in_sectors offset (s + 1) s' = in_sectors offset s s' || (s' =? s).
Proof.
  intros H. unfold in_sectors.
  destruct (Z.leb_spec offset s'), (Z.ltb_spec s' (s + 1)), (Z.ltb_spec s' s),
    (Z.eqb_spec s' s); cbn; try reflexivity; lia.
Qed.

Lemma same_block_same_sector p s s' :
  0 < p -> s / p = s' / p -> (s' mod p =? s mod p) = (s' =? s).
Proof.
  intros Hp Hd. rewrite !mod_as_sub by exact Hp. rewrite Hd.
  destruct (Z.eqb_spec s' s), (Z.eqb_spec (s' - s' / p * p) (s - s' / p * p));
    try reflexivity; lia.
Qed.

(** Flushing the cache of a stored block: the data sectors stay, and the bits
    on disk become the bits the handle saw. *)
Lemma flush_keeps v0 v sp :
  write_ready v0 -> same_layout v0 v -> stored_in v0 sp ->
  curr_block (bitmap v) = sp / sect_per_block v0 ->
  let w := mvhd_write_curr_sect_bitmap v in
  same_layout v0 w /\ bitmap w = bitmap v /\ cache_ok w /\
  (forall s' b, stored_in v0 s' -> 0 <= b < MVHD_SECTOR_SIZE ->
     data (f w) (data_addr v0 s' + b) = data (f v) (data_addr v0 s' + b)) /\
  (forall s', stored_in v0 s' -> disk_bit w s' = eff_bit v s').
Proof.
  intros Hw Hl Hsp Hcb w.
  destruct (write_ready_facts v0 Hw) as (Hspb & Hsc & Hscmax & Hcov & Hblk & Hsz).
  pose proof (region_data v0 sp Hw Hsp) as (Hbo & Hr1 & Hr2 & Hr3).
  pose proof Hl as (Lf & Lsp & Lbo & Lp & Lc & Lsz).
  assert (Hcur : 0 <= curr_block (bitmap v))
    by (rewrite Hcb; apply Z.div_pos; [destruct Hsp; lia | lia]).
  pose proof (flush_spec v) as HF. cbv zeta in HF. fold w in HF.
  rewrite Lbo, Lc, Lsz, Hcb in HF.
  specialize (HF ltac:(rewrite <- Hcb; exact Hcur) Hbo ltac:(consts; lia) Hsc).
  destruct HF as (Hin & Hout & Hsize & Hbm & Hbat & Hfo & Hspa & Hpp).
  assert (Hlw : same_layout v0 w).
  { unfold same_layout. rewrite Hbm, Hbat, Hfo, Hspa, Hpp, Hsize.
    repeat split; try assumption. consts; lia. }
  split; [exact Hlw|]. split; [exact Hbm|]. split.
  { unfold cache_ok. rewrite Hbm, Hbat, Lc, Hcb. intros _ i Hi.
    destruct Hsp as [_ Hal]. apply Z.eqb_neq in Hal. rewrite Hal.
    symmetry. apply Hin. exact Hi. }
  split.
  { intros s' b Hs' Hb. apply Hout.
    - pose proof (region_data v0 s' Hw Hs'). consts; lia.
    - destruct (data_bitmap_apart v0 s' sp Hw Hs' Hsp); consts; lia. }
  intros s' Hs'.
  pose proof (region_data v0 s' Hw Hs') as (Hbo' & Hq1 & Hq2 & Hq3).
  unfold eff_bit. rewrite Hcb, Lp.
  destruct (Z.eqb_spec (sp / sect_per_block v0) (s' / sect_per_block v0)) as [E | N].
  - unfold disk_bit. rewrite Hpp, Hbat, Lp.
    destruct Hs' as [Hs0 Hal]. apply Z.eqb_neq in Hal. rewrite Hal. f_equal.
    apply VHD_TESTBIT_byte. rewrite <- E. apply Hin.
    apply bit_byte_range; [exact Hspb | exact Hcov | lia].
  - apply (disk_bit_ext v w s').
    + apply (write_ready_layout v0 v Hl Hw).
    + apply (same_layout_trans v v0 w); [|exact Hlw].
      unfold same_layout. repeat split; congruence.
    + apply (stored_in_layout v0 v s' Hl Hs').
    + intros i Hi. rewrite Lbo, Lp in *. rewrite Lc in Hi. apply Hout.
      * consts; lia.
      * destruct (bitmaps_apart v0 s' sp Hw Hs' Hsp ltac:(congruence)); consts; lia.
Qed.

(** Loading the bitmap of a stored block into a cache that is sound or was
    just flushed. *)
Lemma load_keeps v0 v s :
  write_ready v0 -> same_layout v0 v -> stored_in v0 s ->
  let v' := mvhd_read_sect_bitmap v (s / sect_per_block v0) in
  same_image v v' /\ same_layout v0 v' /\ cache_ok v' /\
  curr_block (bitmap v') = s / sect_per_block v0 /\
  pos (f v')
  = (block_offset v0 (s / sect_per_block v0) + sector_count (bitmap v0)) * MVHD_SECTOR_SIZE /\
  (forall s', stored_in v0 s' -> eff_bit v' s' = disk_bit v s').
Proof.
  intros Hw Hl Hs v'.
  destruct (write_ready_facts v0 Hw) as (Hspb & Hsc & Hscmax & Hcov & Hblk & Hsz).
  pose proof (region_data v0 s Hw Hs) as (Hbo & Hr1 & Hr2 & Hr3).
  pose proof Hl as (Lf & Lsp & Lbo & Lp & Lc & Lsz).
  pose proof (read_sect_bitmap_alloc v (s / sect_per_block v0)) as HL. cbv zeta in HL.
  fold v' in HL. rewrite Lbo, Lc, Lsz in HL.
  specialize (HL (proj2 Hs) Hbo ltac:(consts; lia) ltac:(consts; lia) Hsz).
  destruct HL as (Hsame & Hmk & Hpos & Hload).
  pose proof Hsame as (Sd & Ssz & Sf & Ssp & Sbo & Sp & Sc).
  assert (Hl' : same_layout v0 v').
  { unfold same_layout. repeat split; congruence. }
  assert (Hc' : cache_ok v').
  { unfold cache_ok. rewrite Hmk, Sbo, Lbo, Sc, Lc, Sd. intros _ i Hi.
    destruct Hs as [_ Hal]. apply Z.eqb_neq in Hal. rewrite Hal. apply Hload. exact Hi. }
  split; [exact Hsame|]. split; [exact Hl'|]. split; [exact Hc'|].
  split; [exact Hmk|]. split; [exact Hpos|].
  intros s' Hs'.
  assert (Hfit' : bitmap_fits v').
  { unfold bitmap_fits. destruct Hl' as (_ & _ & _ & P & C & _). rewrite P, C.
    repeat split; consts; lia. }
  rewrite (eff_bit_sound v' s' Hfit' Hc') by (destruct Hs'; lia).
  apply disk_bit_same. exact Hsame.
Qed.

(** Storing sector [s] once the handle is placed on it. *)
Lemma store_sector v0 m buff offset s v1 :
  write_ready v0 -> stored_in v0 s -> 0 <= offset <= s ->
  write_placed v0 m buff offset s v1 ->
  write_inv v0 m buff offset (s + 1)
    {| wr_vhdm :=
         with_curr_bitmap
           (with_f v1 (fwrite (f v1) m (buff + (s - offset) * MVHD_SECTOR_SIZE) MVHD_SECTOR_SIZE))
           (VHD_SETBIT (curr_bitmap (bitmap v1)) (s mod sect_per_block v0));
       wr_prev_blk := s / sect_per_block v0;
       wr_buff := buff + (s - offset) * MVHD_SECTOR_SIZE + MVHD_SECTOR_SIZE |}.
Proof.
  intros Hw Hs Hoff (Hl & Hdata & Hbits & Hcb & Hpos).
  destruct (write_ready_facts v0 Hw) as (Hspb & Hsc & Hscmax & Hcov & Hblk & Hsz).
  pose proof (region_data v0 s Hw Hs) as (Hbo & Hr1 & Hr2 & Hr3).
  pose proof Hl as (Lf & Lsp & Lbo & Lp & Lc & Lsz).
  set (p := buff + (s - offset) * MVHD_SECTOR_SIZE).
  set (f2 := fwrite (f v1) m p MVHD_SECTOR_SIZE).
  assert (Hn : 0 <= MVHD_SECTOR_SIZE < 2 ^ 64) by (consts; lia).
  assert (Hsz2 : size f2 = size (f v0)).
  { subst f2. rewrite fwrite_size by (try exact Hn; rewrite Hpos, Lsz; consts; lia).
    rewrite Hpos, Lsz. consts; lia. }
  assert (Hout : forall j, j < size (f v0) ->
            ~ (data_addr v0 s <= j < data_addr v0 s + MVHD_SECTOR_SIZE) ->
            data f2 j = data (f v1) j).
  { intros j Hj Hx. subst f2. apply fwrite_out; [exact Hn | rewrite Lsz; exact Hj |].
    rewrite Hpos. exact Hx. }
  set (v2 := with_curr_bitmap (with_f v1 f2)
               (VHD_SETBIT (curr_bitmap (bitmap v1)) (s mod sect_per_block v0))).
  assert (Hl2 : same_layout v0 v2).
  { unfold same_layout, v2. proj. repeat split; assumption. }
  unfold write_inv. cbn [wr_vhdm wr_prev_blk wr_buff]. fold v2.
  split; [exact Hl2|]. split.
  { intros s' b Hs' Hb. unfold v2. proj. rewrite in_sectors_next by lia.
    destruct (Z.eqb_spec s' s) as [-> | Hne].
    - rewrite orb_true_r. subst f2. rewrite <- Hpos.
      rewrite fwrite_in by (consts; lia). subst p. reflexivity.
    - rewrite orb_false_r. rewrite Hout.
      + apply Hdata; assumption.
      + pose proof (region_data v0 s' Hw Hs'). consts; lia.
      + destruct (data_sectors_apart v0 s' s Hw Hs' Hs Hne); consts; lia. }
  split.
  { intros s' Hs'. rewrite in_sectors_next by lia.
    rewrite <- orb_assoc, (orb_comm (s' =? s)), orb_assoc, <- (Hbits s' Hs').
    assert (Hcb2 : curr_block (bitmap v2) = s / sect_per_block v0) by exact Hcb.
    assert (Hp2 : sect_per_block v2 = sect_per_block v0) by exact Lp.
    assert (Hbm2 : curr_bitmap (bitmap v2)
                   = VHD_SETBIT (curr_bitmap (bitmap v1)) (s mod sect_per_block v0))
      by reflexivity.
    unfold eff_bit. rewrite Hcb2, Hp2, Hbm2, Hcb, Lp.
    destruct (Z.eqb_spec (s / sect_per_block v0) (s' / sect_per_block v0)) as [E | N].
    - rewrite VHD_SETBIT_testbit
        by (apply Z.mod_pos_bound; exact Hspb).
      rewrite (same_block_same_sector _ s s' Hspb E). apply orb_comm.
    - destruct (Z.eqb_spec s' s) as [-> | Hne]; [congruence|].
      rewrite orb_false_r.
      apply (disk_bit_ext v1 v2 s').
      + apply (write_ready_layout v0 v1 Hl Hw).
      + apply (same_layout_trans v1 v0 v2); [|exact Hl2].
        unfold same_layout. repeat split; congruence.
      + apply (stored_in_layout v0 v1 s' Hl Hs').
      + intros i Hi. rewrite Lbo, Lp in *. rewrite Lc in Hi.
        unfold v2. proj. apply Hout.
        * pose proof (region_data v0 s' Hw Hs'). consts; lia.
        * destruct (data_bitmap_apart v0 s s' Hw Hs Hs'); consts; lia. }
  split; [intros; lia|]. split.
  { intros _. replace (s + 1 - 1) with s by lia.
    unfold v2. proj. split; [reflexivity|]. split; [exact Hcb|].
    subst f2. rewrite fwrite_pos by exact Hn. rewrite Hpos. reflexivity. }
  subst p. consts; lia.
Qed.

Lemma eff_bit_seek v off w s : eff_bit (with_f v (fseeko64 (f v) off w)) s = eff_bit v s.
Proof.
  unfold eff_bit, disk_bit. proj. rewrite fseeko64_data. reflexivity.
Qed.

Lemma same_layout_seek v0 v off w :
  same_layout v0 v -> same_layout v0 (with_f v (fseeko64 (f v) off w)).
Proof.
  intros (Lf & Lsp & Lbo & Lp & Lc & Lsz). unfold same_layout. proj.
  rewrite fseeko64_size. repeat split; assumption.
Qed.

(** One turn of the loop of [mvhd_sparse_diff_write] on a stored sector. *)
Lemma write_step v0 m buff offset s st :
  write_ready v0 -> stored_in v0 s -> 0 <= offset <= s ->
  (offset < s -> stored_in v0 (s - 1)) ->
  write_inv v0 m buff offset s st ->
  write_inv v0 m buff offset (s + 1) (sparse_diff_write_body m s st).
Proof.
  intros Hw Hs Hoff Hprev (Hl & Hdata & Hbits & Hfirst & Hlater & Hbuff).
  destruct (write_ready_facts v0 Hw) as (Hspb & Hsc & Hscmax & Hcov & Hblk & Hsz).
  pose proof (region_data v0 s Hw Hs) as (Hbo & Hr1 & Hr2 & Hr3).
  pose proof Hl as (Lf & Lsp & Lbo & Lp & Lc & Lsz).
  destruct st as [v prev b]. cbn [wr_vhdm wr_prev_blk wr_buff] in *.
  assert (Hs0 : 0 <= s) by lia.
  assert (Hsib : 0 <= s mod sect_per_block v0 < sect_per_block v0)
    by (apply Z.mod_pos_bound; exact Hspb).
  assert (Hblk0 : 0 <= s / sect_per_block v0) by (apply Z.div_pos; lia).
  assert (Haddr : data_addr v0 s
                  = (block_offset v0 (s / sect_per_block v0) + sector_count (bitmap v0))
                    * MVHD_SECTOR_SIZE + s mod sect_per_block v0 * MVHD_SECTOR_SIZE)
    by (unfold data_addr; lia).
  unfold sparse_diff_write_body. cbv zeta. cbn [wr_vhdm wr_prev_blk wr_buff].
  rewrite Lp, Lbo. rewrite Z.quot_div_nonneg, Z.rem_mod_nonneg by lia.
  destruct Hs as [Hsr Hal]. pose proof Hal as Hal'. apply Z.eqb_neq in Hal'.
  rewrite Hal'. cbv iota. rewrite ?Lbo, ?Lc, Hbuff.
  assert (Hs : stored_in v0 s) by (split; assumption).
  destruct (Z.eqb_spec (s / sect_per_block v0) prev) as [Eprev | Nprev];
    cbn [negb].
  - (* still in the block of the sector before *)
    assert (Hlt : offset < s).
    { destruct (Z.eq_dec s offset) as [E | N]; [|lia].
      destruct (Hfirst E) as [Hp _]. lia. }
    destruct (Hlater Hlt) as (Hp & Hcb & Hpos).
    rewrite <- Eprev.
    apply (store_sector v0 m buff offset s v Hw Hs Hoff).
    unfold write_placed. split; [exact Hl|]. split; [exact Hdata|].
    split; [exact Hbits|]. split; [congruence|].
    rewrite Hpos.
    rewrite (data_addr_same_block v0 (s - 1) s Hspb) by congruence. lia.
  - destruct (Z.eqb_spec (curr_block (bitmap v)) (s / sect_per_block v0)) as [Ecur | Ncur];
      cbn [negb].
    + (* the cache is on the block already: only at the first sector *)
      rewrite uint32_id by (consts; lia).
      set (v1 := with_f v (fseeko64 (f v) _ SEEK_SET)).
      apply (store_sector v0 m buff offset s v1 Hw Hs Hoff).
      unfold write_placed, v1.
      split; [apply same_layout_seek; exact Hl|].
      split; [proj; rewrite fseeko64_data; exact Hdata|].
      split; [intros s' Hs'; rewrite eff_bit_seek; apply Hbits; exact Hs'|].
      split; [exact Ecur|].
      proj. rewrite fseeko64_set by (consts; lia). unfold data_addr. reflexivity.
    + (* a new block: flush, load, place the cursor *)
      rewrite int32_id by (consts; lia).
      assert (Hnav : exists v1,
        (if 0 <=? prev then mvhd_write_curr_sect_bitmap v else v) = v1 /\
        same_layout v0 v1 /\
        (forall s' b, stored_in v0 s' -> 0 <= b < MVHD_SECTOR_SIZE ->
           data (f v1) (data_addr v0 s' + b) = data (f v) (data_addr v0 s' + b)) /\
        (forall s', stored_in v0 s' -> disk_bit v1 s' = eff_bit v s')).
      { destruct (Z.eq_dec s offset) as [E | N].
        - destruct (Hfirst E) as [Hp Hc]. rewrite Hp.
          change (0 <=? -1) with false. cbv iota.
          exists v. split; [reflexivity|]. split; [exact Hl|].
          split; [reflexivity|].
          intros s' Hs'. symmetry. apply eff_bit_sound; [|exact Hc | destruct Hs'; lia].
          unfold bitmap_fits. rewrite Lp, Lc. repeat split; consts; lia.
        - destruct (Hlater ltac:(lia)) as (Hp & Hcb & Hpos).
          assert (H0 : 0 <= prev)
            by (rewrite Hp; apply Z.div_pos; lia).
          apply Z.leb_le in H0. rewrite H0.
          pose proof (flush_keeps v0 v (s - 1) Hw Hl (Hprev ltac:(lia)) Hcb) as HF.
          cbv zeta in HF. destruct HF as (Hlw & _ & _ & Hdw & Hbw).
          exists (mvhd_write_curr_sect_bitmap v).
          split; [reflexivity|]. split; [exact Hlw|]. split; [exact Hdw | exact Hbw]. }
      destruct Hnav as (v1 & -> & Hl1 & Hd1 & Hb1).
      pose proof (load_keeps v0 v1 s Hw Hl1 Hs) as HL. cbv zeta in HL.
      set (v' := mvhd_read_sect_bitmap v1 (s / sect_per_block v0)) in *.
      destruct HL as (Hsame & Hl' & Hc' & Hmk & Hpos & Hef).
      set (v2 := with_f v' (fseeko64 (f v') _ SEEK_CUR)).
      apply (store_sector v0 m buff offset s v2 Hw Hs Hoff).
      unfold write_placed, v2.
      split; [apply same_layout_seek; exact Hl'|].
      split.
      { intros s' b0 Hs' Hb0. proj. rewrite fseeko64_data.
        destruct Hsame as (Sd & _). rewrite Sd, Hd1 by assumption.
        apply Hdata; assumption. }
      split.
      { intros s' Hs'. rewrite eff_bit_seek, (Hef s' Hs'), (Hb1 s' Hs').
        apply Hbits; exact Hs'. }
      split; [exact Hmk|].
      proj. rewrite fseeko64_cur by (rewrite Hpos; consts; lia).
      rewrite Hpos, Haddr. reflexivity.
Qed.

Lemma in_sectors_empty lo s : in_sectors lo lo s = false.
Proof.
  unfold in_sectors. destruct (Z.leb_spec lo s), (Z.ltb_spec s lo); cbn; try reflexivity; lia.
Qed.

Lemma in_sectors_true lo hi s : lo <= s < hi -> in_sectors lo hi s = true.
Proof.
  intros H. unfold in_sectors.
  destruct (Z.leb_spec lo s), (Z.ltb_spec s hi); cbn; try reflexivity; lia.
Qed.

(** The loop of [mvhd_sparse_diff_write] over stored sectors. *)
Lemma write_loop_from v0 m buff offset : forall (n : nat) (k : Z) (st : wr_state),
  write_ready v0 -> 0 <= offset <= k ->
  (forall s, offset <= s < k + Z.of_nat n -> stored_in v0 s) ->
  write_inv v0 m buff offset k st ->
  write_inv v0 m buff offset (k + Z.of_nat n)
    (for_range n k (sparse_diff_write_body m) st).
Proof.
  intros n k st Hw Hk Hall Hinv.
  apply (for_range_inv (write_inv v0 m buff offset)); [exact Hinv|].
  intros s a Hs Ha. apply write_step; try assumption.
  - apply Hall; lia.
  - lia.
  - intros Hlt. apply Hall; lia.
Qed.

(** The flush that ends [mvhd_sparse_diff_write]. *)
Lemma write_flush v0 m buff offset e st :
  write_ready v0 -> offset < e -> stored_in v0 (e - 1) ->
  write_inv v0 m buff offset e st ->
  let w := mvhd_write_curr_sect_bitmap (wr_vhdm st) in
  same_layout v0 w /\ cache_ok w /\
  (forall s b, stored_in v0 s -> 0 <= b < MVHD_SECTOR_SIZE ->
     stored_byte w s b
     = if in_sectors offset e s
       then m (buff + (s - offset) * MVHD_SECTOR_SIZE + b)
       else stored_byte v0 s b) /\
  (forall s, stored_in v0 s -> disk_bit w s = in_sectors offset e s || disk_bit v0 s).
Proof.
  intros Hw He Hlast (Hl & Hdata & Hbits & _ & Hlater & _) w.
  destruct (Hlater He) as (_ & Hcb & _).
  pose proof (flush_keeps v0 (wr_vhdm st) (e - 1) Hw Hl Hlast Hcb) as HF.
  cbv zeta in HF. fold w in HF. destruct HF as (Hlw & _ & Hcw & Hdw & Hbw).
  split; [exact Hlw|]. split; [exact Hcw|]. split.
  - intros s b Hs Hb. rewrite !stored_byte_addr.
    rewrite (data_addr_layout v0 _ s Hlw). rewrite Hdw by assumption.
    apply Hdata; assumption.
  - intros s Hs. rewrite (Hbw s Hs). apply Hbits. exact Hs.
Qed.

Lemma write_inv_start v0 m buff offset :
  write_ready v0 -> cache_ok v0 ->
  write_inv v0 m buff offset offset {| wr_vhdm := v0; wr_prev_blk := -1; wr_buff := buff |}.
Proof.
  intros Hw Hc.
  destruct (write_ready_facts v0 Hw) as (Hspb & Hsc & Hscmax & Hcov & Hblk & Hsz).
  unfold write_inv. proj.
  split; [apply same_layout_refl|]. split.
  { intros s' b _ _. rewrite in_sectors_empty. reflexivity. }
  split.
  { intros s' Hs'. rewrite in_sectors_empty. cbn [orb].
    apply eff_bit_sound; [|exact Hc | destruct Hs'; lia].
    unfold bitmap_fits. repeat split; consts; lia. }
  split; [intros _; split; [reflexivity | exact Hc]|].
  split; [intros; lia | consts; lia].
Qed.

(** What [mvhd_sparse_diff_write] does to an image when every block of the
    range is allocated. *)
Lemma sparse_write_range v0 offset num m buff :
  write_ready v0 -> cache_ok v0 ->
  is_int offset -> is_int num -> 0 <= offset -> 0 < num ->
  offset + num <= total_sectors v0 ->
  (forall s, offset <= s < offset + num ->
     block_offset v0 (s / sect_per_block v0) <> MVHD_SPARSE_BLK) ->
  let r := mvhd_sparse_diff_write v0 offset num m buff in
  fst r = 0 /\ same_layout v0 (snd r) /\ cache_ok (snd r) /\
  (forall s b, stored_in v0 s -> 0 <= b < MVHD_SECTOR_SIZE ->
     stored_byte (snd r) s b
     = if in_sectors offset (offset + num) s
       then m (buff + (s - offset) * MVHD_SECTOR_SIZE + b)
       else stored_byte v0 s b) /\
  (forall s, stored_in v0 s ->
     disk_bit (snd r) s = in_sectors offset (offset + num) s || disk_bit v0 s).
Proof.
  intros Hw Hc Ho Hn Hoff Hnum Hend Hall r.
  destruct (check_sectors_fits offset num (total_sectors v0) Ho Hn (int32_range _)
              Hoff ltac:(lia) Hend) as [Hck Hls].
  set (st0 := {| wr_vhdm := v0; wr_prev_blk := -1; wr_buff := buff |}).
  set (st := for_range (Z.to_nat num) offset (sparse_diff_write_body m) st0).
  assert (Hr : r = (0, mvhd_write_curr_sect_bitmap (wr_vhdm st))).
  { subst r st st0. unfold mvhd_sparse_diff_write. rewrite Hck. cbn [fst snd].
    rewrite Hls. replace (offset + num - offset) with num by lia. reflexivity. }
  assert (Hstored : forall s, offset <= s < offset + num -> stored_in v0 s).
  { intros s Hs. split; [lia | apply Hall; exact Hs]. }
  assert (HP : write_inv v0 m buff offset (offset + Z.of_nat (Z.to_nat num)) st).
  { apply write_loop_from; [exact Hw | lia | | apply write_inv_start; assumption].
    intros s Hs. rewrite Z2Nat.id in Hs by lia. apply Hstored. exact Hs. }
  rewrite Z2Nat.id in HP by lia.
  pose proof (write_flush v0 m buff offset (offset + num) st Hw ltac:(lia)
                (Hstored (offset + num - 1) ltac:(lia)) HP) as HF.
  cbv zeta in HF. rewrite Hr. cbn [fst snd].
  split; [reflexivity | exact HF].
Qed.

(** Reading back a range whose sectors are all stored with their bits set. *)
Lemma read_back_stored w offset num m2 buff2 :
  write_ready w -> cache_ok w ->
  is_int offset -> is_int num -> 0 <= offset -> 0 <= num ->
  offset + num <= total_sectors w ->
  (forall s, offset <= s < offset + num -> disk_bit w s = true) ->
  let r := mvhd_sparse_read w offset num m2 buff2 in
  fst (fst r) = 0 /\
  (forall s b, offset <= s < offset + num -> 0 <= b < MVHD_SECTOR_SIZE ->
     snd r (buff2 + (s - offset) * MVHD_SECTOR_SIZE + b) = stored_byte w s b) /\
  (forall j, ~ (buff2 <= j < buff2 + num * MVHD_SECTOR_SIZE) -> snd r j = m2 j).
Proof.
  intros Hw Hcw Ho Hn Hoff Hnum Hend Hset r.
  destruct (write_ready_facts w Hw) as (Hspb & _).
  pose proof Hw as (Hty & Hrd & _).
  pose proof (sparse_read_range w offset num m2 buff2 Hty Hrd Hcw Ho Hn
                ltac:(lia) Hnum) as HR.
  cbv zeta in HR. fold r in HR.
  replace (Z.min num (total_sectors w - offset)) with num in HR by lia.
  destruct HR as (Hret & _ & _ & Hin & Hout).
  split; [lia|]. split; [|exact Hout].
  intros s b Hs Hb.
  rewrite (Hin s b Hs Hb), (Hset s Hs).
  rewrite served_sector_dense; [reflexivity | exact Hspb | lia |].
  intros k Hk. apply Hset.
  pose proof (block_entry_facts w offset s Hspb ltac:(lia)) as HB.
  cbv zeta in HB. lia.
Qed.

(** X9.  [mvhd_sparse_diff_write] on allocated blocks.  For a sparse image
    that can serve its disk, whose blocks do not overlap and whose cache is
    sound, and a request of at least one sector inside the disk whose blocks
    are all allocated: the call returns 0; it allocates nothing (the BAT and
    the length of the file are as before) and leaves the cache sound; every
    sector of the range holds the caller's bytes and has its bit set on disk;
    every other stored sector keeps its bytes and its bit. *)
Theorem sparse_write_allocated v0 offset num m buff :
  write_ready v0 -> cache_ok v0 ->
  is_int offset -> is_int num -> 0 <= offset -> 0 < num ->
  offset + num <= total_sectors v0 ->
  (forall s, offset <= s < offset + num ->
     block_offset v0 (s / sect_per_block v0) <> MVHD_SPARSE_BLK) ->
  let r := mvhd_sparse_diff_write v0 offset num m buff in
  fst r = 0 /\
  block_offset (snd r) = block_offset v0 /\ size (f (snd r)) = size (f v0) /\
  cache_ok (snd r) /\ write_ready (snd r) /\
  (forall s b, offset <= s < offset + num -> 0 <= b < MVHD_SECTOR_SIZE ->
     stored_byte (snd r) s b = m (buff + (s - offset) * MVHD_SECTOR_SIZE + b) /\
     disk_bit (snd r) s = true) /\
  (forall s b, stored_in v0 s -> ~ (offset <= s < offset + num) ->
     0 <= b < MVHD_SECTOR_SIZE ->
     stored_byte (snd r) s b = stored_byte v0 s b /\
     disk_bit (snd r) s = disk_bit v0 s).
Proof.
  intros Hw Hc Ho Hn Hoff Hnum Hend Hall r.
  destruct (sparse_write_range v0 offset num m buff Hw Hc Ho Hn Hoff Hnum Hend Hall)
    as (Hret & Hl & Hcw & Hdata & Hbits).
  fold r in Hret, Hl, Hcw, Hdata, Hbits.
  split; [exact Hret|].
  split; [apply Hl|]. split; [apply Hl|]. split; [exact Hcw|].
  split; [apply (write_ready_layout v0 _ Hl Hw)|]. split.
  - intros s b Hs Hb.
    assert (Hst : stored_in v0 s) by (split; [lia | apply Hall; exact Hs]).
    rewrite (Hdata s b Hst Hb), (Hbits s Hst), (in_sectors_true _ _ _ Hs).
    split; reflexivity.
  - intros s b Hst Hs Hb.
    assert (Hf : in_sectors offset (offset + num) s = false).
    { unfold in_sectors.
      destruct (Z.leb_spec offset s), (Z.ltb_spec s (offset + num)); cbn;
        try reflexivity; lia. }
    rewrite (Hdata s b Hst Hb), (Hbits s Hst), Hf. split; reflexivity.
Qed.

(** X10.  Round trip on allocated blocks.  For a sparse image that can serve
    its disk (its file is at most 4 GiB long and holds every allocated
    block, the bitmap fits and a block is below 2 GiB), whose blocks do not
    overlap and whose cache is sound, and a request of at least one sector
    inside the disk whose blocks are all allocated: after
    [mvhd_sparse_diff_write] of the range, [mvhd_sparse_read] of the same
    range from the handle the write left returns 0 and hands back the bytes
    that were written, whatever the read buffer held and whatever bits the
    range had before. *)
Theorem sparse_write_read_roundtrip v0 offset num m buff m2 buff2 :
  write_ready v0 -> cache_ok v0 ->
  is_int offset -> is_int num -> 0 <= offset -> 0 < num ->
  offset + num <= total_sectors v0 ->
  (forall s, offset <= s < offset + num ->
     block_offset v0 (s / sect_per_block v0) <> MVHD_SPARSE_BLK) ->
  let w := snd (mvhd_sparse_diff_write v0 offset num m buff) in
  let r := mvhd_sparse_read w offset num m2 buff2 in
  fst (fst r) = 0 /\
  forall s b, offset <= s < offset + num -> 0 <= b < MVHD_SECTOR_SIZE ->
    snd r (buff2 + (s - offset) * MVHD_SECTOR_SIZE + b)
    = m (buff + (s - offset) * MVHD_SECTOR_SIZE + b).
Proof.
  intros Hw Hc Ho Hn Hoff Hnum Hend Hall w r.
  destruct (sparse_write_range v0 offset num m buff Hw Hc Ho Hn Hoff Hnum Hend Hall)
    as (_ & Hl & Hcw & Hdata & Hbits).
  fold w in Hl, Hcw, Hdata, Hbits.
  assert (Htot : total_sectors w = total_sectors v0)
    by (apply total_sectors_footer; apply Hl).
  assert (Hset : forall s, offset <= s < offset + num -> disk_bit w s = true).
  { intros s Hs.
    assert (Hst : stored_in v0 s) by (split; [lia | apply Hall; exact Hs]).
    rewrite (Hbits s Hst), (in_sectors_true _ _ _ Hs). reflexivity. }
  pose proof (read_back_stored w offset num m2 buff2 (write_ready_layout v0 w Hl Hw) Hcw
                Ho Hn Hoff ltac:(lia) ltac:(rewrite Htot; exact Hend) Hset) as HR.
  cbv zeta in HR. fold r in HR. destruct HR as (Hret & Hin & _).
  split; [exact Hret|].
  intros s b Hs Hb.
  assert (Hst : stored_in v0 s) by (split; [lia | apply Hall; exact Hs]).
  rewrite (Hin s b Hs Hb), (Hdata s b Hst Hb), (in_sectors_true _ _ _ Hs). reflexivity.
Qed.

(** ** Allocating a block in an image that holds data *)

Lemma create_block_ready v blk :
  alloc_ready v blk ->
  let v' := mvhd_create_block v blk in
  let start := sector_align (size (f v) - MVHD_FOOTER_SIZE) in
  write_ready v' /\ bitmap v' = bitmap v /\
  footer v' = footer v /\ sparse v' = sparse v /\ sect_per_block v' = sect_per_block v /\
  block_offset v' blk * MVHD_SECTOR_SIZE = start /\
  size (f v) - MVHD_FOOTER_SIZE <= start /\
  block_offset v' blk <> MVHD_SPARSE_BLK /\
  (forall b, b <> blk -> block_offset v' b = block_offset v b) /\
  (forall i, 0 <= i < (sector_count (bitmap v) + sect_per_block v) * MVHD_SECTOR_SIZE ->
     data (f v') (start + i) = 0) /\
  (forall s, stored_in v s ->
     stored_in v' s /\ disk_bit v' s = disk_bit v s /\
     forall b, 0 <= b < MVHD_SECTOR_SIZE -> stored_byte v' s b = stored_byte v s b) /\
  (forall s, 0 <= s < total_sectors v -> s / sect_per_block v = blk -> stored_in v' s).
Proof.
  intros (Hw & Hblk & Hhole & Hvalid & Hbat & Hslot & Hbsz & Hmax & Hold) v' start.
  destruct (write_ready_facts v Hw) as (Hspb & Hsc & Hscmax & Hcov & Hblkmax & Hsz).
  assert (Hfe : 0 <= size (f v) - MVHD_FOOTER_SIZE) by lia.
  destruct (sector_align_spec _ Hfe) as (Hal1 & Hal2 & _).
  fold start in Hal1, Hal2, Hmax.
  assert (Hbs0 : 0 <= block_sz (sparse v)) by (consts; lia).
  assert (Hq : sect_per_block v <= block_sz (sparse v) / MVHD_SECTOR_SIZE).
  { apply Z.div_le_lower_bound; [consts; lia | lia]. }
  pose proof (create_block_spec v blk) as HS. cbv zeta in HS.
  rewrite Hvalid in HS. fold v' start in HS.
  specialize (HS ltac:(consts; lia) ltac:(lia) Hbs0 ltac:(consts; lia) Hblk Hbat Hslot).
  destruct HS as ((_ & _ & Hnew & Hothers) & Hzero & (Hsize & _) & _ & Hkeep & _ &
                  (Kf & Ks & Kp & Kb)).
  assert (Hstart : block_offset v' blk * MVHD_SECTOR_SIZE = start).
  { rewrite Hnew. pose proof (Z.div_mod start MVHD_SECTOR_SIZE ltac:(consts; lia)). lia. }
  assert (Hne : block_offset v' blk <> MVHD_SPARSE_BLK) by (consts; lia).
  assert (Hoth : forall s, stored_in v s ->
            block_offset v' (s / sect_per_block v) = block_offset v (s / sect_per_block v)).
  { intros s (_ & Hs). apply Hothers. intros E. rewrite E in Hs. congruence. }
  assert (Htot : total_sectors v' = total_sectors v) by (apply total_sectors_footer; exact Kf).
  assert (Hkeep' : forall s i, stored_in v s ->
            0 <= i < (sector_count (bitmap v) + sect_per_block v) * MVHD_SECTOR_SIZE ->
            data (f v') (block_offset v (s / sect_per_block v) * MVHD_SECTOR_SIZE + i)
            = data (f v) (block_offset v (s / sect_per_block v) * MVHD_SECTOR_SIZE + i)).
  { intros s i Hs Hi. destruct (Hold s Hs) as (Hb1 & Hb2).
    pose proof (region_data v s Hw Hs) as (Hbo & _).
    apply Hkeep; consts; lia. }
  assert (Hst_old : forall s, stored_in v s -> stored_in v' s).
  { intros s Hs. unfold stored_in. rewrite Htot, Kp, (Hoth s Hs). exact Hs. }
  assert (Hst_new : forall s, 0 <= s < total_sectors v -> s / sect_per_block v = blk ->
            stored_in v' s).
  { intros s Hs E. unfold stored_in. rewrite Htot, Kp, E. split; assumption. }
  split.
  { unfold write_ready. rewrite Kf. destruct Hw as (Hty & Hrd & Hdis).
    destruct (readable_sparse v Hty Hrd) as (Hfit & _ & _ & Hin).
    split; [exact Hty|]. split.
    - assert (Hrd' : bitmap_fits v' /\ sect_per_block v' * MVHD_SECTOR_SIZE <= INT_MAX /\
        size (f v') <= 2 ^ 32 /\
        forall s, 0 <= s < total_sectors v' ->
          block_offset v' (s / sect_per_block v') <> MVHD_SPARSE_BLK ->
          0 <= block_offset v' (s / sect_per_block v') /\
          (block_offset v' (s / sect_per_block v') + sector_count (bitmap v')
           + sect_per_block v') * MVHD_SECTOR_SIZE <= size (f v')).
      { unfold bitmap_fits. rewrite Htot, Kp, Kb, Hsize.
        split; [exact Hfit|]. split; [exact Hblkmax|]. split; [lia|].
        intros s Hs Hal.
        destruct (Z.eq_dec (s / sect_per_block v) blk) as [E | N].
        - rewrite E. consts; lia.
        - rewrite (Hothers _ N) in *. destruct (Hin s Hs Hal). consts; lia. }
      unfold readable. rewrite Kf.
      destruct (disk_type (footer v)); [congruence | exact Hrd' | exact Hrd'].
    - unfold regions_disjoint. rewrite Htot, Kp, Kb.
      intros s1 s2 H1 H2 Hd A1 A2.
      destruct (Z.eq_dec (s1 / sect_per_block v) blk) as [E1 | N1];
        destruct (Z.eq_dec (s2 / sect_per_block v) blk) as [E2 | N2]; try congruence.
      + rewrite (Hothers _ N2) in *. rewrite E1.
        destruct (Hold s2 (conj H2 A2)) as (Hb & _). right. consts; lia.
      + rewrite (Hothers _ N1) in *. rewrite E2.
        destruct (Hold s1 (conj H1 A1)) as (Hb & _). left. consts; lia.
      + rewrite (Hothers _ N1), (Hothers _ N2) in *.
        apply Hdis; assumption. }
  split; [exact Kb|]. split; [exact Kf|]. split; [exact Ks|]. split; [exact Kp|].
  split; [exact Hstart|]. split; [lia|]. split; [exact Hne|]. split; [exact Hothers|].
  split.
  { intros i Hi. apply Hzero. consts; lia. }
  split; [|exact Hst_new].
  intros s Hs. split; [exact (Hst_old s Hs)|].
  pose proof (Z.mod_pos_bound s (sect_per_block v) Hspb) as Hsib.
  split.
  - unfold disk_bit. rewrite Kp, (Hoth s Hs). f_equal.
    destruct (block_offset v (s / sect_per_block v) =? MVHD_SPARSE_BLK); [reflexivity|].
    f_equal. apply VHD_TESTBIT_byte. apply Hkeep'; [exact Hs|].
    pose proof (bit_byte_range v s Hspb Hcov (proj1 (proj1 Hs))). consts; lia.
  - intros b Hb. unfold stored_byte. rewrite Kp, Kb, (Hoth s Hs).
    replace ((block_offset v (s / sect_per_block v) + sector_count (bitmap v)
              + s mod sect_per_block v) * MVHD_SECTOR_SIZE + b)
      with (block_offset v (s / sect_per_block v) * MVHD_SECTOR_SIZE
            + ((sector_count (bitmap v) + s mod sect_per_block v) * MVHD_SECTOR_SIZE + b))
      by lia.
    apply Hkeep'; [exact Hs | consts; lia].
Qed.

(** A new block holds zeros; the blocks before it keep what they held. *)
Lemma create_block_fresh v blk :
  alloc_ready v blk ->
  let v' := mvhd_create_block v blk in
  block_offset v' blk <> MVHD_SPARSE_BLK /\
  (forall s, stored_in v s ->
     stored_in v' s /\ disk_bit v' s = disk_bit v s /\
     forall b, 0 <= b < MVHD_SECTOR_SIZE -> stored_byte v' s b = stored_byte v s b) /\
  (forall s, 0 <= s < total_sectors v -> s / sect_per_block v = blk ->
     stored_in v' s /\ disk_bit v' s = false /\
     forall b, 0 <= b < MVHD_SECTOR_SIZE -> stored_byte v' s b = 0).
Proof.
  intros Hr v'.
  pose proof (create_block_ready v blk Hr) as H. cbv zeta in H. fold v' in H.
  destruct H as (Hw' & Kb & Kf & Ks & Kp & Hstart & _ & Hne & _ & Hzero & Hold & Hnew).
  destruct Hr as (Hw & _).
  destruct (write_ready_facts v Hw) as (Hspb & Hsc & Hscmax & Hcov & _).
  split; [exact Hne|]. split; [exact Hold|].
  intros s Hs E. split; [exact (Hnew s Hs E)|].
  pose proof (Z.mod_pos_bound s (sect_per_block v) Hspb) as Hsib.
  split.
  - unfold disk_bit. rewrite Kp, E.
    apply Z.eqb_neq in Hne. rewrite Hne.
    rewrite VHD_TESTBIT_zero; [reflexivity|].
    rewrite Hstart. apply Hzero.
    pose proof (bit_byte_range v s Hspb Hcov (proj1 Hs)). consts; lia.
  - intros b Hb. unfold stored_byte. rewrite Kp, Kb, E.
    replace ((block_offset v' blk + sector_count (bitmap v) + s mod sect_per_block v)
             * MVHD_SECTOR_SIZE + b)
      with (block_offset v' blk * MVHD_SECTOR_SIZE
            + ((sector_count (bitmap v) + s mod sect_per_block v) * MVHD_SECTOR_SIZE + b))
      by lia.
    rewrite Hstart. apply Hzero. consts; lia.
Qed.

(** X11.  [mvhd_create_block] in an image that holds data.  When the file
    ends with a valid footer, stays below 4 GiB, and the allocated blocks lie
    before the footer and clear of the new BAT entry, allocating block [blk]
    leaves the image writable (the new block overlaps no other); every sector
    stored before keeps its bytes and its bit; and every sector of the new
    block is now stored, with zero bytes and an unset bit. *)
Theorem create_block_keeps_image v blk :
  alloc_ready v blk ->
  let v' := mvhd_create_block v blk in
  write_ready v' /\
  block_offset v' blk <> MVHD_SPARSE_BLK /\
  (forall s, stored_in v s ->
     stored_in v' s /\ disk_bit v' s = disk_bit v s /\
     forall b, 0 <= b < MVHD_SECTOR_SIZE -> stored_byte v' s b = stored_byte v s b) /\
  (forall s, 0 <= s < total_sectors v -> s / sect_per_block v = blk ->
     stored_in v' s /\ disk_bit v' s = false /\
     forall b, 0 <= b < MVHD_SECTOR_SIZE -> stored_byte v' s b = 0).
Proof.
  intros Hr v'.
  pose proof (create_block_ready v blk Hr) as H. cbv zeta in H. fold v' in H.
  split; [apply H|]. apply create_block_fresh. exact Hr.
Qed.

(** ** Writing a range whose first block is new *)

Lemma alloc_ready_load v blk :
  alloc_ready v blk -> alloc_ready (mvhd_read_sect_bitmap v blk) blk.
Proof.
  intros (Hw & Hblk & Hhole & Hvalid & Hbat & Hslot & Hbsz & Hmax & Hold).
  destruct (write_ready_facts v Hw) as (Hspb & Hsc & Hscmax & Hcov & _).
  assert (Hfit : bitmap_fits v) by (unfold bitmap_fits; repeat split; consts; lia).
  pose proof (read_sect_bitmap_hole v blk Hhole Hfit) as H. cbv zeta in H.
  set (v1 := mvhd_read_sect_bitmap v blk) in *.
  destruct H as ((Sd & Ssz & Sf & Ssp & Sbo & Sp & Sc) & Hf & _ & _).
  assert (Hl : same_layout v v1) by (unfold same_layout; repeat split; assumption).
  unfold alloc_ready. rewrite Hf, Ssp, Sbo, Sp, Sc.
  split; [exact (write_ready_layout v v1 Hl Hw)|].
  repeat (split; [assumption|]).
  intros s Hs. apply Hold. unfold stored_in in *.
  rewrite (total_sectors_footer _ _ Sf), Sbo, Sp in Hs. exact Hs.
Qed.

(** The first turn of the loop of [mvhd_sparse_diff_write] when the block of
    the first sector is not allocated: the block is created and the sector
    stored in it. *)
Lemma write_enter_new v0 m buff offset :
  alloc_ready v0 (offset / sect_per_block v0) -> 0 <= offset < total_sectors v0 ->
  let vA := mvhd_create_block (mvhd_read_sect_bitmap v0 (offset / sect_per_block v0))
              (offset / sect_per_block v0) in
  cache_ok vA /\
  write_inv vA m buff offset (offset + 1)
    (sparse_diff_write_body m offset
       {| wr_vhdm := v0; wr_prev_blk := -1; wr_buff := buff |}).
Proof.
  intros Hr Hoff vA.
  set (blk := offset / sect_per_block v0) in *.
  pose proof Hr as (Hw & Hblk & Hhole & _).
  destruct (write_ready_facts v0 Hw) as (Hspb & Hsc & Hscmax & Hcov & Hblkmax & Hsz).
  assert (Hfit : bitmap_fits v0) by (unfold bitmap_fits; repeat split; consts; lia).
  pose proof (read_sect_bitmap_hole v0 blk Hhole Hfit) as H1. cbv zeta in H1.
  set (v1 := mvhd_read_sect_bitmap v0 blk) in *.
  destruct H1 as ((Sd & Ssz & Sf & Ssp & Sbo & Sp & Sc) & Hf & Hz & Hmk).
  pose proof (create_block_ready v1 blk (alloc_ready_load v0 blk Hr)) as HA.
  cbv zeta in HA. fold v1 vA in HA.
  destruct HA as (HwA & Kb & Kf & Ks & Kp & Hstart & _ & Hne & _ & Hzero & _ & Hnew).
  assert (HcA : cache_ok vA).
  { unfold cache_ok. rewrite Kb, Hmk. intros _ i Hi.
    pose proof Hne as Hne'. apply Z.eqb_neq in Hne'. rewrite Hne'.
    rewrite (Hz i Hi), Hstart. symmetry. apply Hzero. rewrite Sc, Sp in *. consts; lia. }
  split; [exact HcA|].
  assert (HpA : sect_per_block vA = sect_per_block v0) by congruence.
  assert (HsA : stored_in vA offset).
  { apply Hnew; [rewrite (total_sectors_footer _ _ Sf); exact Hoff | rewrite Sp; reflexivity]. }
  pose proof (region_data vA offset HwA HsA) as (Hbo & Hr1 & Hr2 & Hr3).
  destruct (write_ready_facts vA HwA) as (_ & HscA & _ & _ & _ & HszA).
  rewrite HpA in Hbo, Hr1, Hr2, Hr3. fold blk in Hbo, Hr1, Hr2, Hr3.
  pose proof (Z.mod_pos_bound offset (sect_per_block v0) Hspb) as Hsib.
  unfold sparse_diff_write_body. cbv zeta. cbn [wr_vhdm wr_prev_blk wr_buff].
  rewrite Z.quot_div_nonneg, Z.rem_mod_nonneg by lia. fold blk.
  rewrite Hhole. change (MVHD_SPARSE_BLK =? MVHD_SPARSE_BLK) with true. cbv iota.
  fold v1. fold vA.
  destruct (Z.eqb_spec blk (-1)) as [E | _]; [lia|]. cbn [negb].
  assert (HcurA : curr_block (bitmap vA) = blk) by (rewrite Kb; exact Hmk).
  rewrite HcurA, Z.eqb_refl. cbn [negb].
  rewrite uint32_id by (consts; lia).
  set (v2 := with_f vA (fseeko64 (f vA) _ SEEK_SET)).
  assert (Hplaced : write_placed vA m buff offset offset v2); cycle 1.
  { pose proof (store_sector vA m buff offset offset v2 HwA HsA ltac:(lia) Hplaced) as HS.
    replace (buff + (offset - offset) * MVHD_SECTOR_SIZE) with buff in HS by lia.
    rewrite HpA in HS. exact HS. }
  unfold write_placed, v2.
  split; [apply same_layout_seek, same_layout_refl|].
  split.
  { intros s' b _ _. rewrite in_sectors_empty. proj. rewrite fseeko64_data. reflexivity. }
  split.
  { intros s' Hs'. rewrite in_sectors_empty, eff_bit_seek. cbn [orb].
    apply eff_bit_sound; [|exact HcA | destruct Hs'; lia].
    unfold bitmap_fits. rewrite HpA, Kb, Sc. exact Hfit. }
  split; [proj; rewrite HcurA, HpA; reflexivity|].
  proj. rewrite fseeko64_set by (consts; lia).
  unfold data_addr. rewrite HpA. reflexivity.
Qed.

Lemma in_sectors_false lo hi s : ~ (lo <= s < hi) -> in_sectors lo hi s = false.
Proof.
  intros H. unfold in_sectors.
  destruct (Z.leb_spec lo s), (Z.ltb_spec s hi); cbn; try reflexivity; lia.
Qed.

(** What [mvhd_sparse_diff_write] does when the block of the first sector is
    new and every other block of the range is allocated, in terms of the
    image [vA] after the allocation. *)
Lemma sparse_write_new_range v0 offset num m buff :
  alloc_ready v0 (offset / sect_per_block v0) ->
  is_int offset -> is_int num -> 0 <= offset -> 0 < num ->
  offset + num <= total_sectors v0 ->
  (forall s, offset <= s < offset + num ->
     s / sect_per_block v0 = offset / sect_per_block v0
     \/ block_offset v0 (s / sect_per_block v0) <> MVHD_SPARSE_BLK) ->
  let vA := mvhd_create_block (mvhd_read_sect_bitmap v0 (offset / sect_per_block v0))
              (offset / sect_per_block v0) in
  let r := mvhd_sparse_diff_write v0 offset num m buff in
  fst r = 0 /\ write_ready vA /\ same_layout vA (snd r) /\ cache_ok (snd r) /\
  total_sectors vA = total_sectors v0 /\
  (forall s, offset <= s < offset + num -> stored_in vA s) /\
  (forall s b, stored_in vA s -> 0 <= b < MVHD_SECTOR_SIZE ->
     stored_byte (snd r) s b
     = if in_sectors offset (offset + num) s
       then m (buff + (s - offset) * MVHD_SECTOR_SIZE + b)
       else stored_byte vA s b) /\
  (forall s, stored_in vA s ->
     disk_bit (snd r) s = in_sectors offset (offset + num) s || disk_bit vA s).
Proof.
  intros Hr Ho Hn Hoff Hnum Hend Hall vA r.
  set (blk := offset / sect_per_block v0) in *.
  pose proof Hr as (Hw & Hblk & Hhole & _).
  destruct (write_ready_facts v0 Hw) as (Hspb & Hsc & Hscmax & Hcov & Hblkmax & Hsz).
  assert (Hfit : bitmap_fits v0) by (unfold bitmap_fits; repeat split; consts; lia).
  pose proof (read_sect_bitmap_hole v0 blk Hhole Hfit) as H1. cbv zeta in H1.
  set (v1 := mvhd_read_sect_bitmap v0 blk) in *.
  destruct H1 as ((Sd & Ssz & Sf & Ssp & Sbo & Sp & Sc) & _).
  assert (Hl1 : same_layout v0 v1) by (unfold same_layout; repeat split; assumption).
  pose proof (create_block_ready v1 blk (alloc_ready_load v0 blk Hr)) as HA.
  cbv zeta in HA. fold vA in HA.
  destruct HA as (HwA & _ & Kf & _ & _ & _ & _ & _ & _ & _ & Hold & Hnew).
  pose proof (write_enter_new v0 m buff offset Hr ltac:(lia)) as HE.
  cbv zeta in HE. fold blk v1 vA in HE. destruct HE as (_ & Hinv1).
  assert (Hstored : forall s, offset <= s < offset + num -> stored_in vA s).
  { intros s Hs. destruct (Hall s Hs) as [E | A].
    - apply Hnew; [rewrite (total_sectors_footer _ _ Sf); lia | rewrite Sp; exact E].
    - apply Hold. apply (stored_in_layout v0 v1 s Hl1). split; [lia | exact A]. }
  destruct (check_sectors_fits offset num (total_sectors v0) Ho Hn (int32_range _)
              Hoff ltac:(lia) Hend) as [Hck Hls].
  set (st0 := {| wr_vhdm := v0; wr_prev_blk := -1; wr_buff := buff |}) in *.
  set (st := for_range (Z.to_nat (num - 1)) (offset + 1) (sparse_diff_write_body m)
               (sparse_diff_write_body m offset st0)).
  assert (Hr' : r = (0, mvhd_write_curr_sect_bitmap (wr_vhdm st))).
  { subst r st st0. unfold mvhd_sparse_diff_write. rewrite Hck. cbn [fst snd].
    rewrite Hls. replace (offset + num - offset) with num by lia.
    replace (Z.to_nat num) with (S (Z.to_nat (num - 1))) by lia.
    reflexivity. }
  assert (HP : write_inv vA m buff offset (offset + 1 + Z.of_nat (Z.to_nat (num - 1))) st).
  { apply write_loop_from; [exact HwA | lia | | exact Hinv1].
    intros s Hs. rewrite Z2Nat.id in Hs by lia. apply Hstored. lia. }
  rewrite Z2Nat.id in HP by lia.
  replace (offset + 1 + (num - 1)) with (offset + num) in HP by lia.
  pose proof (write_flush vA m buff offset (offset + num) st HwA ltac:(lia)
                (Hstored (offset + num - 1) ltac:(lia)) HP) as HF.
  cbv zeta in HF. destruct HF as (F1 & F2 & F3 & F4).
  rewrite Hr'. cbn [fst snd].
  split; [reflexivity|]. split; [exact HwA|]. split; [exact F1|]. split; [exact F2|].
  split.
  { rewrite (total_sectors_footer _ _ Kf). apply total_sectors_footer. exact Sf. }
  split; [exact Hstored|]. split; [exact F3 | exact F4].
Qed.

(** X12.  [mvhd_sparse_diff_write] when the block of the first sector is not
    allocated and every other block of the range is, for a request of at
    least one sector inside the disk of an image in which the block can be
    allocated without harm ([alloc_ready]): a sparse image that can serve
    its disk and whose blocks do not overlap; a file that ends with a valid
    footer and, with the new block, is at most 4 GiB long; a block size that
    holds the block's sectors; allocated blocks that lie before the footer
    and clear of the BAT entry of the new block, which lies before the
    footer too.  The block is created and the call returns 0; every sector
    of the range holds the caller's bytes and has its bit set on disk; every
    sector stored before keeps its bytes and its bit; the sectors of the new
    block outside the range have their bit unset.  The cache of the handle
    need not be sound before the call: it is reloaded before its first use,
    and it is sound afterwards. *)
Theorem sparse_write_new_first_block v0 offset num m buff :
  alloc_ready v0 (offset / sect_per_block v0) ->
  is_int offset -> is_int num -> 0 <= offset -> 0 < num ->
  offset + num <= total_sectors v0 ->
  (forall s, offset <= s < offset + num ->
     s / sect_per_block v0 = offset / sect_per_block v0
     \/ block_offset v0 (s / sect_per_block v0) <> MVHD_SPARSE_BLK) ->
  let r := mvhd_sparse_diff_write v0 offset num m buff in
  fst r = 0 /\ cache_ok (snd r) /\ write_ready (snd r) /\
  block_offset (snd r) (offset / sect_per_block v0) <> MVHD_SPARSE_BLK /\
  (forall s b, offset <= s < offset + num -> 0 <= b < MVHD_SECTOR_SIZE ->
     stored_byte (snd r) s b = m (buff + (s - offset) * MVHD_SECTOR_SIZE + b) /\
     disk_bit (snd r) s = true) /\
  (forall s b, stored_in v0 s -> ~ (offset <= s < offset + num) ->
     0 <= b < MVHD_SECTOR_SIZE ->
     stored_byte (snd r) s b = stored_byte v0 s b /\
     disk_bit (snd r) s = disk_bit v0 s) /\
  (forall s, 0 <= s < total_sectors v0 ->
     s / sect_per_block v0 = offset / sect_per_block v0 ->
     ~ (offset <= s < offset + num) -> disk_bit (snd r) s = false).
Proof.
  intros Hr Ho Hn Hoff Hnum Hend Hall r.
  pose proof (sparse_write_new_range v0 offset num m buff Hr Ho Hn Hoff Hnum Hend Hall) as H.
  cbv zeta in H. fold r in H.
  set (blk := offset / sect_per_block v0) in *.
  set (v1 := mvhd_read_sect_bitmap v0 blk) in *.
  set (vA := mvhd_create_block v1 blk) in *.
  destruct H as (Hret & HwA & Hl & Hcw & _ & Hstored & Hdata & Hbits).
  pose proof Hr as (Hw & Hblk & Hhole & _).
  destruct (write_ready_facts v0 Hw) as (Hspb & Hsc & Hscmax & Hcov & Hblkmax & Hsz).
  assert (Hfit : bitmap_fits v0) by (unfold bitmap_fits; repeat split; consts; lia).
  pose proof (read_sect_bitmap_hole v0 blk Hhole Hfit) as H1. cbv zeta in H1.
  fold v1 in H1. destruct H1 as (Hsame & _).
  pose proof Hsame as (Sd & Ssz & Sf & Ssp & Sbo & Sp & Sc).
  assert (Hl1 : same_layout v0 v1) by (unfold same_layout; repeat split; assumption).
  pose proof (create_block_fresh v1 blk (alloc_ready_load v0 blk Hr)) as HK.
  cbv zeta in HK. fold vA in HK. destruct HK as (HneA & Hold & Hnew).
  split; [exact Hret|]. split; [exact Hcw|].
  split; [exact (write_ready_layout vA _ Hl HwA)|].
  split.
  { destruct Hl as (_ & _ & Lbo & _). rewrite Lbo. exact HneA. }
  split.
  { intros s b Hs Hb.
    rewrite (Hdata s b (Hstored s Hs) Hb), (Hbits s (Hstored s Hs)),
      (in_sectors_true _ _ _ Hs). split; reflexivity. }
  split.
  { intros s b Hst Hs Hb.
    destruct (Hold s (stored_in_layout v0 v1 s Hl1 Hst)) as (HstA & Hbit & Hbyte).
    rewrite (Hdata s b HstA Hb), (Hbits s HstA), (in_sectors_false _ _ _ Hs).
    rewrite (Hbyte b Hb), Hbit. cbn [orb].
    split; [apply stored_byte_same | apply disk_bit_same]; exact Hsame. }
  intros s Hs E Hout.
  destruct (Hnew s ltac:(rewrite (total_sectors_footer _ _ Sf); exact Hs)
              ltac:(rewrite Sp; exact E)) as (HstA & Hbit & _).
  rewrite (Hbits s HstA), (in_sectors_false _ _ _ Hout), Hbit. reflexivity.
Qed.

(** X13.  Round trip when the first block is new, under the conditions of
    X12: a request of at least one sector inside the disk, whose first block
    is not allocated and whose other blocks are, on an image in which the
    block can be allocated without harm ([alloc_ready]: a sparse image that
    can serve its disk, with blocks that do not overlap and a file that ends
    with a valid footer and, with the new block, is at most 4 GiB long; a
    block size that holds the block's sectors; allocated blocks before the
    footer and clear of the new BAT entry).  After [mvhd_sparse_diff_write]
    of the range, [mvhd_sparse_read] of the same range from the handle the
    write left returns 0 and hands back the bytes that were written. *)
Theorem sparse_new_block_roundtrip v0 offset num m buff m2 buff2 :
  alloc_ready v0 (offset / sect_per_block v0) ->
  is_int offset -> is_int num -> 0 <= offset -> 0 < num ->
  offset + num <= total_sectors v0 ->
  (forall s, offset <= s < offset + num ->
     s / sect_per_block v0 = offset / sect_per_block v0
     \/ block_offset v0 (s / sect_per_block v0) <> MVHD_SPARSE_BLK) ->
  let w := snd (mvhd_sparse_diff_write v0 offset num m buff) in
  let r := mvhd_sparse_read w offset num m2 buff2 in
  fst (fst r) = 0 /\
  forall s b, offset <= s < offset + num -> 0 <= b < MVHD_SECTOR_SIZE ->
    snd r (buff2 + (s - offset) * MVHD_SECTOR_SIZE + b)
    = m (buff + (s - offset) * MVHD_SECTOR_SIZE + b).
Proof.
  intros Hr Ho Hn Hoff Hnum Hend Hall w r.
  pose proof (sparse_write_new_range v0 offset num m buff Hr Ho Hn Hoff Hnum Hend Hall) as H.
  cbv zeta in H. fold w in H.
  destruct H as (_ & HwA & Hl & Hcw & HtA & Hstored & Hdata & Hbits).
  assert (Htot : total_sectors w = total_sectors v0).
  { rewrite (total_sectors_footer _ _ (proj1 Hl)). exact HtA. }
  assert (Hset : forall s, offset <= s < offset + num -> disk_bit w s = true).
  { intros s Hs. rewrite (Hbits s (Hstored s Hs)), (in_sectors_true _ _ _ Hs). reflexivity. }
  pose proof (read_back_stored w offset num m2 buff2 (write_ready_layout _ w Hl HwA) Hcw
                Ho Hn Hoff ltac:(lia) ltac:(rewrite Htot; exact Hend) Hset) as HR.
  cbv zeta in HR. fold r in HR. destruct HR as (Hret & Hin & _).
  split; [exact Hret|].
  intros s b Hs Hb.
  rewrite (Hin s b Hs Hb), (Hdata s b (Hstored s Hs) Hb), (in_sectors_true _ _ _ Hs).
  reflexivity.
Qed.

(** ** Zero filling *)

(** X14.  [mvhd_write_empty_sectors] writes [sector_count] sectors of zeros
    at the cursor, over whatever the file holds there: the cursor moves past
    them, the file grows only as far as they reach, and every other byte of
    the file stays.  A count of zero or less writes nothing and leaves the
    stream as it is. *)
Theorem write_empty_sectors_law f0 n :
  0 <= pos f0 <= size f0 ->
  let f' := mvhd_write_empty_sectors f0 n in
  (n <= 0 -> f' = f0) /\
  (0 <= n ->
   pos f' = pos f0 + n * MVHD_SECTOR_SIZE /\
   size f' = Z.max (size f0) (pos f0 + n * MVHD_SECTOR_SIZE) /\
   (forall i, pos f0 <= i < pos f0 + n * MVHD_SECTOR_SIZE -> data f' i = 0) /\
   (forall i, i < size f0 -> ~ (pos f0 <= i < pos f0 + n * MVHD_SECTOR_SIZE) ->
      data f' i = data f0 i)).
Proof.
  intros Hp f'. split.
  - intros Hn. subst f'. unfold mvhd_write_empty_sectors.
    replace (Z.to_nat n) with 0%nat by lia. reflexivity.
  - intros Hn.
    pose proof (write_empty_sectors_spec f0 n Hn Hp) as H. cbv zeta in H. fold f' in H.
    destruct H as (H1 & H2 & H3 & H4 & _).
    split; [exact H1|]. split; [exact H2|]. split; [exact H3 | exact H4].
Qed.

Lemma write_empty_sectors_law_witness :
  let f0 := fseeko64 (f Examples.fixed_1000) 1024 SEEK_SET in
  let f' := mvhd_write_empty_sectors f0 2 in
  pos f' = 2048 /\ size f' = size f0 /\
  (forall i, 1024 <= i < 2048 -> data f' i = 0) /\
  mvhd_write_empty_sectors f0 (-1) = f0.
Proof.
  cbv zeta.
  pose proof (write_empty_sectors_law (fseeko64 (f Examples.fixed_1000) 1024 SEEK_SET) 2
                ltac:(vm_compute; split; congruence)) as H2.
  pose proof (write_empty_sectors_law (fseeko64 (f Examples.fixed_1000) 1024 SEEK_SET) (-1)
                ltac:(vm_compute; split; congruence)) as H1.
  cbv zeta in H1, H2.
  destruct H1 as (Hneg & _). destruct H2 as (_ & Hpos).
  destruct (Hpos ltac:(lia)) as (P1 & P2 & P3 & _).
  split; [exact P1|]. split; [rewrite P2; vm_compute; reflexivity|].
  split; [|apply Hneg; lia].
  intros i Hi. apply P3. rewrite fseeko64_set by lia. unfold MVHD_SECTOR_SIZE. lia.
Defined.

(** ** The properties on the example images *)

Lemma example_cache_unset v : curr_block (bitmap v) = -1 -> cache_ok v.
Proof. intros H. unfold cache_ok. rewrite H. intros; lia. Qed.

Lemma example_parent_readable : readable ExampleChain.parent.
Proof. apply example_image_readable. congruence. Qed.

Lemma example_half_block s :
  0 <= s < 16 ->
  block_offset ExampleAlloc.half (s / sect_per_block ExampleAlloc.half) <> MVHD_SPARSE_BLK ->
  s / 8 = 1.
Proof.
  intros Hs. change (sect_per_block ExampleAlloc.half) with 8.
  cbn [ExampleAlloc.half block_offset].
  destruct (Z.eqb_spec (s / 8) 1); [lia | congruence].
Qed.

Lemma example_half_write_ready : write_ready ExampleAlloc.half.
Proof.
  unfold write_ready. split; [cbn; congruence|]. split.
  - unfold readable. cbn [ExampleAlloc.half footer disk_type].
    unfold bitmap_fits. change (total_sectors ExampleAlloc.half) with 16.
    split; [cbn; consts; lia|]. split; [cbn; consts; lia|]. split; [cbn; lia|].
    intros s Hs Hal. change (sect_per_block ExampleAlloc.half) with 8.
    rewrite (example_half_block s Hs Hal).
    cbn. consts; lia.
  - unfold regions_disjoint. change (total_sectors ExampleAlloc.half) with 16.
    intros s1 s2 H1 H2 Hd A1 A2. exfalso. apply Hd.
    change (sect_per_block ExampleAlloc.half) with 8.
    rewrite (example_half_block s1 H1 A1), (example_half_block s2 H2 A2). reflexivity.
Qed.

Lemma example_half_alloc_ready : alloc_ready ExampleAlloc.half 0.
Proof.
  unfold alloc_ready.
  split; [exact example_half_write_ready|].
  split; [lia|]. split; [reflexivity|]. split; [vm_compute; reflexivity|].
  split; [cbn; lia|]. split; [vm_compute; congruence|].
  split; [vm_compute; congruence|]. split; [vm_compute; congruence|].
  intros s (Hs & Hal). change (total_sectors ExampleAlloc.half) with 16 in Hs.
  change (sect_per_block ExampleAlloc.half) with 8.
  rewrite (example_half_block s Hs Hal). cbn. consts; lia.
Qed.

Lemma example_half_stored s :
  8 <= s < 16 ->
  block_offset ExampleAlloc.half (s / sect_per_block ExampleAlloc.half) <> MVHD_SPARSE_BLK.
Proof.
  intros Hs. change (sect_per_block ExampleAlloc.half) with 8.
  replace (s / 8) with 1 by (symmetry; apply (div_of_bounds s 8 1); lia).
  vm_compute. congruence.
Qed.

Lemma reads_never_modify_witness :
  same_image ExampleChain.parent
    (snd (fst (mvhd_sparse_read ExampleChain.parent 0 3 Examples.fresh_buffer 0))) /\
  (forall t chain' out,
     mvhd_diff_read ExampleChain.chain 0 3 Examples.fresh_buffer 0 = Some (t, chain', out) ->
     Forall2 same_image ExampleChain.chain chain').
Proof.
  destruct (reads_never_modify ExampleChain.parent ExampleChain.chain 0 3
              Examples.fresh_buffer 0) as (_ & _ & H3 & H4).
  split; [exact H3 | exact H4].
Defined.

Lemma flush_then_load_witness :
  let w := mvhd_write_curr_sect_bitmap ExampleCache.dirty in
  cache_ok w /\
  (forall i, 0 <= i < 512 ->
     curr_bitmap (bitmap (mvhd_read_sect_bitmap w 0)) i
     = curr_bitmap (bitmap ExampleCache.dirty) i).
Proof.
  pose proof (flush_then_load ExampleCache.dirty
                ltac:(vm_compute; congruence) ltac:(vm_compute; congruence)
                ltac:(vm_compute; congruence) ltac:(vm_compute; split; congruence)
                ltac:(vm_compute; congruence) ltac:(vm_compute; congruence)) as H.
  cbv zeta in H. destruct H as (H1 & _ & H3 & _).
  cbv zeta. split; [exact H1 | exact H3].
Defined.

Lemma sparse_read_serves_witness :
  let r := mvhd_sparse_read ExampleChain.parent 0 3 Examples.fresh_buffer 0 in
  fst (fst r) = 3 - Z.min 3 (total_sectors ExampleChain.parent - 0) /\
  forall s b, 0 <= s < 0 + Z.min 3 (total_sectors ExampleChain.parent - 0) ->
    0 <= b < MVHD_SECTOR_SIZE ->
    snd r (0 + (s - 0) * MVHD_SECTOR_SIZE + b)
    = if disk_bit ExampleChain.parent s
      then stored_byte ExampleChain.parent (served_sector ExampleChain.parent 0 s) b
      else 0.
Proof.
  pose proof (sparse_read_serves ExampleChain.parent 0 3 Examples.fresh_buffer 0
                ltac:(cbn; congruence)
                example_parent_readable
                (example_cache_unset ExampleChain.parent eq_refl)
                ltac:(unfold is_int, INT_MIN, INT_MAX; lia)
                ltac:(unfold is_int, INT_MIN, INT_MAX; lia)
                ltac:(vm_compute; split; congruence) ltac:(lia)) as H.
  cbv zeta in H. destruct H as (H1 & _ & H3 & _).
  cbv zeta. split; [exact H1 | exact H3].
Defined.

Lemma sparse_read_right_after_no_hole_witness :
  let r := mvhd_sparse_read ExampleChain.parent 1 2 Examples.fresh_buffer 0 in
  fst (fst r) = 0 /\
  forall b, 0 <= b < MVHD_SECTOR_SIZE ->
    snd r (0 + (1 - 1) * MVHD_SECTOR_SIZE + b) = image_byte ExampleChain.parent 1 b.
Proof.
  pose proof (sparse_read_right_after_no_hole ExampleChain.parent 1 2 Examples.fresh_buffer 0
                ltac:(cbn; congruence)
                example_parent_readable
                (example_cache_unset ExampleChain.parent eq_refl)
                ltac:(unfold is_int, INT_MIN, INT_MAX; lia)
                ltac:(unfold is_int, INT_MIN, INT_MAX; lia)
                ltac:(lia) ltac:(lia) ltac:(vm_compute; congruence)) as H.
  cbv zeta in H. destruct H as (H1 & H2 & _).
  cbv zeta. split; [exact H1|].
  intros b Hb. apply (H2 1 b ltac:(lia) Hb).
  intros k Hk.
  pose proof (block_entry_facts ExampleChain.parent 1 1 ltac:(cbn; lia) ltac:(lia)) as HB.
  cbv zeta in HB. lia.
Defined.

Lemma sparse_read_hole_then_data_witness :
  let r := mvhd_sparse_read ExampleChain.parent 0 2 Examples.fresh_buffer 0 in
  (forall b, 0 <= b < MVHD_SECTOR_SIZE -> snd r (0 + b) = 0) /\
  (forall b, 0 <= b < MVHD_SECTOR_SIZE ->
     snd r (0 + MVHD_SECTOR_SIZE + b) = stored_byte ExampleChain.parent 0 b).
Proof.
  pose proof (sparse_read_hole_then_data ExampleChain.parent 0 2 Examples.fresh_buffer 0
                ltac:(cbn; congruence)
                example_parent_readable
                (example_cache_unset ExampleChain.parent eq_refl)
                ltac:(unfold is_int, INT_MIN, INT_MAX; lia)
                ltac:(unfold is_int, INT_MIN, INT_MAX; lia)
                ltac:(lia) ltac:(lia) ltac:(vm_compute; congruence)
                ltac:(reflexivity) ltac:(vm_compute; reflexivity)
                ltac:(vm_compute; reflexivity)) as H.
  cbv zeta in H. cbv zeta. exact H.
Defined.

Lemma sparse_write_allocated_witness :
  let r := mvhd_sparse_diff_write ExampleAlloc.half 9 3 ExampleWrite.payload 0 in
  fst r = 0 /\ size (f (snd r)) = size (f ExampleAlloc.half) /\
  forall s b, 9 <= s < 9 + 3 -> 0 <= b < MVHD_SECTOR_SIZE ->
    stored_byte (snd r) s b = ExampleWrite.payload (0 + (s - 9) * MVHD_SECTOR_SIZE + b) /\
    disk_bit (snd r) s = true.
Proof.
  pose proof (sparse_write_allocated ExampleAlloc.half 9 3 ExampleWrite.payload 0
                example_half_write_ready (example_cache_unset ExampleAlloc.half eq_refl)
                ltac:(unfold is_int, INT_MIN, INT_MAX; lia)
                ltac:(unfold is_int, INT_MIN, INT_MAX; lia)
                ltac:(lia) ltac:(lia) ltac:(vm_compute; congruence)
                (fun s Hs => example_half_stored s ltac:(lia))) as H.
  cbv zeta in H. destruct H as (H1 & _ & H3 & _ & _ & H6 & _).
  cbv zeta. split; [exact H1|]. split; [exact H3 | exact H6].
Defined.

Lemma sparse_write_read_roundtrip_witness :
  let w := snd (mvhd_sparse_diff_write ExampleAlloc.half 9 3 ExampleWrite.payload 0) in
  let r := mvhd_sparse_read w 9 3 Examples.fresh_buffer 0 in
  fst (fst r) = 0 /\
  forall s b, 9 <= s < 9 + 3 -> 0 <= b < MVHD_SECTOR_SIZE ->
    snd r (0 + (s - 9) * MVHD_SECTOR_SIZE + b)
    = ExampleWrite.payload (0 + (s - 9) * MVHD_SECTOR_SIZE + b).
Proof.
  exact (sparse_write_read_roundtrip ExampleAlloc.half 9 3 ExampleWrite.payload 0
           Examples.fresh_buffer 0
           example_half_write_ready (example_cache_unset ExampleAlloc.half eq_refl)
           ltac:(unfold is_int, INT_MIN, INT_MAX; lia)
           ltac:(unfold is_int, INT_MIN, INT_MAX; lia)
           ltac:(lia) ltac:(lia) ltac:(vm_compute; congruence)
           (fun s Hs => example_half_stored s ltac:(lia))).
Defined.

Lemma create_block_keeps_image_witness :
  let v' := mvhd_create_block ExampleAlloc.half 0 in
  write_ready v' /\ block_offset v' 0 <> MVHD_SPARSE_BLK /\
  disk_bit v' 9 = disk_bit ExampleAlloc.half 9 /\ disk_bit v' 3 = false.
Proof.
  pose proof (create_block_keeps_image ExampleAlloc.half 0 example_half_alloc_ready) as H.
  cbv zeta in H. destruct H as (H1 & H2 & H3 & H4).
  cbv zeta. split; [exact H1|]. split; [exact H2|]. split.
  - apply (H3 9). split; [vm_compute; split; congruence | apply example_half_stored; lia].
  - apply (H4 3); [vm_compute; split; congruence | reflexivity].
Defined.

Lemma example_half_range s :
  6 <= s < 6 + 4 ->
  s / sect_per_block ExampleAlloc.half = 6 / sect_per_block ExampleAlloc.half
  \/ block_offset ExampleAlloc.half (s / sect_per_block ExampleAlloc.half) <> MVHD_SPARSE_BLK.
Proof.
  intros Hs. destruct (Z_lt_le_dec s 8) as [Hlt | Hge].
  - left. change (sect_per_block ExampleAlloc.half) with 8.
    rewrite (div_of_bounds s 8 0), (div_of_bounds 6 8 0) by lia. reflexivity.
  - right. apply example_half_stored. lia.
Qed.

Lemma sparse_write_new_first_block_witness :
  let r := mvhd_sparse_diff_write ExampleAlloc.half 6 4 ExampleWrite.payload 0 in
  fst r = 0 /\
  (forall s b, 6 <= s < 6 + 4 -> 0 <= b < MVHD_SECTOR_SIZE ->
     stored_byte (snd r) s b = ExampleWrite.payload (0 + (s - 6) * MVHD_SECTOR_SIZE + b) /\
     disk_bit (snd r) s = true) /\
  disk_bit (snd r) 5 = false.
Proof.
  pose proof (sparse_write_new_first_block ExampleAlloc.half 6 4 ExampleWrite.payload 0
                example_half_alloc_ready
                ltac:(unfold is_int, INT_MIN, INT_MAX; lia)
                ltac:(unfold is_int, INT_MIN, INT_MAX; lia)
                ltac:(lia) ltac:(lia) ltac:(vm_compute; congruence)
                example_half_range) as H.
  cbv zeta in H. destruct H as (H1 & _ & _ & _ & H5 & _ & H7).
  cbv zeta. split; [exact H1|]. split; [exact H5|].
  apply (H7 5); [vm_compute; split; congruence | reflexivity | lia].
Defined.

Lemma sparse_new_block_roundtrip_witness :
  let w := snd (mvhd_sparse_diff_write ExampleAlloc.half 6 4 ExampleWrite.payload 0) in
  let r := mvhd_sparse_read w 6 4 Examples.fresh_buffer 0 in
  fst (fst r) = 0 /\
  forall s b, 6 <= s < 6 + 4 -> 0 <= b < MVHD_SECTOR_SIZE ->
    snd r (0 + (s - 6) * MVHD_SECTOR_SIZE + b)
    = ExampleWrite.payload (0 + (s - 6) * MVHD_SECTOR_SIZE + b).
Proof.
  exact (sparse_new_block_roundtrip ExampleAlloc.half 6 4 ExampleWrite.payload 0
           Examples.fresh_buffer 0
           example_half_alloc_ready
           ltac:(unfold is_int, INT_MIN, INT_MAX; lia)
           ltac:(unfold is_int, INT_MIN, INT_MAX; lia)
           ltac:(lia) ltac:(lia) ltac:(vm_compute; congruence)
           example_half_range).
Defined.

(** ** The byte offset of a block's bitmap *)

(** X16.  [mvhd_read_sect_bitmap] and [mvhd_write_curr_sect_bitmap] address
    the bitmap of a block at its byte offset modulo 2^32: they form
    [block_offset[blk] * MVHD_SECTOR_SIZE] as a 32-bit product, where the
    loops of the readers and the writer widen to 64 bits first.  For a
    bitmap of at least one byte and at most [INT_MAX] bytes and a BAT entry
    that is not negative: the load of an allocated block is one read of the
    bitmap's length at [(block_offset * 512) mod 2^32], which fills the cache
    with the file's bytes there when the file holds them and leaves the image
    as it is; the flush of the cached block writes the cache at that same
    offset and leaves every other byte of the file as it is.  The offset is
    the block's own only when the block's bitmap starts below byte 2^32. *)
Theorem bitmap_offset_wraps v blk :
  0 < sector_count (bitmap v) * MVHD_SECTOR_SIZE <= INT_MAX ->
  0 <= block_offset v blk ->
  let place := (block_offset v blk * MVHD_SECTOR_SIZE) mod 2 ^ 32 in
  let len := sector_count (bitmap v) * MVHD_SECTOR_SIZE in
  (block_offset v blk <> MVHD_SPARSE_BLK ->
   let v' := mvhd_read_sect_bitmap v blk in
   same_image v v' /\ curr_block (bitmap v') = blk /\
   log (f v') = EvRead place len :: log (f v) /\
   (place + len <= size (f v) ->
    forall i, 0 <= i < len -> curr_bitmap (bitmap v') i = data (f v) (place + i))) /\
  (curr_block (bitmap v) = blk -> 0 <= blk ->
   let w := mvhd_write_curr_sect_bitmap v in
   log (f w) = EvWrite place len :: log (f v) /\
   (forall i, 0 <= i < len -> data (f w) (place + i) = curr_bitmap (bitmap v) i) /\
   (forall j, j < size (f v) -> ~ (place <= j < place + len) ->
      data (f w) j = data (f v) j)) /\
  (place = block_offset v blk * MVHD_SECTOR_SIZE <->
   block_offset v blk * MVHD_SECTOR_SIZE < 2 ^ 32).
Proof.
  intros Hsc Hbo place len.
  assert (Hpl : 0 <= place < 2 ^ 32) by (apply Z.mod_pos_bound; lia).
  assert (Hn : 0 < len < 2 ^ 64) by (subst len; consts; lia).
  split; [|split].
  - intros Hne v'. subst v'. unfold mvhd_read_sect_bitmap.
    apply Z.eqb_neq in Hne. rewrite Hne. cbn [negb].
    change (uint32 (block_offset v blk * MVHD_SECTOR_SIZE)) with place.
    fold len. rewrite (int32_id len) by (subst len; consts; lia).
    set (f1 := fseeko64 (f v) place SEEK_SET).
    assert (Hp1 : pos f1 = place) by (apply fseeko64_set; lia).
    assert (Hd1 : data f1 = data (f v)) by apply fseeko64_data.
    assert (Hs1 : size f1 = size (f v)) by apply fseeko64_size.
    assert (Hl1 : log f1 = log (f v)) by apply fseeko64_log.
    proj.
    split; [unfold same_image; proj; cbn [fread snd data size]; repeat split; assumption|].
    split; [reflexivity|].
    split.
    { cbn [fread snd log]. rewrite Hp1, Hl1, uint64_id by lia. reflexivity. }
    intros Hin i Hi. rewrite <- (Z.add_0_l i) at 1.
    rewrite fread_in by (try assumption; lia). rewrite Hd1, Hp1. reflexivity.
  - intros Hcb Hblk w. subst w. unfold mvhd_write_curr_sect_bitmap.
    rewrite Hcb. destruct (Z.leb_spec 0 blk); [|lia].
    change (uint32 (block_offset v blk * MVHD_SECTOR_SIZE)) with place.
    rewrite (uint64_id (sector_count (bitmap v))) by (consts; lia).
    replace (MVHD_SECTOR_SIZE * sector_count (bitmap v)) with len by (subst len; lia).
    set (f1 := fseeko64 (f v) place SEEK_SET).
    assert (Hp1 : pos f1 = place) by (apply fseeko64_set; lia).
    assert (Hd1 : data f1 = data (f v)) by apply fseeko64_data.
    assert (Hs1 : size f1 = size (f v)) by apply fseeko64_size.
    assert (Hl1 : log f1 = log (f v)) by apply fseeko64_log.
    proj. split.
    { rewrite fwrite_log, Hp1, Hl1, uint64_id by lia. reflexivity. }
    split.
    + intros i Hi. rewrite <- Hp1. rewrite fwrite_in by lia. reflexivity.
    + intros j Hj Hout. rewrite fwrite_out by lia. rewrite Hd1. reflexivity.
  - subst place. split.
    + intros E. rewrite <- E. apply Z.mod_pos_bound. lia.
    + intros Hlt. apply Z.mod_small. consts; lia.
Qed.

Lemma bitmap_offset_wraps_witness :
  let v' := mvhd_read_sect_bitmap ExampleLarge.child 0 in
  log (f v') = [EvRead 2048 512] /\
  (forall i, 0 <= i < 512 ->
     curr_bitmap (bitmap v') i = data (f ExampleLarge.child) (2048 + i)) /\
  block_offset ExampleLarge.child 0 * MVHD_SECTOR_SIZE = 2 ^ 32 + 2048.
Proof.
  pose proof (bitmap_offset_wraps ExampleLarge.child 0
                ltac:(vm_compute; split; congruence) ltac:(vm_compute; congruence)) as H.
  cbv zeta in H. destruct H as (Hload & _ & _).
  destruct (Hload ltac:(vm_compute; congruence)) as (_ & _ & Hlog & Hbytes).
  cbv zeta. split; [exact Hlog|]. split; [|reflexivity].
  exact (Hbytes ltac:(vm_compute; congruence)).
Defined.
